(** * mysql-emulator: the SELECT pipeline, the INSERT processor and the
      limit clause of the query builder, embedded from the TypeScript source.

    Source files embedded here:
    - [src/processor/select.processor.ts]  (module [Select])
    - [src/query-runner/insert.processor.ts] (module [Insert])
    - [src/parser/select-query.ts] (module [Parser])

    JavaScript values are a small tagged union, numbers are integers ([Z]);
    objects are key/value lists in the order JavaScript lists own keys
    (array indices ascending, then the other keys as they were added);
    arrays that the code mutates in place or shares live in an explicit
    store. *)

From Stdlib Require Import ZArith String Ascii List Bool Lia.
From stdpp Require Import base option list strings pretty.

Local Open Scope string_scope.
Local Open Scope list_scope.
Local Open Scope Z_scope.

Set Warnings "-register-all".

(** ** Values, exceptions and the result of a call that may throw *)

Inductive Value : Type :=
| VNumber (z : Z)
| VString (s : string)
| VBoolean (b : bool)
| VNull
| VUndefined.

(** Everything the embedded code throws or lets through. [ServerError]
    carries the machine code the INSERT processor inspects; [JsError] is a
    built-in error of the language ([TypeError], [RangeError], ...). *)
Inductive Exn : Type :=
| ProcessorException (message : string)
| EvaluatorException (message : string)
| SubQueryException (message : string)
| ProcessorError (message : string)
| ServerError (code : string) (message : string)
| JsError (name : string) (message : string).

Inductive Res (A : Type) : Type :=
| OK (a : A)
| Throw (e : Exn).
Arguments OK {A} a.
Arguments Throw {A} e.

#[global] Instance Res_ret : MRet Res := fun _ a => OK a.
#[global] Instance Res_bind : MBind Res := fun _ _ f m =>
  match m with
  | OK a => f a
  | Throw e => Throw e
  end.

(** [err.message] and [err.code] of a thrown value. *)
Definition exn_message (e : Exn) : string :=
  match e with
  | ProcessorException m | EvaluatorException m | SubQueryException m
  | ProcessorError m | ServerError _ m | JsError _ m => m
  end.

Definition exn_code (e : Exn) : option string :=
  match e with
  | ServerError c _ => Some c
  | _ => None
  end.

(** The [catch] blocks of the SELECT pipeline: an [EvaluatorException] is
    re-thrown as a [ProcessorException] tagged with the clause, anything
    else is re-thrown as it is. *)
Definition rethrow_in {A} (clause : string) (r : Res A) : Res A :=
  match r with
  | Throw (EvaluatorException m) =>
      Throw (ProcessorException (m +:+ " in '" +:+ clause +:+ "'"))
  | _ => r
  end.

(** ** JavaScript coercions used by the code *)

(** Truthiness, as [if (v)], [a || b] and [filter] see a value. *)
Definition truthy (v : Value) : bool :=
  match v with
  | VNumber z => negb (z =? 0)
  | VString s => negb (String.eqb s "")
  | VBoolean b => b
  | VNull | VUndefined => false
  end.

(** Truthiness of a [string | null] field. *)
Definition truthy_str (s : option string) : bool :=
  match s with
  | Some s => negb (String.eqb s "")
  | None => false
  end.

(** [a || b] on a nullable string and a string. *)
Definition or_str (a : option string) (b : string) : string :=
  match a with
  | Some s => if String.eqb s "" then b else s
  | None => b
  end.

(** [a || null] on a nullable string. *)
Definition or_null (a : option string) : option string :=
  if truthy_str a then a else None.

(** A template-literal hole filled with a [string | null] field. *)
Definition tpl_str (s : option string) : string :=
  match s with
  | Some s => s
  | None => "null"
  end.

(** [String(v)]. *)
Definition to_string (v : Value) : string :=
  match v with
  | VNumber z => pretty z
  | VString s => s
  | VBoolean true => "true"
  | VBoolean false => "false"
  | VNull => "null"
  | VUndefined => "undefined"
  end.

(** [Array.prototype.join]: [null] and [undefined] elements print as the
    empty string. *)
Definition join_item (v : Value) : string :=
  match v with
  | VNull | VUndefined => ""
  | _ => to_string v
  end.

Fixpoint join (sep : string) (l : list Value) : string :=
  match l with
  | [] => ""
  | [v] => join_item v
  | v :: l' => join_item v +:+ sep +:+ join sep l'
  end.

(** ** Objects: records in own-key order *)

Definition Row : Type := list (string * Value).

(** [o[k]]; [None] is [undefined] for a missing key. *)
Fixpoint obj_get (k : string) (o : Row) : option Value :=
  match o with
  | [] => None
  | (k', v) :: o' => if String.eqb k k' then Some v else obj_get k o'
  end.

(** [o[k]] as a value. *)
Definition obj_read (k : string) (o : Row) : Value :=
  default VUndefined (obj_get k o).

(** The number a decimal numeral spells, read onto [acc]. *)
Fixpoint numeral (s : string) (acc : N) : option N :=
  match s with
  | EmptyString => Some acc
  | String a s' =>
      let n := nat_of_ascii a in
      if (48 <=? n)%nat && (n <=? 57)%nat
      then numeral s' (acc * 10 + N.of_nat (n - 48)%nat)%N
      else None
  end.

(** A key that is an array index: the canonical numeral (no leading zero,
    ["0"] itself apart) of a number below [2^32 - 1]. *)
Definition array_index (k : string) : option N :=
  match k with
  | EmptyString => None
  | String a rest =>
      if Ascii.eqb a "0"%char && negb (String.eqb rest "") then None
      else
        match numeral k 0%N with
        | Some n => if (n <? 4294967295)%N then Some n else None
        | None => None
        end
  end.

(** The own keys of an object are listed with the array indices first, in
    ascending order, and the other keys after them in the order they were
    added: a new key [k] goes in front of the key [k'] when it is a smaller
    index, or an index and [k'] is none. *)
Definition precedes (k k' : string) : bool :=
  match array_index k, array_index k' with
  | Some i, Some j => (i <? j)%N
  | Some _, None => true
  | None, _ => false
  end.

(** [{...o, [k]: v}]: an existing key keeps its place, a new one goes to
    its place in the order of own keys (last, when it is no array index). *)
Fixpoint obj_set (k : string) (v : Value) (o : Row) : Row :=
  match o with
  | [] => [(k, v)]
  | (k', v') :: o' =>
      if String.eqb k k' then (k', v) :: o'
      else if precedes k k' then (k, v) :: (k', v') :: o'
      else (k', v') :: obj_set k v o'
  end.

(** [{...a, ...b}]. *)
Definition spread (a b : Row) : Row :=
  fold_left (fun acc kv => obj_set kv.1 kv.2 acc) b a.

(** [{...r}] where [r] may be [undefined]. *)
Definition spread_opt (r : option Row) : Row := default [] r.

(** [Object.keys(o)]. *)
Definition keys (o : Row) : list string := map fst o.

(** [mapKeys(o, f)] of [utils]: the same values under renamed keys. *)
Definition mapKeys (o : Row) (f : string -> string) : Row :=
  fold_left (fun acc kv => obj_set (f kv.1) kv.2 acc) o [].

(** ** Expressions and queries ([src/parser]) *)

Inductive Order : Type := ASC | DESC.

(** A field that an object may lack: [null], [undefined] when the object
    was built without the field, or the value the field holds. *)
Inductive Slot (A : Type) : Type :=
| Null
| Undefined
| Holds (a : A).

Arguments Null {A}.
Arguments Undefined {A}.
Arguments Holds {A} a.

Inductive Expression : Type :=
| NumberE (value : Z)
| StringE (value : string)
| BooleanE (value : bool)
| NullE
| DefaultE
| ColumnRefE (table : option string) (column : string)
| StarE (table : option string)
| ArrayE (values : list Expression)
| BinaryExpressionE (operator : string) (left right : Expression)
| FunctionE (name : string) (args : list Expression) (distinct : bool)
| CaseE (when : list (Expression * Expression)) (otherwise : option Expression)
| SelectE (query : SelectQuery)
with SelectQuery : Type :=
| mkSelectQuery (from : list From) (columns : list SelectColumn)
    (where_ : option Expression) (groupBy : list Expression)
    (having : Slot Expression) (orderBy : list OrderBy)
    (limit offset : Z) (distinct : bool)
with From : Type :=
| FromTable (database : option string) (table : string)
    (alias : option string) (join : option string) (on : option Expression)
| FromSelect (query : SelectQuery)
    (alias : option string) (join : option string) (on : option Expression)
with SelectColumn : Type :=
| mkSelectColumn (expr : Expression) (column : string) (alias : option string)
with OrderBy : Type :=
| mkOrderBy (expr : Expression) (order : Order).

(** The [type] tag of an expression object. *)
Definition expr_type (e : Expression) : string :=
  match e with
  | NumberE _ => "number"
  | StringE _ => "string"
  | BooleanE _ => "boolean"
  | NullE => "null"
  | DefaultE => "default"
  | ColumnRefE _ _ => "column_ref"
  | StarE _ => "star"
  | ArrayE _ => "array"
  | BinaryExpressionE _ _ _ => "binary_expression"
  | FunctionE _ _ _ => "function"
  | CaseE _ _ => "case"
  | SelectE _ => "select"
  end.

(** Fields of a query. *)
Definition q_from (q : SelectQuery) := let 'mkSelectQuery f _ _ _ _ _ _ _ _ := q in f.
Definition q_columns (q : SelectQuery) := let 'mkSelectQuery _ c _ _ _ _ _ _ _ := q in c.
Definition q_where (q : SelectQuery) := let 'mkSelectQuery _ _ w _ _ _ _ _ _ := q in w.
Definition q_groupBy (q : SelectQuery) := let 'mkSelectQuery _ _ _ g _ _ _ _ _ := q in g.
Definition q_having (q : SelectQuery) := let 'mkSelectQuery _ _ _ _ h _ _ _ _ := q in h.
Definition q_orderBy (q : SelectQuery) := let 'mkSelectQuery _ _ _ _ _ o _ _ _ := q in o.
Definition q_limit (q : SelectQuery) := let 'mkSelectQuery _ _ _ _ _ _ l _ _ := q in l.
Definition q_offset (q : SelectQuery) := let 'mkSelectQuery _ _ _ _ _ _ _ o _ := q in o.
Definition q_distinct (q : SelectQuery) := let 'mkSelectQuery _ _ _ _ _ _ _ _ d := q in d.

(** Fields of a SELECT column. A [column_ref] column is the reference
    object itself plus its alias, so its [column] is the reference's. *)
Definition c_expr (c : SelectColumn) : Expression := let 'mkSelectColumn e _ _ := c in e.
Definition c_type (c : SelectColumn) : string := expr_type (c_expr c).
Definition c_alias (c : SelectColumn) : option string := let 'mkSelectColumn _ _ a := c in a.
Definition c_column (c : SelectColumn) : string :=
  match c with
  | mkSelectColumn (ColumnRefE _ col) _ _ => col
  | mkSelectColumn _ col _ => col
  end.
Definition c_name (c : SelectColumn) : string :=
  match c_expr c with
  | FunctionE n _ _ => n
  | _ => ""
  end.
Definition c_table (c : SelectColumn) : option string :=
  match c_expr c with
  | ColumnRefE t _ | StarE t => t
  | _ => None
  end.

Definition o_expr (o : OrderBy) : Expression := let 'mkOrderBy e _ := o in e.
Definition o_order (o : OrderBy) : Order := let 'mkOrderBy _ d := o in d.

(** ** Storage ([src/server]) *)

(** Modelled from the spec: the column classes of [src/server] are not in
    src (only the constructor of [DatetimeColumn] is). A column has a name,
    a nullable flag and an optional default-value expression; the kinds are
    a tagged variant, and the auto-increment capability is a flag on the
    integer kind, whose counter [getNextAutoIncrementValue] returns and
    advances. *)
Inductive ColumnKind : Type :=
| IntegerColumn (bits : Z) (unsigned : bool) (autoIncrement : bool) (cursor : Z)
| VarcharColumn (length : Z)
| DatetimeColumn.

Record Column : Type := mkColumn {
  getName : string;
  isNullable : bool;
  getDefaultValueExpression : option Expression;
  kind : ColumnKind
}.

(** [c instanceof IntegerColumn && c.hasAutoIncrement()]. *)
Definition hasAutoIncrement (c : Column) : bool :=
  match kind c with
  | IntegerColumn _ _ a _ => a
  | _ => false
  end.

(** Modelled from the spec: [Table] of [src/server] is not in src. Rows
    are kept in insertion order under their bare column names; [insertRow]
    adds the row at the end. *)
Record Table : Type := mkTable {
  getColumns : list Column;
  getRows : list Row
}.

Definition insertRow (row : Row) (t : Table) : Table :=
  {| getColumns := getColumns t; getRows := getRows t ++ [row] |}.

(** Modelled from the spec: [Server] and [Database] of [src/server] are not
    in src. A server holds named databases, a database holds named tables,
    and a query that omits the database falls back on the current one. The
    spec does not name the error of a failed lookup; it is thrown as a
    plain [Error] here, which no [catch] of the processors intercepts. *)
Definition Database : Type := list (string * Table).

Record Server : Type := mkServer {
  currentDatabase : option string;
  databases : list (string * Database)
}.

Fixpoint assoc {A} (k : string) (l : list (string * A)) : option A :=
  match l with
  | [] => None
  | (k', a) :: l' => if String.eqb k k' then Some a else assoc k l'
  end.

Fixpoint assoc_set {A} (k : string) (a : A) (l : list (string * A)) : list (string * A) :=
  match l with
  | [] => [(k, a)]
  | (k', a') :: l' =>
      if String.eqb k k' then (k', a) :: l' else (k', a') :: assoc_set k a l'
  end.

Definition databaseName (s : Server) (name : option string) : option string :=
  match name with
  | Some n => Some n
  | None => currentDatabase s
  end.

Definition getDatabase (s : Server) (name : option string) : Res Database :=
  match databaseName s name with
  | Some n =>
      match assoc n (databases s) with
      | Some d => OK d
      | None => Throw (JsError "Error" ("Unknown database '" +:+ n +:+ "'"))
      end
  | None => Throw (JsError "Error" "No database selected")
  end.

Definition getTable (d : Database) (name : string) : Res Table :=
  match assoc name d with
  | Some t => OK t
  | None => Throw (JsError "Error" ("Unknown table '" +:+ name +:+ "'"))
  end.

(** Writing a table back where [getDatabase] and [getTable] found it: the
    table object of the source is mutated in place. *)
Definition putTable (s : Server) (db : option string) (name : string) (t : Table) : Server :=
  match databaseName s db with
  | Some n =>
      match assoc n (databases s) with
      | Some d =>
          {| currentDatabase := currentDatabase s;
             databases := assoc_set n (assoc_set name t d) (databases s) |}
      | None => s
      end
  | None => s
  end.

(** ** Monadic loops *)

Fixpoint foldlM {A B} (f : A -> B -> Res A) (l : list B) (a : A) : Res A :=
  match l with
  | [] => OK a
  | b :: l' => a' ← f a b; foldlM f l' a'
  end.

Fixpoint filterM {A} (p : A -> Res bool) (l : list A) : Res (list A) :=
  match l with
  | [] => OK []
  | a :: l' =>
      keep ← p a;
      rest ← filterM p l';
      OK (if keep : bool then a :: rest else rest)
  end.

(** [l.filter((_, i) => i >= n)], the index counted from [i]. *)
Fixpoint filter_index_ge (n : Z) (i : Z) {A} (l : list A) : list A :=
  match l with
  | [] => []
  | a :: l' =>
      if n <=? i then a :: filter_index_ge n (i + 1) l'
      else filter_index_ge n (i + 1) l'
  end.

(** [Array.prototype.sort(cmp)], which is stable: elements are inserted one
    by one, an element staying in front of those it does not exceed. A
    comparator that throws aborts the sort. The order in which an engine
    calls the comparator is not fixed by the language; nothing proved below
    depends on it. *)
Fixpoint sort_insert {A} (cmp : A -> A -> Res Z) (x : A) (l : list A) : Res (list A) :=
  match l with
  | [] => OK [x]
  | y :: l' =>
      c ← cmp x y;
      if c <=? 0 then OK (x :: y :: l')
      else r ← sort_insert cmp x l'; OK (y :: r)
  end.

Fixpoint array_sort {A} (cmp : A -> A -> Res Z) (l : list A) : Res (list A) :=
  match l with
  | [] => OK []
  | x :: l' => s ← array_sort cmp l'; sort_insert cmp x s
  end.

(** ** The SELECT pipeline ([src/processor/select.processor.ts]) *)

Module Select.

(** The evaluator of [src/processor/evaluator] is not in src: the pipeline
    is embedded over any evaluator. A row argument may be [undefined] (the
    first row of an empty group), and the group argument is absent in the
    calls of FROM, WHERE, GROUP BY and ORDER BY. [evaluateUndefined] is
    [evaluateExpression] called with [undefined] for its expression, which
    the HAVING check does on a query object that lacks [having]. *)
Record Evaluator : Type := mkEvaluator {
  evaluateExpression : Expression -> option Row -> option (list Row) -> Res Value;
  evaluateUndefined : option Row -> option (list Row) -> Res Value;
  evaluateStar : Expression -> option Row -> Res Row
}.

Record SortByKey : Type := mkSortByKey {
  mapper : Row -> Res Value;
  order : Z
}.

(** The fields of a [SelectProcessor]. Arrays are references into [heap]:
    [rows] is the array [this.rows] points to, and [groupedRows] maps a
    number to an array, in insertion order. *)
Record State : Type := mkState {
  heap : list (list Row);
  rows : nat;
  groupedRows : list (Z * nat);
  columns : list string
}.

Definition deref (h : list (list Row)) (r : nat) : list Row :=
  default [] (h !! r).

(** [this.rows = a] for a fresh array [a]. *)
Definition assign_rows (a : list Row) (st : State) : State :=
  {| heap := heap st ++ [a]; rows := length (heap st);
     groupedRows := groupedRows st; columns := columns st |}.

(** An in-place update of the array [this.rows] points to. *)
Definition update_rows (a : list Row) (st : State) : State :=
  {| heap := <[rows st := a]> (heap st); rows := rows st;
     groupedRows := groupedRows st; columns := columns st |}.

Definition push_columns (cs : list string) (st : State) : State :=
  {| heap := heap st; rows := rows st;
     groupedRows := groupedRows st; columns := columns st ++ cs |}.

Definition this_rows (st : State) : list Row := deref (heap st) (rows st).

(** [Map.prototype.get] and [set] on [groupedRows]. *)
Fixpoint map_get (k : Z) (m : list (Z * nat)) : option nat :=
  match m with
  | [] => None
  | (k', r) :: m' => if k =? k' then Some r else map_get k m'
  end.

Fixpoint map_set (k : Z) (r : nat) (m : list (Z * nat)) : list (Z * nat) :=
  match m with
  | [] => [(k, r)]
  | (k', r') :: m' =>
      if k =? k' then (k', r) :: m' else (k', r') :: map_set k r m'
  end.

(** The state of a new processor: [rows = []], no group, no column. *)
Definition init : State :=
  {| heap := [[]]; rows := 0%nat; groupedRows := []; columns := [] |}.

Definition aggregates : list string := ["count"; "sum"; "min"; "max"; "avg"].

Definition includes (l : list string) (s : string) : bool :=
  existsb (String.eqb s) l.

(** [columns.find(c => c.type === 'column_ref')] with [columns.indexOf] of
    what was found: the first such column and its index, counted from [i]. *)
Fixpoint find_column_ref (i : Z) (cs : list SelectColumn) : option (Z * SelectColumn) :=
  match cs with
  | [] => None
  | c :: cs' =>
      if String.eqb (c_type c) "column_ref" then Some (i, c)
      else find_column_ref (i + 1) cs'
  end.

Section Processor.

Variable server : Server.
(** [new Evaluator(this.server, this.context)]. *)
Variable newEvaluator : Server -> Row -> Evaluator.
(** [hashCode] and [sortBy] of [utils], which are not in src. *)
Variable hashCode : string -> Z.
Variable sortBy : list SortByKey -> Row -> Row -> Res Z.

(** The [for] loop of [joinRows] over [rowsB], for one [rowA]. *)
Fixpoint joinGroup (ev : Evaluator) (expression : option Expression)
    (rowA : Row) (rowsB : list Row) : Res (list Row) :=
  match rowsB with
  | [] => OK []
  | rowB :: rest =>
      let mergedRow := spread rowA rowB in
      keep ← match expression with
             | None => OK true
             | Some e => v ← evaluateExpression ev e (Some mergedRow) None; OK (truthy v)
             end;
      group ← joinGroup ev expression rowA rest;
      OK (if keep : bool then mergedRow :: group else group)
  end.

(** The body of the [reduce] callback of [joinRows]. A placeholder object
    is truthy even when it has no key. *)
Definition joinRow (ev : Evaluator) (expression : option Expression)
    (placeholderIfNoMatch : option Row) (rowA : Row) (rowsB : list Row) : Res (list Row) :=
  rethrow_in "on clause"
    (group ← joinGroup ev expression rowA rowsB;
     OK (match group, placeholderIfNoMatch with
         | [], Some p => [spread rowA p]
         | _, _ => group
         end)).

Definition joinRows (ev : Evaluator) (rowsA rowsB : list Row)
    (expression : option Expression) (placeholderIfNoMatch : option Row) : Res (list Row) :=
  foldlM (fun res rowA =>
            group ← joinRow ev expression placeholderIfNoMatch rowA rowsB;
            OK (res ++ group))
         rowsA [].

(** [columns.reduce((res, key) => ({ ...res, [key]: null }), {})]. *)
Definition placeholder (cols : list string) : Row :=
  fold_left (fun res key => obj_set key VNull res) cols [].

(** The rows and scope keys one FROM source contributes. *)
Definition sourceRows (sub : SelectQuery -> Res (list Row)) (f : From)
    : Res (list Row * list string) :=
  match f with
  | FromSelect query alias _ _ =>
      if negb (truthy_str alias)
      then Throw (SubQueryException "Every derived table must have its own alias")
      else
        r ← sub query;
        let rs := map (fun r => mapKeys r (fun key => tpl_str alias +:+ "::" +:+ key)) r in
        OK (rs, match rs with [] => [] | r0 :: _ => keys r0 end)
  | FromTable database table alias _ _ =>
      db ← getDatabase server database;
      t ← getTable db table;
      let keyMapper := fun key => or_str alias table +:+ "::" +:+ key in
      OK (map (fun r => mapKeys r keyMapper) (getRows t),
          map (fun c => keyMapper (getName c)) (getColumns t))
  end.

Definition from_join (f : From) : option string :=
  match f with
  | FromTable _ _ _ j _ | FromSelect _ _ j _ => j
  end.

Definition from_on (f : From) : option Expression :=
  match f with
  | FromTable _ _ _ _ o | FromSelect _ _ _ o => o
  end.

(** The double-quote character. *)
Definition quote : string := String (ascii_of_nat 34) EmptyString.

(** One iteration of the [forEach] of [applyFrom], at index [i]. *)
Definition fromStep (ev : Evaluator) (sub : SelectQuery -> Res (list Row))
    (f : From) (i : nat) (st : State) : Res State :=
  '(rs, cols) ← sourceRows sub f;
  let st := push_columns cols st in
  match i, from_join f with
  | O, _ => OK (assign_rows rs st)
  | _, None =>
      j ← joinRows ev (this_rows st) rs None None; OK (assign_rows j st)
  | _, Some join =>
      if String.eqb join "CROSS JOIN" then
        j ← joinRows ev (this_rows st) rs (from_on f) None; OK (assign_rows j st)
      else if String.eqb join "INNER JOIN" then
        j ← joinRows ev (this_rows st) rs (from_on f) None; OK (assign_rows j st)
      else if String.eqb join "LEFT JOIN" then
        j ← joinRows ev (this_rows st) rs (from_on f) (Some (placeholder cols));
        OK (assign_rows j st)
      else
        Throw (ProcessorException ("Unknown " +:+ quote +:+ join +:+ quote +:+ " join type"))
  end.

Fixpoint applyFrom_loop (ev : Evaluator) (sub : SelectQuery -> Res (list Row))
    (froms : list From) (i : nat) (st : State) : Res State :=
  match froms with
  | [] => OK st
  | f :: rest =>
      st' ← fromStep ev sub f i st;
      applyFrom_loop ev sub rest (S i) st'
  end.

Definition applyFrom (ev : Evaluator) (sub : SelectQuery -> Res (list Row))
    (q : SelectQuery) (st : State) : Res State :=
  applyFrom_loop ev sub (q_from q) 0 st.

Definition applyWhere (ev : Evaluator) (q : SelectQuery) (st : State) : Res State :=
  match q_where q with
  | None => OK st
  | Some where_ =>
      rethrow_in "where clause"
        (rs ← filterM (fun row => v ← evaluateExpression ev where_ (Some row) None;
                                  OK (truthy v))
                      (this_rows st);
         OK (assign_rows rs st))
  end.

(** [this.groupedRows.set(hash, [...(this.groupedRows.get(hash) || []), row])]:
    the group is copied into a new array with [row] at its end. *)
Definition groupRow (ev : Evaluator) (groupBy : list Expression)
    (st : State) (row : Row) : Res State :=
  vs ← mapM (fun c => evaluateExpression ev c (Some row) None) groupBy;
  let hash := hashCode (join "::" vs) in
  let old := match map_get hash (groupedRows st) with
             | Some r => deref (heap st) r
             | None => []
             end in
  OK {| heap := heap st ++ [old ++ [row]]; rows := rows st;
        groupedRows := map_set hash (length (heap st)) (groupedRows st);
        columns := columns st |}.

Definition hasAggregateFunction (cs : list SelectColumn) : bool :=
  existsb (fun c => String.eqb (c_type c) "function" && includes aggregates (c_name c)) cs.

Definition nonaggregated_message (columnRefIndex : Z) (columnRef : SelectColumn) : string :=
  let columnName :=
    if truthy_str (c_table columnRef)
    then tpl_str (c_table columnRef) +:+ "." +:+ c_column columnRef
    else c_column columnRef in
  "In aggregated query without GROUP BY, " +:+
  "expression #" +:+ pretty (columnRefIndex + 1) +:+
  " of SELECT list contains nonaggregated column '" +:+ columnName +:+ "'".

(** In single-group mode the group is the array [this.rows] points to, not
    a copy of it. *)
Definition applyGroupBy (ev : Evaluator) (q : SelectQuery) (st : State) : Res State :=
  match q_groupBy q with
  | [] =>
      if negb (hasAggregateFunction (q_columns q)) then OK st
      else
        match find_column_ref 0 (q_columns q) with
        | Some (columnRefIndex, columnRef) =>
            Throw (ProcessorException (nonaggregated_message columnRefIndex columnRef))
        | None =>
            OK {| heap := heap st; rows := rows st;
                  groupedRows := map_set 1 (rows st) (groupedRows st);
                  columns := columns st |}
        end
  | groupBy =>
      rethrow_in "group statement" (foldlM (groupRow ev groupBy) (this_rows st) st)
  end.

(** [this.rows = this.rows.sort(...)]: the array is sorted in place, and
    every holder of the array sees it sorted. *)
Definition applyOrderBy (ev : Evaluator) (q : SelectQuery) (st : State) : Res State :=
  match q_orderBy q with
  | [] => OK st
  | orderBy =>
      rethrow_in "order clause"
        (let sortKeys :=
           map (fun o => {| mapper := fun row => evaluateExpression ev (o_expr o) (Some row) None;
                            order := match o_order o with ASC => 1 | DESC => -1 end |})
               orderBy in
         sorted ← array_sort (sortBy sortKeys) (this_rows st);
         OK (update_rows sorted st))
  end.

Definition hasType (types : list string) (cs : list SelectColumn) : bool :=
  existsb (fun c => includes types (c_type c)) cs.

(** The test that puts one empty row in front of SELECT. *)
Definition injectsRow (cs : list SelectColumn) : bool :=
  hasType ["function"] cs || hasType ["binary_expression"] cs
  || hasType ["number"; "string"; "boolean"; "null"] cs
  || hasType ["case"] cs || hasType ["select"] cs.

Definition injectRow (q : SelectQuery) (st : State) : State :=
  if (length (this_rows st) =? 0)%nat && injectsRow (q_columns q)
  then assign_rows [[]] st
  else st.

Definition aliasKeys (cs : list SelectColumn) : list string :=
  omap (fun c => if negb (String.eqb (c_type c) "star") && truthy_str (c_alias c)
                 then Some ("::" +:+ tpl_str (c_alias c)) else None) cs.

(** One step of the [reduce] of [mapRow]; the accumulator carries the
    mapped row and [rawRowWithAliases]. *)
Definition mapColumn (ev : Evaluator) (rawRow : option Row) (group : list Row)
    (acc : Row * option Row) (c : SelectColumn) : Res (Row * option Row) :=
  let '(res, rawRowWithAliases) := acc in
  if String.eqb (c_type c) "star" then
    s ← evaluateStar ev (c_expr c) rawRow;
    OK (spread res s, rawRowWithAliases)
  else
    value ← evaluateExpression ev (c_expr c) rawRow (Some group);
    OK (obj_set (or_str (c_alias c) (c_column c)) value res,
        if truthy_str (c_alias c)
        then Some (obj_set ("::" +:+ tpl_str (c_alias c)) value (spread_opt rawRowWithAliases))
        else rawRowWithAliases).

Definition mapRow (ev : Evaluator) (q : SelectQuery) (rawRow : option Row)
    (group : list Row) : Res (Row * option Row) :=
  rethrow_in "field list" (foldlM (mapColumn ev rawRow group) (q_columns q) ([], rawRow)).

(** [this.query.having === null] holds of [null] only: with a [having]
    that is [undefined] the evaluator is called, on [undefined]. *)
Definition checkIfKeep (ev : Evaluator) (q : SelectQuery) (row : option Row)
    (group : list Row) : Res bool :=
  match q_having q with
  | Null => OK true
  | Undefined =>
      rethrow_in "having clause"
        (v ← evaluateUndefined ev row (Some group); OK (truthy v))
  | Holds having =>
      rethrow_in "having clause"
        (v ← evaluateExpression ev having row (Some group); OK (truthy v))
  end.

(** The two [forEach] loops of [applySelectAndHaving]: each input is a raw
    row with its group, and the kept mapped rows are pushed in order. *)
Fixpoint selectRows (ev : Evaluator) (q : SelectQuery)
    (inputs : list (option Row * list Row)) : Res (list Row) :=
  match inputs with
  | [] => OK []
  | (rawRow, group) :: rest =>
      '(mappedRow, rawRowWithAliases) ← mapRow ev q rawRow group;
      keep ← checkIfKeep ev q rawRowWithAliases group;
      out ← selectRows ev q rest;
      OK (if keep : bool then mappedRow :: out else out)
  end.

Definition selectInputs (st : State) : list (option Row * list Row) :=
  match groupedRows st with
  | [] => map (fun rawRow => (Some rawRow, [])) (this_rows st)
  | groups => map (fun g => let group := deref (heap st) g.2 in (head group, group)) groups
  end.

(** The DISTINCT filter; [index] is the set of joined values seen so far. *)
Fixpoint distinctRows (ks : list string) (index : list string) (l : list Row) : list Row :=
  match l with
  | [] => []
  | row :: l' =>
      let value := join "-" (map (fun key => obj_read key row) ks) in
      if includes index value then distinctRows ks index l'
      else row :: distinctRows ks (value :: index) l'
  end.

Definition applyDistinct (q : SelectQuery) (l : list Row) : list Row :=
  match q_distinct q, l with
  | true, r0 :: _ => distinctRows (keys r0) [] l
  | _, _ => l
  end.

Definition applySelectAndHaving (ev : Evaluator) (q : SelectQuery) (st : State) : Res State :=
  let st := injectRow q st in
  let st := push_columns (aliasKeys (q_columns q)) st in
  out ← selectRows ev q (selectInputs st);
  OK (assign_rows (applyDistinct q out) st).

(** [this.rows.length = limit] throws a [RangeError] for a negative length. *)
Definition applyLimit (q : SelectQuery) (st : State) : Res State :=
  let st := if negb (q_offset q =? 0)
            then assign_rows (filter_index_ge (q_offset q) 0 (this_rows st)) st
            else st in
  if negb (q_limit q =? 0) && (q_limit q <? Z.of_nat (length (this_rows st)))
  then
    if q_limit q <? 0 then Throw (JsError "RangeError" "Invalid array length")
    else OK (update_rows (take (Z.to_nat (q_limit q)) (this_rows st)) st)
  else OK st.

(** The stages after FROM, which do not run sub-queries of their own. *)
Definition afterFrom (ev : Evaluator) (q : SelectQuery) (st : State) : Res (list Row) :=
  st ← applyWhere ev q st;
  st ← applyGroupBy ev q st;
  st ← applyOrderBy ev q st;
  st ← applySelectAndHaving ev q st;
  st ← applyLimit q st;
  OK (this_rows st).

(** [new SelectProcessor(server, query, context).process()]; a derived
    table is processed with the default context [{}]. *)
Fixpoint process (q : SelectQuery) (context : Row) {struct q} : Res (list Row) :=
  let ev := newEvaluator server context in
  st ← applyFrom_loop ev (fun q' => process q' [])
         (match q with mkSelectQuery from _ _ _ _ _ _ _ _ => from end) 0 init;
  afterFrom ev q st.

End Processor.

End Select.

(** ** The INSERT processor ([src/query-runner/insert.processor.ts]) *)

Module Insert.

Record InsertQuery : Type := mkInsertQuery {
  database : option string;
  table : string;
  columns : option (list string);
  values : list (list Expression)
}.

Record Summary : Type := mkSummary {
  affectedRows : Z;
  insertId : Value
}.

(** What [process] mutates: the target table (its rows and the counters of
    its columns) and the two locals [insertId] and [affectedRows]. *)
Record St : Type := mkSt {
  st_table : Table;
  st_insertId : Value;
  st_affectedRows : Z
}.

(** A computation over [St] that may throw; the state reached when it
    throws is kept, since the table is not rolled back. *)
Definition M (A : Type) : Type := St -> Res A * St.

#[global] Instance M_ret : MRet M := fun _ a st => (OK a, st).
#[global] Instance M_bind : MBind M := fun _ _ f m st =>
  match m st with
  | (OK a, st') => f a st'
  | (Throw e, st') => (Throw e, st')
  end.

Definition throw {A} (e : Exn) : M A := fun st => (Throw e, st).
Definition lift {A} (r : Res A) : M A := fun st => (r, st).
Definition get_table : M Table := fun st => (OK (st_table st), st).
Definition set_table (t : Table) : M unit := fun st =>
  (OK tt, {| st_table := t; st_insertId := st_insertId st;
             st_affectedRows := st_affectedRows st |}).
Definition set_insertId (v : Value) : M unit := fun st =>
  (OK tt, {| st_table := st_table st; st_insertId := v;
             st_affectedRows := st_affectedRows st |}).
Definition incr_affectedRows : M unit := fun st =>
  (OK tt, {| st_table := st_table st; st_insertId := st_insertId st;
             st_affectedRows := st_affectedRows st + 1 |}).

(** [try { m } catch (err) { h err }], the state carried through. *)
Definition try_catch {A} (m : M A) (h : Exn -> M A) : M A := fun st =>
  match m st with
  | (OK a, st') => (OK a, st')
  | (Throw e, st') => h e st'
  end.

Fixpoint foldM {A B} (f : A -> B -> M A) (l : list B) (a : A) : M A :=
  match l with
  | [] => mret a
  | b :: l' => a' ← f a b; foldM f l' a'
  end.

(** [values.forEach((values, rowIndex) => ...)], the index counted from [i]. *)
Fixpoint forEach {B} (f : B -> Z -> M unit) (l : list B) (i : Z) : M unit :=
  match l with
  | [] => mret tt
  | b :: l' => _ ← f b i; forEach f l' (i + 1)
  end.

(** Modelled from the spec: [IntegerColumn.getNextAutoIncrementValue] is
    not in src. The counter returns its next value and advances; the first
    value handed out by a fresh column ([cursor = 0]) is 1. *)
Definition nextAutoIncrementValue (c : Column) : Z * Column :=
  match kind c with
  | IntegerColumn bits u a cursor =>
      (cursor + 1,
       {| getName := getName c; isNullable := isNullable c;
          getDefaultValueExpression := getDefaultValueExpression c;
          kind := IntegerColumn bits u a (cursor + 1) |})
  | _ => (0, c)
  end.

(** The column objects are shared with the table: a column is addressed by
    its position in [table.getColumns()]. *)
Definition getNextAutoIncrementValue (i : nat) : M Value := fun st =>
  let t := st_table st in
  match getColumns t !! i with
  | Some c =>
      let '(v, c') := nextAutoIncrementValue c in
      (OK (VNumber v),
       {| st_table := {| getColumns := <[i := c']> (getColumns t); getRows := getRows t |};
          st_insertId := st_insertId st; st_affectedRows := st_affectedRows st |})
  | None => (Throw (JsError "TypeError" "column is undefined"), st)
  end.

(** The column object at position [ic.1] as it is now. *)
Definition liveColumn (ic : nat * Column) : M Column := fun st =>
  (OK (default ic.2 (getColumns (st_table st) !! ic.1)), st).

(** [columnDefinitionMap.get(column)]: of several columns of one name the
    map keeps the last. *)
Fixpoint lookupColumn (name : string) (cs : list Column) (i : nat) : option (nat * Column) :=
  match cs with
  | [] => None
  | c :: cs' =>
      match lookupColumn name cs' (S i) with
      | Some r => Some r
      | None => if String.eqb name (getName c) then Some (i, c) else None
      end
  end.

Section Processor.

Variable server : Server.
(** [new Evaluator(server, scope).evaluateExpression] of
    [src/query-runner/evaluator], which is not in src; it holds the server,
    whose target table changes during the insert. *)
Variable evaluateExpression : Server -> list string -> Expression -> Row -> Res Value.
(** [Column.cast] of [src/server], which is not in src. *)
Variable cast : Column -> Value -> Res Value.

Section Query.

Variable query : InsertQuery.

Definition evaluate (scope : list string) (e : Expression) (row : Row) : M Value := fun st =>
  (evaluateExpression (putTable server (database query) (table query) (st_table st)) scope e row, st).

Definition getColumnDefinition (cs : list Column) (column : string) : M (nat * Column) :=
  match lookupColumn column cs 0 with
  | Some r => mret r
  | None => throw (ProcessorError ("Unknown column '" +:+ column +:+ "' in 'field list'"))
  end.

Definition evaluateDefaultValue (scope : list string) (column : nat * Column) (row : Row) : M Value :=
  if hasAutoIncrement column.2 then getNextAutoIncrementValue column.1
  else
    match getDefaultValueExpression column.2 with
    | Some defaultValue => evaluate scope defaultValue row
    | None => mret VNull
    end.

(** The [reduce] that builds [rawRow], one value expression at a time. *)
Definition rawRowStep (scope : list string) (cs : list Column)
    (res : Row) (cv : string * Expression) : M Row :=
  v ← (if String.eqb (expr_type cv.2) "default"
       then c ← getColumnDefinition cs cv.1; evaluateDefaultValue scope c res
       else evaluate scope cv.2 res);
  mret (obj_set (table query +:+ "::" +:+ cv.1) v res).

(** [a ?? b]. *)
Definition nullish (v : Value) : bool :=
  match v with
  | VNull | VUndefined => true
  | _ => false
  end.

Definition is_null (v : Value) : bool :=
  match v with
  | VNull => true
  | _ => false
  end.

Definition cast_codes : list string := ["OUT_OF_RANGE_VALUE"; "INCORRECT_INTEGER_VALUE"].

Definition code_included (e : Exn) : bool :=
  match exn_code e with
  | Some c => existsb (String.eqb c) cast_codes
  | None => false
  end.

(** The value the final row gets for a column, before the cast. *)
Definition columnValue (scope : list string) (rawRow : Row) (ic : nat * Column) : M Value :=
  let columnRef := ColumnRefE (Some (table query)) (getName ic.2) in
  v ← evaluate scope columnRef rawRow;
  if nullish v then evaluateDefaultValue scope ic rawRow else mret v.

(** The [reduce] that builds the final row, one column at a time. *)
Definition rowStep (scope : list string) (rawRow : Row) (rowIndex : Z)
    (res : Row) (ic : nat * Column) : M Row :=
  let c := ic.2 in
  value ← columnValue scope rawRow ic;
  _ ← (if is_null value && negb (isNullable c)
       then throw (ProcessorError ("Field '" +:+ getName c +:+ "' doesn't have a default value"))
       else mret tt);
  _ ← (if hasAutoIncrement c then set_insertId value else mret tt);
  try_catch
    (live ← liveColumn ic;
     v ← lift (cast live value); mret (obj_set (getName c) v res))
    (fun err =>
       if code_included err
       then throw (ProcessorError (exn_message err +:+ " at row " +:+ pretty (rowIndex + 1)))
       else throw err).

Definition indexed (cs : list Column) : list (nat * Column) :=
  imap (fun i c => (i, c)) cs.

(** The body of [query.values.forEach]. *)
Definition insertValues (columnDefinitions : list Column) (scope cols : list string)
    (values : list Expression) (rowIndex : Z) : M unit :=
  if negb (length values =? length cols)%nat
  then throw (ProcessorError ("Column count doesn't match value count at row "
                              +:+ pretty (rowIndex + 1)))
  else
    rawRow ← foldM (rawRowStep scope columnDefinitions) (zip cols values) [];
    row ← foldM (rowStep scope rawRow rowIndex) (indexed columnDefinitions) [];
    t ← get_table;
    _ ← set_table (insertRow row t);
    incr_affectedRows.

Definition processTable (t : Table) : Res Summary * Table :=
  let columnDefinitions := getColumns t in
  let scope := map (fun c => table query +:+ "::" +:+ getName c) columnDefinitions in
  let cols := default (map getName columnDefinitions) (columns query) in
  let '(r, st) :=
    forEach (insertValues columnDefinitions scope cols) (values query) 0
      {| st_table := t; st_insertId := VNumber 0; st_affectedRows := 0 |} in
  (_ ← r; OK {| affectedRows := st_affectedRows st; insertId := st_insertId st |},
   st_table st).

(** [new InsertProcessor(server).process(query)]: what it returns or
    throws, and the server afterwards. *)
Definition process : Res Summary * Server :=
  match db ← getDatabase server (database query); getTable db (table query) with
  | OK t =>
      let '(r, t') := processTable t in
      (r, putTable server (database query) (table query) t')
  | Throw e => (Throw e, server)
  end.

End Query.

End Processor.

End Insert.

(** ** The earlier SELECT processor ([src/query-runner/select.processor.ts]) *)

Module QueryRunner.

(** The query this processor reads: at most one source, named by database
    and table, the columns and the WHERE expression. *)
Record SelectQuery : Type := mkQuery {
  from : option (option string * string);
  columns : list SelectColumn;
  where_ : option Expression
}.

Section Processor.

Variable server : Server.
(** [new Evaluator(server, columns)] of [src/query-runner/evaluator], which
    is not in src: its two methods, over the scope list it is built with. *)
Variable evaluateExpression : Server -> list string -> Expression -> Row -> Res Value.
Variable evaluateStar : Server -> list string -> Expression -> Row -> Res Row.

(** The rows and the scope list after [applyFrom]. *)
Definition applyFrom (q : SelectQuery) : Res (list Row * list string) :=
  match from q with
  | None => OK ([], [])
  | Some (databaseName, tableName) =>
      db ← getDatabase server databaseName;
      table ← getTable db tableName;
      OK (map (fun r => mapKeys r (fun key => tableName +:+ "::" +:+ key)) (getRows table),
          map (fun c => tableName +:+ "::" +:+ getName c) (getColumns table))
  end.

Definition applyWhere (q : SelectQuery) (cols : list string) (rows : list Row)
    : Res (list Row) :=
  match where_ q with
  | None => OK rows
  | Some where_ =>
      filterM (fun row => v ← evaluateExpression server cols where_ row; OK (truthy v)) rows
  end.

(** [columns.find(c => c.type === 'function')], as a condition. *)
Definition hasFunctionColumn (cs : list SelectColumn) : bool :=
  existsb (fun c => String.eqb (c_type c) "function") cs.

(** The computed key of a column: the alias of a function column, [null]
    included, and the alias or else the column name of any other. *)
Definition key (c : SelectColumn) : string :=
  if String.eqb (c_type c) "function" then tpl_str (c_alias c)
  else or_str (c_alias c) (c_column c).

(** One step of the [reduce] over the columns. *)
Definition selectColumn (cols : list string) (row : Row) (res : Row) (c : SelectColumn)
    : Res Row :=
  if String.eqb (c_type c) "star" then
    s ← evaluateStar server cols (c_expr c) row; OK (spread res s)
  else
    v ← evaluateExpression server cols (c_expr c) row; OK (obj_set (key c) v res).

Definition applySelect (q : SelectQuery) (cols : list string) (rows : list Row)
    : Res (list Row) :=
  let rows := if (length rows =? 0)%nat && hasFunctionColumn (columns q) then [[]] else rows in
  mapM (fun row => foldlM (selectColumn cols row) (columns q) []) rows.

(** [new SelectProcessor(server, query).process()]. *)
Definition process (q : SelectQuery) : Res (list Row) :=
  '(rows, cols) ← applyFrom q;
  rows ← applyWhere q cols rows;
  applySelect q cols rows.

End Processor.

End QueryRunner.

(** ** Building a [SelectQuery] ([src/parser/select-query.ts]) *)

Module Parser.

(** The nodes of the parser library's tree that [fromAst] looks into. *)
Inductive AstExpr : Type :=
| AstColumnRef (table : option string) (column : string)
| AstNumber (value : Z)
| AstString (value : string)
| AstBinaryExpr (operator : string) (left right : AstExpr)
| AstAggrFunc (name : string) (args : list AstExpr)
| AstFunction (name : string) (args : list AstExpr)
| AstStar
| AstOther (type : string).

Definition ast_type (e : AstExpr) : string :=
  match e with
  | AstColumnRef _ _ => "column_ref"
  | AstNumber _ => "number"
  | AstString _ => "string"
  | AstBinaryExpr _ _ _ => "binary_expr"
  | AstAggrFunc _ _ => "aggr_func"
  | AstFunction _ _ => "function"
  | AstStar => "star"
  | AstOther t => t
  end.

Definition ast_name (e : AstExpr) : string :=
  match e with
  | AstAggrFunc n _ | AstFunction n _ => n
  | _ => "undefined"
  end.

Inductive AstColumn : Type :=
| AstAll
| AstExprColumn (expr : AstExpr) (as_ : option string).

Record AstFrom : Type := mkAstFrom {
  f_db : option string;
  f_table : string;
  f_as : option string;
  f_join : option string;
  f_on : option AstExpr
}.

Record AstOrderBy : Type := mkAstOrderBy {
  o_expr : AstExpr;
  o_type : Order
}.

(** [ast.limit]: the separator (spelt as the library spells it) and the
    [value] field of each entry. *)
Record AstLimit : Type := mkAstLimit {
  seperator : string;
  value : list Z
}.

Record Select : Type := mkSelect {
  from : option (list AstFrom);
  columns : list AstColumn;
  where_ : option AstExpr;
  groupby : option (list AstExpr);
  orderby : option (list AstOrderBy);
  limit : option AstLimit
}.

(** The [limit] and [offset] of a query, from [ast.limit]. *)
Definition limitOffset (l : option AstLimit) : Z * Z :=
  match l with
  | Some {| seperator := sep; value := [limit] |} => (limit, 0)
  | Some {| seperator := sep; value := [v0; v1] |} =>
      if String.eqb sep "," then (v1, v0)
      else if String.eqb sep "offset" then (v0, v1)
      else (0, 0)
  | _ => (0, 0)
  end.

Section Builder.

(** [buildExpression] of [src/parser/expression], which is not in src. *)
Variable buildExpression : AstExpr -> list (string * string) -> Res Expression.

Definition tableAliases (fs : list AstFrom) : list (string * string) :=
  fold_left (fun m f => if truthy_str (f_as f) then assoc_set (tpl_str (f_as f)) (f_table f) m else m)
            fs [].

Definition buildOption (aliases : list (string * string)) (e : option AstExpr)
    : Res (option Expression) :=
  match e with
  | Some e => x ← buildExpression e aliases; OK (Some x)
  | None => OK None
  end.

Definition buildFrom (aliases : list (string * string)) (f : AstFrom) : Res From :=
  on ← buildOption aliases (f_on f);
  OK (FromTable (or_null (f_db f)) (f_table f) None (or_null (f_join f)) on).

Definition buildColumn (aliases : list (string * string)) (c : AstColumn) : Res SelectColumn :=
  match c with
  | AstAll => e ← buildExpression AstStar aliases; OK (mkSelectColumn e "" None)
  | AstExprColumn (AstColumnRef t "*" as expr) _ =>
      e ← buildExpression expr aliases; OK (mkSelectColumn e "" None)
  | AstExprColumn (AstColumnRef _ _ as expr) as_ =>
      e ← buildExpression expr aliases; OK (mkSelectColumn e "" as_)
  | AstExprColumn expr as_ =>
      if Select.includes ["binary_expr"; "aggr_func"; "function"] (ast_type expr) then
        e ← buildExpression expr aliases;
        OK (mkSelectColumn e
              (if Select.includes ["aggr_func"; "function"] (ast_type expr)
               then ast_name expr +:+ "()" else "")
              as_)
      else Throw (JsError "Error" "Could not map columns")
  end.

Definition buildOrderBy (aliases : list (string * string)) (o : AstOrderBy) : Res OrderBy :=
  e ← buildExpression (o_expr o) aliases; OK (mkOrderBy e (o_type o)).

(** [SelectQuery.fromAst]. The class built here has neither [having] nor
    [distinct], nor an alias or a type on its sources. In the object it
    builds these fields are [undefined]: a [distinct] that is [undefined]
    is as falsy as [false], an alias as falsy as [null], a type is not
    ['select'], and [having] is [Undefined]. *)
Definition fromAst (ast : Select) : Res SelectQuery :=
  let aliases := tableAliases (default [] (from ast)) in
  from ← mapM (buildFrom aliases) (default [] (from ast));
  columns ← mapM (buildColumn aliases) (columns ast);
  groupBy ← mapM (fun g => buildExpression g aliases) (default [] (groupby ast));
  orderBy ← mapM (buildOrderBy aliases) (default [] (orderby ast));
  where_ ← buildOption aliases (where_ ast);
  let '(limit, offset) := limitOffset (limit ast) in
  OK (mkSelectQuery from columns where_ groupBy Undefined orderBy limit offset false).

End Builder.

End Parser.

(** ** The collaborators that are not in src, modelled from the spec *)

Module Spec.

(** The position of the first ["::"] of a qualified key: the qualifier
    before it and the column after it. *)
Fixpoint split_key (k : string) : option (string * string) :=
  match k with
  | String ":" (String ":" rest) => Some ("", rest)
  | String a rest =>
      match split_key rest with
      | Some (t, c) => Some (String a t, c)
      | None => None
      end
  | EmptyString => None
  end.

(** The keys [?::c] of a row, for a bare column [c]. *)
Definition bare_matches (c : string) (row : Row) : list Value :=
  omap (fun kv => match split_key kv.1 with
                  | Some (t, c') =>
                      if negb (String.eqb t "") && String.eqb c c' then Some kv.2 else None
                  | None => None
                  end) row.

Definition column_text (table : option string) (column : string) : string :=
  match table with
  | Some t => t +:+ "." +:+ column
  | None => column
  end.

(** Modelled from the spec: the rule of the evaluator for a [column_ref]
    (section 4.3): try [T::c], then the alias key [::c], then, when no
    table is given, a single [?::c]; two such matches are ambiguous and no
    match is an unknown column. A column that the scope list declares but
    the row leaves unset reads as [undefined] (section 4.6, step 3). *)
Definition resolve (scope : list string) (table : option string) (column : string)
    (row : Row) : Res Value :=
  let qualified := match table with
                   | Some t => obj_get (t +:+ "::" +:+ column) row
                   | None => None
                   end in
  match qualified with
  | Some v => OK v
  | None =>
      match obj_get ("::" +:+ column) row with
      | Some v => OK v
      | None =>
          match table, bare_matches column row with
          | None, [v] => OK v
          | None, _ :: _ :: _ =>
              Throw (EvaluatorException ("Column '" +:+ column +:+ "' in field list is ambiguous"))
          | _, _ =>
              if Select.includes scope (tpl_str table +:+ "::" +:+ column)
              then OK VUndefined
              else Throw (EvaluatorException
                            ("Unknown column '" +:+ column_text table column +:+ "'"))
          end
      end
  end.

Definition not_modelled {A} (what : string) : Res A :=
  Throw (JsError "NotModelled" what).

(** Numbers compare numerically and strings lexicographically. *)
Definition compareValues (a b : Value) : Res comparison :=
  match a, b with
  | VNumber x, VNumber y => OK (x ?= y)
  | VString x, VString y => OK (String.compare x y)
  | VBoolean x, VBoolean y => OK (Z.b2z x ?= Z.b2z y)
  | _, _ => not_modelled "comparison of values of two types"
  end.

Definition is_nullish (v : Value) : bool :=
  match v with
  | VNull | VUndefined => true
  | _ => false
  end.

Definition comparison_op (op : string) (c : comparison) : option bool :=
  match op, c with
  | "=", Eq => Some true
  | "=", _ => Some false
  | "!=", Eq => Some false
  | "!=", _ => Some true
  | "<", Lt => Some true
  | "<", _ => Some false
  | "<=", Gt => Some false
  | "<=", _ => Some true
  | ">", Gt => Some true
  | ">", _ => Some false
  | ">=", Lt => Some false
  | ">=", _ => Some true
  | _, _ => None
  end.

Definition arithmetic_op (op : string) (x y : Z) : option Z :=
  match op with
  | "+" => Some (x + y)
  | "-" => Some (x - y)
  | "*" => Some (x * y)
  | _ => None
  end.

(** Modelled from the spec: the rule of the evaluator for a
    [binary_expression] (section 4.3) on evaluated sides: three-valued
    [AND] and [OR], [null] from arithmetic and comparison on [null].
    [IN], [LIKE], [IS], [IS NOT] and [/] are outside this model. *)
Definition binary (op : string) (l r : Value) : Res Value :=
  match op with
  | "AND" =>
      if negb (is_nullish l) && negb (truthy l) then OK (VBoolean false)
      else if negb (is_nullish r) && negb (truthy r) then OK (VBoolean false)
      else if is_nullish l || is_nullish r then OK VNull
      else OK (VBoolean true)
  | "OR" =>
      if truthy l || truthy r then OK (VBoolean true)
      else if is_nullish l || is_nullish r then OK VNull
      else OK (VBoolean false)
  | "IN" | "LIKE" | "/" | "IS" | "IS NOT" => not_modelled op
  | _ =>
      if is_nullish l || is_nullish r then OK VNull
      else
        match l, r, arithmetic_op op 0 0 with
        | VNumber x, VNumber y, Some _ => OK (VNumber (default 0 (arithmetic_op op x y)))
        | _, _, Some _ => not_modelled "arithmetic on values that are not numbers"
        | _, _, None =>
            c ← compareValues l r;
            match comparison_op op c with
            | Some b => OK (VBoolean b)
            | None => not_modelled op
            end
        end
  end.

Definition lower_ascii (a : ascii) : ascii :=
  let n := nat_of_ascii a in
  if (65 <=? n)%nat && (n <=? 90)%nat then ascii_of_nat (n + 32) else a.

Fixpoint lower (s : string) : string :=
  match s with
  | EmptyString => EmptyString
  | String a s' => String (lower_ascii a) (lower s')
  end.

(** The values of an aggregate's argument that are not [null]. *)
Definition non_null (vs : list Value) : list Value :=
  filter (fun v => is_nullish v = false) vs.

Fixpoint dedupe (seen : list string) (vs : list Value) : list Value :=
  match vs with
  | [] => []
  | v :: vs' =>
      if Select.includes seen (to_string v) then dedupe seen vs'
      else v :: dedupe (to_string v :: seen) vs'
  end.

Definition sum_values (vs : list Value) : Res Value :=
  foldlM (fun acc v =>
            match acc, v with
            | VNull, VNumber x => OK (VNumber x)
            | VNumber a, VNumber x => OK (VNumber (a + x))
            | _, _ => not_modelled "sum of values that are not numbers"
            end) vs VNull.

(** The least ([want = Lt]) or greatest ([want = Gt]) value. *)
Definition extreme (want : comparison) (vs : list Value) : Res Value :=
  foldlM (fun acc v =>
            if is_nullish acc then OK v
            else c ← compareValues v acc;
                 OK (if comparison_eq_dec c want then v else acc)) vs VNull.

(** Modelled from the spec: an aggregate folds over the evaluations of its
    argument on the rows of the group (section 4.3). [avg] is outside this
    model. *)
Definition aggregate (name : string) (distinct : bool) (vs : list Value) : Res Value :=
  let vs := non_null vs in
  let vs := if distinct then dedupe [] vs else vs in
  match name with
  | "count" => OK (VNumber (Z.of_nat (length vs)))
  | "sum" => sum_values vs
  | "min" => extreme Lt vs
  | "max" => extreme Gt vs
  | _ => not_modelled name
  end.

Section Evaluator.

Variable server : Server.
Variable scope : list string.

(** Modelled from the spec: the evaluator (section 4.3), for literals,
    column references, binary expressions, [database()], the aggregates
    and [CASE]. Scalar sub-queries, arrays and the outer context of a
    correlated sub-query are outside this model. An [undefined] row has no
    key. *)
Fixpoint evaluateExpression (e : Expression) (row : option Row)
    (group : option (list Row)) {struct e} : Res Value :=
  match e with
  | NumberE z => OK (VNumber z)
  | StringE s => OK (VString s)
  | BooleanE b => OK (VBoolean b)
  | NullE => OK VNull
  | ColumnRefE t c => resolve scope t c (spread_opt row)
  | BinaryExpressionE op l r =>
      a ← evaluateExpression l row group;
      b ← evaluateExpression r row group;
      binary op a b
  | FunctionE name args distinct =>
      let name := lower name in
      if String.eqb name "database"
      then OK (match currentDatabase server with Some d => VString d | None => VNull end)
      else if Select.includes Select.aggregates name then
        match group, args with
        | Some g, [StarE _] =>
            if String.eqb name "count" then OK (VNumber (Z.of_nat (length g)))
            else not_modelled name
        | Some g, [arg] =>
            vs ← mapM (fun r => evaluateExpression arg (Some r) group) g;
            aggregate name distinct vs
        | _, _ => not_modelled name
        end
      else not_modelled name
  | CaseE whens otherwise =>
      (fix cases (ws : list (Expression * Expression)) : Res Value :=
         match ws with
         | [] =>
             match otherwise with
             | Some o => evaluateExpression o row group
             | None => OK VNull
             end
         | (cond, val) :: ws' =>
             c ← evaluateExpression cond row group;
             if truthy c then evaluateExpression val row group else cases ws'
         end) whens
  | DefaultE => not_modelled "default"
  | StarE _ => not_modelled "star"
  | ArrayE _ => not_modelled "array"
  | SelectE _ => not_modelled "select"
  end.

(** Modelled from the spec: the keys [T::c] of the requested table (of
    every table when none is requested), under their bare column names.
    The evaluator of the pipeline is built without a scope list, so the
    keys are those of the row. *)
Definition evaluateStar (star : Expression) (row : option Row) : Res Row :=
  match star with
  | StarE table =>
      OK (fold_left
            (fun res kv =>
               match split_key kv.1 with
               | Some (t, c) =>
                   if negb (String.eqb t "")
                      && match table with Some t' => String.eqb t t' | None => true end
                   then obj_set c kv.2 res else res
               | None => res
               end)
            (spread_opt row) [])
  | _ => not_modelled "star"
  end.

End Evaluator.

(** Modelled from the spec: the evaluator of section 4.3 goes by the
    kind of its expression; with [undefined] for the expression, reading
    the kind is a [TypeError]. *)
Definition evaluateUndefined (row : option Row) (group : option (list Row)) : Res Value :=
  Throw (JsError "TypeError" "Cannot read properties of undefined (reading 'type')").

Definition newEvaluator (server : Server) (context : Row) : Select.Evaluator :=
  {| Select.evaluateExpression := evaluateExpression server [];
     Select.evaluateUndefined := evaluateUndefined;
     Select.evaluateStar := evaluateStar |}.

(** Modelled from the spec: the comparison of ORDER BY (section 4.5),
    nulls first under [ASC]. *)
Definition compareNullsFirst (a b : Value) : Res Z :=
  match is_nullish a, is_nullish b with
  | true, true => OK 0
  | true, false => OK (-1)
  | false, true => OK 1
  | false, false =>
      c ← compareValues a b;
      OK (match c with Lt => -1 | Eq => 0 | Gt => 1 end)
  end.

(** Modelled from the spec: [sortBy] of [utils] is not in src. Each key
    maps both rows and compares the results; the first key that tells them
    apart decides, with its direction. *)
Fixpoint sortBy (keys : list Select.SortByKey) (a b : Row) : Res Z :=
  match keys with
  | [] => OK 0
  | k :: ks =>
      va ← Select.mapper k a;
      vb ← Select.mapper k b;
      c ← compareNullsFirst va vb;
      if c =? 0 then sortBy ks a b else OK (Select.order k * c)
  end.

(** Modelled from the spec: [hashCode] of [utils] is not in src; the spec
    asks for a stable bucket number per key string. The 32-bit
    multiply-by-31 string hash is taken. *)
Definition wrap32 (z : Z) : Z := (z + 2 ^ 31) mod 2 ^ 32 - 2 ^ 31.

Definition hashCode (s : string) : Z :=
  fold_left (fun h a => wrap32 (h * 31 + Z.of_nat (nat_of_ascii a))) (list_ascii_of_string s) 0.

(** The pipeline over the modelled collaborators. *)
Definition process (server : Server) (q : SelectQuery) : Res (list Row) :=
  Select.process server newEvaluator hashCode sortBy q [].

(** A decimal numeral, with an optional minus sign. *)
Fixpoint digits (s : string) (acc : Z) : option Z :=
  match s with
  | EmptyString => Some acc
  | String a s' =>
      let n := nat_of_ascii a in
      if (48 <=? n)%nat && (n <=? 57)%nat
      then digits s' (acc * 10 + Z.of_nat (n - 48))
      else None
  end.

Definition numeric (s : string) : option Z :=
  match s with
  | EmptyString => None
  | String "-" (String a s') => Z.opp <$> digits (String a s') 0
  | _ => digits s 0
  end.

Definition in_range (bits : Z) (unsigned : bool) (z : Z) : bool :=
  if unsigned then (0 <=? z) && (z <? 2 ^ bits)
  else (- 2 ^ (bits - 1) <=? z) && (z <? 2 ^ (bits - 1)).

Definition out_of_range (c : Column) : Exn :=
  ServerError "OUT_OF_RANGE_VALUE" ("Out of range value for column '" +:+ getName c +:+ "'").

Definition incorrect_integer (c : Column) (v : Value) : Exn :=
  ServerError "INCORRECT_INTEGER_VALUE"
    ("Incorrect integer value: '" +:+ to_string v +:+ "' for column '" +:+ getName c +:+ "'").

(** Modelled from the spec: [Column.cast] of [src/server] is not in src
    (section 4.1). An integer column takes integers and numeric strings
    within its range; a varchar column takes what prints within its length
    and raises an out-of-range error beyond it; [null] passes a nullable
    column. The spec gives the machine codes and not the message texts,
    which follow MySQL here. Datetime parsing is outside this model. *)
Definition cast (c : Column) (v : Value) : Res Value :=
  if is_nullish v then
    if isNullable c then OK VNull
    else Throw (ServerError "BAD_NULL" ("Column '" +:+ getName c +:+ "' cannot be null"))
  else
    match kind c with
    | IntegerColumn bits unsigned _ _ =>
        match match v with
              | VNumber z => Some z
              | VString s => numeric s
              | VBoolean b => Some (Z.b2z b)
              | _ => None
              end with
        | Some z => if in_range bits unsigned z then OK (VNumber z) else Throw (out_of_range c)
        | None => Throw (incorrect_integer c v)
        end
    | VarcharColumn n =>
        let s := to_string v in
        if Z.of_nat (String.length s) <=? n then OK (VString s) else Throw (out_of_range c)
    | DatetimeColumn => not_modelled "datetime"
    end.

(** The evaluator of the INSERT processor, built over a scope list. *)
Definition insertEvaluator (server : Server) (scope : list string)
    (e : Expression) (row : Row) : Res Value :=
  evaluateExpression server scope e (Some row) None.

(** The INSERT processor over the modelled collaborators. *)
Definition insert (server : Server) (query : Insert.InsertQuery) : Res Insert.Summary * Server :=
  Insert.process server insertEvaluator cast query.

End Spec.

(** * Properties of the SELECT pipeline *)

Module SelectFacts.

Import Select.

(** A processor's [rows] field points into its store. *)
Definition valid (st : State) : Prop := (rows st < length (heap st))%nat.

Lemma this_rows_assign a st : this_rows (assign_rows a st) = a.
Proof.
  unfold this_rows, assign_rows, deref; simpl.
  by rewrite lookup_app_r, Nat.sub_diag.
Qed.

Lemma valid_assign a st : valid (assign_rows a st).
Proof. unfold valid, assign_rows; simpl. rewrite length_app; simpl; lia. Qed.

Lemma this_rows_update a st : valid st -> this_rows (update_rows a st) = a.
Proof.
  unfold valid, this_rows, update_rows, deref; simpl; intros H.
  by rewrite list_lookup_insert_eq.
Qed.

Lemma valid_update a st : valid st -> valid (update_rows a st).
Proof. unfold valid, update_rows; simpl. by rewrite length_insert. Qed.

Lemma valid_init : valid init.
Proof. unfold valid, init; simpl; lia. Qed.

Lemma filter_index_ge_drop {A} (l : list A) : forall n i,
  filter_index_ge n i l = drop (Z.to_nat (n - i)) l.
Proof.
  induction l as [|a l IH]; intros n i; simpl.
  - by rewrite drop_nil.
  - destruct (Z.leb_spec n i) as [Hle|Hlt].
    + rewrite IH.
      replace (Z.to_nat (n - (i + 1))) with 0%nat by lia.
      replace (Z.to_nat (n - i)) with 0%nat by lia.
      by rewrite !drop_0.
    + rewrite IH.
      replace (Z.to_nat (n - i)) with (S (Z.to_nat (n - (i + 1)))) by lia.
      done.
Qed.

(** The rows the LIMIT stage leaves, as a function of the rows it gets. *)
Definition limited (q : SelectQuery) (l : list Row) : list Row :=
  let dropped := drop (Z.to_nat (q_offset q)) l in
  if q_limit q =? 0 then dropped else take (Z.to_nat (q_limit q)) dropped.

Lemma applyLimit_rows q st :
  valid st -> 0 <= q_limit q ->
  exists st', applyLimit q st = OK st' /\ valid st'
              /\ this_rows st' = limited q (this_rows st).
Proof.
  intros Hv Hl. unfold applyLimit, limited.
  set (st1 := if negb (q_offset q =? 0) then _ else st).
  assert (H1 : valid st1 /\ this_rows st1 = drop (Z.to_nat (q_offset q)) (this_rows st)).
  { subst st1. destruct (Z.eqb_spec (q_offset q) 0) as [E|E]; simpl.
    - rewrite E. by rewrite drop_0.
    - split; [apply valid_assign|].
      rewrite this_rows_assign, filter_index_ge_drop. f_equal; lia. }
  destruct H1 as [Hv1 Hr1]. rewrite <- Hr1.
  destruct (Z.eqb_spec (q_limit q) 0) as [E|E]; simpl.
  - by exists st1.
  - destruct (Z.ltb_spec (q_limit q) (Z.of_nat (length (this_rows st1)))) as [Hlt|Hge].
    + destruct (Z.ltb_spec (q_limit q) 0); [lia|].
      eexists; split; [done|]. split; [by apply valid_update|].
      by apply this_rows_update.
    + exists st1. split; [done|]. split; [done|].
      rewrite take_ge; [done|lia].
Qed.

Lemma limited_length q l :
  0 < q_limit q -> Z.of_nat (length (limited q l)) <= q_limit q.
Proof.
  intros H. unfold limited.
  destruct (Z.eqb_spec (q_limit q) 0); [lia|].
  rewrite length_take. lia.
Qed.

Lemma bind_OK {A B} (m : Res A) (f : A -> Res B) b :
  (a ← m; f a) = OK b -> exists a, m = OK a /\ f a = OK b.
Proof. destruct m as [a|e]; simpl; [eauto|discriminate]. Qed.

Lemma rethrow_OK {A} clause (r : Res A) a : rethrow_in clause r = OK a -> r = OK a.
Proof. destruct r as [|[]]; simpl; congruence. Qed.

Ltac bind_inv H :=
  let a := fresh "a" in
  let Ha := fresh "Ha" in
  apply bind_OK in H; destruct H as (a & Ha & H).

Lemma applySelectAndHaving_valid ev q st st' :
  applySelectAndHaving ev q st = OK st' -> valid st'.
Proof.
  unfold applySelectAndHaving; intros H. bind_inv H.
  injection H as <-. apply valid_assign.
Qed.

Section Limit.

Variable server : Server.
Variable newEvaluator : Server -> Row -> Evaluator.
Variable hashCode : string -> Z.
Variable sortBy : list SortByKey -> Row -> Row -> Res Z.

Lemma process_afterFrom q context out :
  process server newEvaluator hashCode sortBy q context = OK out ->
  exists st, afterFrom hashCode sortBy (newEvaluator server context) q st = OK out.
Proof.
  destruct q; simpl; intros H. bind_inv H. eauto.
Qed.

Lemma afterFrom_limited ev q st out :
  afterFrom hashCode sortBy ev q st = OK out -> 0 <= q_limit q ->
  exists l, out = limited q l.
Proof.
  unfold afterFrom; intros H Hl.
  bind_inv H. bind_inv H. bind_inv H. bind_inv H. bind_inv H. injection H as <-.
  apply applySelectAndHaving_valid in Ha2.
  destruct (applyLimit_rows q a2 Ha2 Hl) as (st' & E & _ & R).
  rewrite E in Ha3. injection Ha3 as <-. eauto.
Qed.

(** C7. The LIMIT stage drops the first [offset] rows and then, for a
    non-zero limit, keeps at most [limit] of the rest; a query that
    returns, returns at most [limit] rows when [limit > 0], and never a
    negative number of rows. Limits are the non-negative numbers of a
    LIMIT clause. *)
Theorem limit_drops_then_truncates (q : SelectQuery) :
  0 <= q_limit q ->
  (forall st, valid st ->
     exists st',
       applyLimit q st = OK st'
       /\ this_rows st' =
            (let dropped := drop (Z.to_nat (q_offset q)) (this_rows st) in
             if q_limit q =? 0 then dropped
             else take (Z.to_nat (q_limit q)) dropped)
       /\ (0 < q_limit q -> Z.of_nat (length (this_rows st')) <= q_limit q)
       /\ 0 <= Z.of_nat (length (this_rows st')))
  /\ (forall context out,
        process server newEvaluator hashCode sortBy q context = OK out ->
        (0 < q_limit q -> Z.of_nat (length out) <= q_limit q)
        /\ 0 <= Z.of_nat (length out)).
Proof.
  intros Hl. split.
  - intros st Hv.
    destruct (applyLimit_rows q st Hv Hl) as (st' & E & _ & R).
    exists st'. split; [done|]. split; [done|]. split; [|lia].
    intros Hpos. rewrite R. by apply limited_length.
  - intros context out H. split; [|lia]. intros Hpos.
    apply process_afterFrom in H as [st H].
    apply afterFrom_limited in H as [l ->]; [|done].
    by apply limited_length.
Qed.

End Limit.

(** *** The GROUP BY stage without a GROUP BY clause *)

(** A SELECT column that is a call of an aggregate function. *)
Definition is_aggregate (c : SelectColumn) : Prop :=
  exists name args d,
    c_expr c = FunctionE name args d
    /\ In name ["count"; "sum"; "min"; "max"; "avg"].

Definition is_column_ref (c : SelectColumn) : Prop :=
  exists t col, c_expr c = ColumnRefE t col.

(** The column at position [n] (from 0) is the reference [t.col], and no
    column before it is a reference. *)
Definition first_column_ref (cs : list SelectColumn) (n : nat)
    (t : option string) (col : string) : Prop :=
  (exists c, cs !! n = Some c /\ c_expr c = ColumnRefE t col)
  /\ forall j c, (j < n)%nat -> cs !! j = Some c -> ~ is_column_ref c.

Lemma is_column_ref_type c :
  String.eqb (c_type c) "column_ref" = true <-> is_column_ref c.
Proof.
  unfold c_type, is_column_ref. split.
  - destruct (c_expr c); simpl; try discriminate. eauto.
  - intros (t & col & ->). reflexivity.
Qed.

Lemma is_aggregate_test c :
  String.eqb (c_type c) "function" && includes aggregates (c_name c) = true
  <-> is_aggregate c.
Proof.
  unfold c_type, c_name, is_aggregate, includes, aggregates. split.
  - destruct (c_expr c) as [| | | | | | | | |name args d| |]; try discriminate.
    rewrite andb_true_l.
    intros H. exists name, args, d. split; [done|].
    apply existsb_exists in H as (x & Hin & Hx).
    apply String.eqb_eq in Hx. by subst x.
  - intros (name & args & d & -> & Hin); simpl.
    simpl in Hin. destruct Hin as [<-|[<-|[<-|[<-|[<-|[]]]]]]; reflexivity.
Qed.

Lemma hasAggregateFunction_spec cs :
  hasAggregateFunction cs = true <-> Exists is_aggregate cs.
Proof.
  unfold hasAggregateFunction. induction cs as [|c cs IH]; simpl.
  - split; [discriminate|]. intros H; inversion H.
  - rewrite orb_true_iff, Exists_cons, IH, is_aggregate_test. tauto.
Qed.

Lemma find_column_ref_first cs : forall i n t col,
  first_column_ref cs n t col ->
  exists c, find_column_ref i cs = Some (i + Z.of_nat n, c)
            /\ c_expr c = ColumnRefE t col.
Proof.
  induction cs as [|c cs IH]; intros i n t col [(c0 & Hn & Hc) Hfirst].
  - by rewrite lookup_nil in Hn.
  - simpl. destruct n as [|n].
    + simpl in Hn. injection Hn as ->.
      replace (String.eqb (c_type c0) "column_ref") with true.
      * exists c0. split; [f_equal; f_equal; lia|done].
      * symmetry. apply is_column_ref_type. by exists t, col.
    + destruct (String.eqb (c_type c) "column_ref") eqn:E.
      * apply is_column_ref_type in E. exfalso.
        apply (Hfirst 0%nat c); [lia|done|done].
      * destruct (IH (i + 1) n t col) as (c1 & Hf & Hc1).
        { split; [by exists c0|].
          intros j c' Hj Hl. apply (Hfirst (S j) c'); [lia|done]. }
        exists c1. split; [|done]. rewrite Hf. f_equal; f_equal; lia.
Qed.

Lemma find_column_ref_none cs : forall i,
  Forall (fun c => ~ is_column_ref c) cs -> find_column_ref i cs = None.
Proof.
  induction cs as [|c cs IH]; intros i H; [done|].
  inversion H as [|? ? Hc Hcs]; subst. simpl.
  destruct (String.eqb (c_type c) "column_ref") eqn:E.
  - apply is_column_ref_type in E. contradiction.
  - by apply IH.
Qed.

Lemma map_get_set k r m : map_get k (map_set k r m) = Some r.
Proof.
  induction m as [|[k' r'] m IH]; simpl.
  - by rewrite Z.eqb_refl.
  - destruct (Z.eqb_spec k k') as [->|Hne]; simpl.
    + by rewrite Z.eqb_refl.
    + destruct (Z.eqb_spec k k'); [contradiction|done].
Qed.

Section GroupBy.

Variable hashCode : string -> Z.
Variable sortBy : list SortByKey -> Row -> Row -> Res Z.

(** The name of a column reference in a message: [table.column] when the
    reference has a table, [column] otherwise. *)
Definition qualified_name (t : option string) (col : string) : string :=
  match t with
  | Some tbl => if String.eqb tbl "" then col else tbl +:+ "." +:+ col
  | None => col
  end.

(** C1. With an empty GROUP BY list: without an aggregate column the stage
    leaves the state as it is; with one, a query that has a column
    reference among its columns fails with the message that numbers the
    first such column from 1 and names it, with its table when it has one;
    and otherwise the one group, under key 1, is the array of all rows. *)
Theorem group_by_empty (ev : Evaluator) (q : SelectQuery) (st : State) :
  q_groupBy q = [] ->
  (~ Exists is_aggregate (q_columns q) ->
     applyGroupBy hashCode ev q st = OK st)
  /\ (Exists is_aggregate (q_columns q) ->
      forall n t col,
        first_column_ref (q_columns q) n t col ->
        applyGroupBy hashCode ev q st = Throw (ProcessorException
          ("In aggregated query without GROUP BY, expression #"
           +:+ pretty (Z.of_nat n + 1)
           +:+ " of SELECT list contains nonaggregated column '"
           +:+ qualified_name t col +:+ "'"))
        /\ (forall st0, applyWhere ev q st0 = OK st ->
            afterFrom hashCode sortBy ev q st0 = Throw (ProcessorException
              ("In aggregated query without GROUP BY, expression #"
               +:+ pretty (Z.of_nat n + 1)
               +:+ " of SELECT list contains nonaggregated column '"
               +:+ qualified_name t col +:+ "'"))))
  /\ (Exists is_aggregate (q_columns q) ->
      Forall (fun c => ~ is_column_ref c) (q_columns q) ->
      exists st',
        applyGroupBy hashCode ev q st = OK st'
        /\ heap st' = heap st /\ rows st' = rows st
        /\ map_get 1 (groupedRows st') = Some (rows st)
        /\ deref (heap st') (rows st) = this_rows st
        /\ (groupedRows st = [] -> groupedRows st' = [(1, rows st)])).
Proof.
  intros Hg. split; [|split].
  - intros Hno. unfold applyGroupBy. rewrite Hg.
    destruct (hasAggregateFunction (q_columns q)) eqn:E; [|done].
    apply hasAggregateFunction_spec in E. contradiction.
  - intros Hagg n t col Hfirst.
    apply hasAggregateFunction_spec in Hagg.
    match goal with |- ?a = ?b /\ _ => assert (Hthrow : a = b) end.
    { unfold applyGroupBy. rewrite Hg, Hagg; simpl.
      destruct (find_column_ref_first _ 0 n t col Hfirst) as (c & -> & Hc).
      unfold nonaggregated_message, c_table, c_column, qualified_name.
      destruct c as [e column alias]; simpl in Hc; subst e; simpl.
      destruct t as [tbl|]; simpl; [|done].
      by destruct (String.eqb tbl ""). }
    split; [exact Hthrow|].
    intros st0 Hw. unfold afterFrom. rewrite Hw; simpl.
    by rewrite Hthrow.
  - intros Hagg Hnone. unfold applyGroupBy. rewrite Hg.
    apply hasAggregateFunction_spec in Hagg. rewrite Hagg; simpl.
    rewrite (find_column_ref_none _ 0 Hnone).
    eexists; split; [done|]; simpl.
    split; [done|]. split; [done|]. split; [apply map_get_set|].
    split; [done|]. by intros ->.
Qed.

End GroupBy.

(** *** The row SELECT gets when there is none *)

(** A SELECT column that is a function, a binary expression, a literal, a
    CASE or a scalar sub-query. *)
Definition needs_row (c : SelectColumn) : Prop :=
  In (c_type c)
     ["function"; "binary_expression"; "number"; "string"; "boolean"; "null";
      "case"; "select"].

Lemma includes_In l s : includes l s = true <-> In s l.
Proof.
  unfold includes. rewrite existsb_exists. split.
  - intros (x & Hin & Hx). apply String.eqb_eq in Hx. by subst.
  - intros Hin. exists s. split; [done|apply String.eqb_refl].
Qed.

Lemma hasType_spec types cs :
  hasType types cs = true <-> Exists (fun c => In (c_type c) types) cs.
Proof.
  unfold hasType. induction cs as [|c cs IH]; simpl.
  - split; [discriminate|]. intros H; inversion H.
  - rewrite orb_true_iff, Exists_cons, IH, includes_In. tauto.
Qed.

Lemma injectsRow_spec cs : injectsRow cs = true <-> Exists needs_row cs.
Proof.
  unfold injectsRow. rewrite !orb_true_iff, !hasType_spec.
  unfold needs_row. induction cs as [|c cs IH].
  - rewrite !Exists_nil. tauto.
  - rewrite !Exists_cons, <- IH. simpl. tauto.
Qed.

(** [SELECT id FROM t HAVING id > 0]. *)
Definition select_id_having : SelectQuery :=
  mkSelectQuery [FromTable None "t" None None None]
    [mkSelectColumn (ColumnRefE None "id") "id" None]
    None []
    (Holds (BinaryExpressionE ">" (ColumnRefE None "id") (NumberE 0)))
    [] 0 0 false.

(** A server whose current database holds the one table [t]. *)
Definition server_with (name : string) (t : Table) : Server :=
  {| currentDatabase := Some "mydb"; databases := [("mydb", [(name, t)])] |}.

Lemma selectInputs_injected q st :
  this_rows st = [] -> groupedRows st = [] ->
  selectInputs (push_columns (aliasKeys (q_columns q)) (injectRow q st))
  = if injectsRow (q_columns q) then [(Some [], [])] else [].
Proof.
  intros Hempty Hg. unfold selectInputs, injectRow. rewrite Hempty. simpl.
  destruct (injectsRow (q_columns q)); simpl; rewrite Hg.
  - change (this_rows (push_columns (aliasKeys (q_columns q)) (assign_rows [[]] st)))
      with (this_rows (assign_rows [[]] st)).
    by rewrite this_rows_assign.
  - change (this_rows (push_columns (aliasKeys (q_columns q)) st)) with (this_rows st).
    by rewrite Hempty.
Qed.

Lemma applyDistinct_short q (l : list Row) : (length l <= 1)%nat -> applyDistinct q l = l.
Proof.
  unfold applyDistinct. destruct (q_distinct q); [|done].
  destruct l as [|r0 [|r1 l]]; simpl; [done|done|lia].
Qed.

(** The stage on an empty row set without groups: with a column that
    needs a row its one input is the empty row with the empty group, and
    without one it has no input. *)
Lemma applySelectAndHaving_empty ev q st :
  this_rows st = [] -> groupedRows st = [] ->
  (injectsRow (q_columns q) = true ->
   forall m rwa keep,
     mapRow ev q (Some []) [] = OK (m, rwa) ->
     checkIfKeep ev q rwa [] = OK keep ->
     exists st', applySelectAndHaving ev q st = OK st'
                 /\ this_rows st' = if keep then [m] else [])
  /\ (injectsRow (q_columns q) = false ->
      exists st', applySelectAndHaving ev q st = OK st' /\ this_rows st' = []).
Proof.
  intros Hempty Hg. unfold applySelectAndHaving.
  rewrite (selectInputs_injected q st Hempty Hg). split; intros Hi; rewrite Hi.
  - intros m rwa keep Hm Hk. simpl. rewrite Hm. simpl. rewrite Hk. simpl.
    eexists. split; [reflexivity|]. rewrite this_rows_assign.
    apply applyDistinct_short. destruct keep; simpl; lia.
  - simpl. eexists. split; [reflexivity|]. rewrite this_rows_assign.
    apply applyDistinct_short. simpl. lia.
Qed.

(** A query without FROM, WHERE, GROUP BY, ORDER BY, LIMIT and OFFSET. *)
Definition columns_only (cs : list SelectColumn) (having : Slot Expression) (distinct : bool)
    : SelectQuery :=
  mkSelectQuery [] cs None [] having [] 0 0 distinct.

(** C4. On an empty row set the SELECT stage puts exactly one empty row in
    when some column is a function, a binary expression, a literal, a CASE
    or a sub-query, and none otherwise; a row set that is not empty is left
    alone. Without groups the row put in is the one input of the stage: it
    returns the row the columns map the empty row to, when HAVING keeps
    it, and with only column references and stars it returns no row and
    evaluates nothing. So a query without FROM whose columns need a row
    returns the one mapped row, and [SELECT id FROM t HAVING id > 0] on an
    empty [t] returns no row, whatever the evaluator. *)
Theorem select_injects_row :
  (forall q st,
     this_rows st = [] ->
     (Exists needs_row (q_columns q) -> this_rows (injectRow q st) = [[]])
     /\ (~ Exists needs_row (q_columns q) -> injectRow q st = st)
     /\ (Forall (fun c => c_type c = "column_ref" \/ c_type c = "star") (q_columns q) ->
         injectRow q st = st))
  /\ (forall q st, this_rows st <> [] -> injectRow q st = st)
  /\ (forall ev q st,
        this_rows st = [] -> groupedRows st = [] ->
        (Exists needs_row (q_columns q) ->
         forall m rawRowWithAliases keep,
           mapRow ev q (Some []) [] = OK (m, rawRowWithAliases) ->
           checkIfKeep ev q rawRowWithAliases [] = OK keep ->
           exists st', applySelectAndHaving ev q st = OK st'
                       /\ this_rows st' = if keep then [m] else [])
        /\ (~ Exists needs_row (q_columns q) ->
            exists st', applySelectAndHaving ev q st = OK st' /\ this_rows st' = []))
  /\ (forall server newEvaluator hashCode sortBy cs having distinct context,
        (hasAggregateFunction cs = false ->
         Exists needs_row cs ->
         forall m rawRowWithAliases keep,
           mapRow (newEvaluator server context) (columns_only cs having distinct) (Some []) []
           = OK (m, rawRowWithAliases) ->
           checkIfKeep (newEvaluator server context) (columns_only cs having distinct)
                       rawRowWithAliases [] = OK keep ->
           process server newEvaluator hashCode sortBy (columns_only cs having distinct) context
           = OK (if keep then [m] else []))
        /\ (~ Exists needs_row cs ->
            process server newEvaluator hashCode sortBy (columns_only cs having distinct) context
            = OK []))
  /\ (forall newEvaluator hashCode sortBy cols context,
        process (server_with "t" {| getColumns := cols; getRows := [] |})
                newEvaluator hashCode sortBy select_id_having context = OK []).
Proof.
  split; [|split; [|split; [|split]]].
  - intros q st Hempty.
    assert (Hno : ~ Exists needs_row (q_columns q) -> injectRow q st = st).
    { intros Hn. unfold injectRow.
      destruct (injectsRow (q_columns q)) eqn:E.
      - apply injectsRow_spec in E. contradiction.
      - by rewrite andb_false_r. }
    split; [|split; [exact Hno|]].
    + intros Hex. apply injectsRow_spec in Hex.
      unfold injectRow. rewrite Hempty, Hex; simpl. apply this_rows_assign.
    + intros Hall. apply Hno. intros Hex.
      apply Exists_exists in Hex as (c & Hin & Hc).
      rewrite Forall_forall in Hall. specialize (Hall c Hin).
      unfold needs_row in Hc.
      destruct Hall as [E|E]; rewrite E in Hc; simpl in Hc;
        repeat destruct Hc as [Hc|Hc]; try discriminate; done.
  - intros q st Hne. unfold injectRow.
    destruct (this_rows st); [done|reflexivity].
  - intros ev q st Hempty Hg.
    destruct (applySelectAndHaving_empty ev q st Hempty Hg) as [Hyes Hno]. split.
    + intros Hex. apply Hyes. by apply injectsRow_spec.
    + intros Hex. apply Hno. destruct (injectsRow (q_columns q)) eqn:E; [|done].
      apply injectsRow_spec in E. contradiction.
  - intros server newEvaluator hashCode sortBy cs having distinct context.
    assert (Hrun : forall out,
               hasAggregateFunction cs = false ->
               (exists st', applySelectAndHaving (newEvaluator server context)
                              (columns_only cs having distinct) init = OK st'
                            /\ this_rows st' = out) ->
               process server newEvaluator hashCode sortBy
                       (columns_only cs having distinct) context = OK out).
    { intros out Hagg (st' & Hsel & Hout). simpl. unfold afterFrom. simpl.
      unfold applyGroupBy. simpl. rewrite Hagg. simpl.
      unfold columns_only in Hsel. rewrite Hsel. simpl. by rewrite Hout. }
    destruct (applySelectAndHaving_empty (newEvaluator server context)
                (columns_only cs having distinct) init eq_refl eq_refl) as [Hyes Hno].
    split.
    + intros Hagg Hex m rwa keep Hm Hk. apply (Hrun _ Hagg).
      apply (Hyes (proj2 (injectsRow_spec cs) Hex) m rwa keep Hm Hk).
    + intros Hex.
      assert (Hinj : injectsRow cs = false).
      { destruct (injectsRow cs) eqn:E; [|done]. apply injectsRow_spec in E. contradiction. }
      apply Hrun; [|by apply Hno].
      destruct (hasAggregateFunction cs) eqn:E; [|done].
      exfalso. apply Hex. apply hasAggregateFunction_spec in E.
      apply Exists_exists in E as (c & Hin & Hc). apply Exists_exists. exists c.
      split; [done|]. destruct Hc as (name & args & d & Hc & _).
      unfold needs_row, c_type. rewrite Hc. simpl. tauto.
  - intros. reflexivity.
Qed.

(** [SELECT 1]: no source, one literal column. *)
Definition select_one : SelectQuery :=
  columns_only [mkSelectColumn (NumberE 1) "1" None] Null false.

Lemma select_injects_row_witness :
  Exists needs_row [mkSelectColumn (NumberE 1) "1" None]
  /\ Spec.process (server_with "t" {| getColumns := []; getRows := [] |}) select_one
     = OK [[("1", VNumber 1)]].
Proof.
  assert (Hex : Exists needs_row [mkSelectColumn (NumberE 1) "1" None]).
  { constructor. unfold needs_row. simpl. tauto. }
  split; [exact Hex|].
  exact (proj1 (proj1 (proj2 (proj2 (proj2 select_injects_row)))
                  (server_with "t" {| getColumns := []; getRows := [] |})
                  Spec.newEvaluator Spec.hashCode Spec.sortBy
                  [mkSelectColumn (NumberE 1) "1" None] Null false [])
               eq_refl Hex [("1", VNumber 1)] (Some []) true
               eq_refl eq_refl).
Defined.

(** *** LEFT JOIN *)

Lemma obj_get_set_eq k v o : obj_get k (obj_set k v o) = Some v.
Proof.
  induction o as [|[k' v'] o IH]; simpl.
  - by rewrite String.eqb_refl.
  - destruct (String.eqb_spec k k') as [->|Hne]; simpl.
    + by rewrite String.eqb_refl.
    + destruct (precedes k k'); simpl.
      * by rewrite String.eqb_refl.
      * destruct (String.eqb_spec k k'); [contradiction|done].
Qed.

Lemma obj_get_set_ne k k' v o : k <> k' -> obj_get k (obj_set k' v o) = obj_get k o.
Proof.
  intros Hne. induction o as [|[k0 v0] o IH]; simpl.
  - destruct (String.eqb_spec k k'); [contradiction|done].
  - destruct (String.eqb_spec k' k0) as [->|Hne0]; simpl.
    + destruct (String.eqb_spec k k0); [contradiction|done].
    + destruct (precedes k' k0); simpl.
      * destruct (String.eqb_spec k k'); [contradiction|done].
      * by rewrite IH.
Qed.

(** Keys written with one value read as that value, whatever was there. *)
Lemma obj_get_fold_const (v : Value) (key : string) (ks : list string) : forall o,
  obj_get key o = Some v \/ In key ks ->
  obj_get key (fold_left (fun res k => obj_set k v res) ks o) = Some v.
Proof.
  induction ks as [|k ks IH]; intros o H; simpl.
  - destruct H as [H|[]]. done.
  - apply IH. destruct (String.eqb_spec key k) as [->|Hne].
    + left. apply obj_get_set_eq.
    + rewrite obj_get_set_ne by done.
      destruct H as [H|[H|H]]; [by left|congruence|by right].
Qed.

Lemma obj_get_fold_other (v : Value) (key : string) (ks : list string) : forall o,
  ~ In key ks ->
  obj_get key (fold_left (fun res k => obj_set k v res) ks o) = obj_get key o.
Proof.
  induction ks as [|k ks IH]; intros o H; simpl; [done|].
  rewrite IH by (simpl in H; tauto).
  apply obj_get_set_ne. simpl in H. intros ->. tauto.
Qed.

Lemma placeholder_entries cols : forall o,
  Forall (fun kv : string * Value => kv.2 = VNull) o ->
  Forall (fun kv : string * Value => kv.2 = VNull)
         (fold_left (fun res key => obj_set key VNull res) cols o).
Proof.
  induction cols as [|k cols IH]; intros o H; simpl; [done|].
  apply IH. clear IH. induction o as [|[k' v'] o IHo]; simpl.
  - by constructor.
  - inversion H; subst.
    destruct (String.eqb k k'); [|destruct (precedes k k')]; repeat constructor; auto.
Qed.

Lemma placeholder_keys cols : forall o key,
  In key (keys o) \/ In key cols <->
  In key (keys (fold_left (fun res k => obj_set k VNull res) cols o)).
Proof.
  assert (Hset : forall k o key, In key (keys (obj_set k VNull o)) <-> key = k \/ In key (keys o)).
  { intros k o key. induction o as [|[k' v'] o IHo]; simpl.
    - intuition.
    - destruct (String.eqb_spec k k') as [->|Hne]; simpl; [intuition|].
      destruct (precedes k k'); simpl; [intuition|].
      rewrite IHo. intuition. }
  induction cols as [|k cols IH]; intros o key; simpl.
  - tauto.
  - rewrite <- IH, Hset. intuition.
Qed.

(** [{...a, ...b}] where every value of [b] is [v]. *)
Lemma obj_get_spread_const v key b : forall a,
  Forall (fun kv : string * Value => kv.2 = v) b ->
  In key (keys b) ->
  obj_get key (spread a b) = Some v.
Proof.
  unfold spread. intros a Hall Hin.
  assert (G : forall a, obj_get key a = Some v \/ In key (keys b) ->
                        obj_get key (fold_left (fun acc kv => obj_set kv.1 kv.2 acc) b a) = Some v).
  { clear a Hin. induction b as [|[k w] b IH]; intros a H; simpl.
    - destruct H as [H|[]]. done.
    - apply Forall_cons in Hall as [Hw Hall']. simpl in Hw; subst w.
      apply IH; [done|].
      destruct (String.eqb_spec key k) as [->|Hne].
      + left. apply obj_get_set_eq.
      + rewrite obj_get_set_ne by done.
        unfold keys in H; simpl in H.
        destruct H as [H|[H|H]]; [by left|congruence|by right]. }
  apply G. by right.
Qed.

Lemma obj_get_spread_other key b : forall a,
  ~ In key (keys b) -> obj_get key (spread a b) = obj_get key a.
Proof.
  unfold spread. induction b as [|[k w] b IH]; intros a H; simpl; [done|].
  simpl in H. rewrite IH by tauto.
  apply obj_get_set_ne. intros ->. tauto.
Qed.

(** Whether a merged row satisfies the [on] condition; a condition that
    throws satisfies nothing. *)
Definition on_holds (ev : Evaluator) (on : option Expression) (mergedRow : Row) : bool :=
  match on with
  | None => true
  | Some e =>
      match evaluateExpression ev e (Some mergedRow) None with
      | OK v => truthy v
      | Throw _ => false
      end
  end.

(** The [on] condition evaluates on a merged row without throwing. *)
Definition on_defined (ev : Evaluator) (on : option Expression) (mergedRow : Row) : Prop :=
  match on with
  | None => True
  | Some e => exists v, evaluateExpression ev e (Some mergedRow) None = OK v
  end.

Lemma joinGroup_OK ev on rowA rowsB g :
  joinGroup ev on rowA rowsB = OK g ->
  g = List.filter (on_holds ev on) (map (spread rowA) rowsB).
Proof.
  revert g. induction rowsB as [|rowB rowsB IH]; intros g H; simpl in *.
  - by injection H as <-.
  - bind_inv H. bind_inv H. injection H as <-.
    rewrite (IH a0 Ha0).
    replace (on_holds ev on (spread rowA rowB)) with a; [done|].
    unfold on_holds. destruct on as [e|]; [|by injection Ha as <-].
    bind_inv Ha. injection Ha as <-. by rewrite Ha1.
Qed.

Lemma joinGroup_total ev on rowA rowsB :
  (forall rowB, In rowB rowsB -> on_defined ev on (spread rowA rowB)) ->
  exists g, joinGroup ev on rowA rowsB = OK g.
Proof.
  induction rowsB as [|rowB rowsB IH]; intros H; simpl.
  - eauto.
  - destruct IH as [g Hg]; [intros; apply H; by right|]. rewrite Hg.
    specialize (H rowB (or_introl eq_refl)).
    destruct on as [e|]; simpl in *; [|eauto].
    destruct H as [v ->]. simpl. eauto.
Qed.

Lemma joinRows_groups ev on ph rowsB : forall rowsA acc res,
  foldlM (fun res rowA => group ← joinRow ev on ph rowA rowsB; OK (res ++ group)) rowsA acc
    = OK res ->
  exists groups,
    res = acc ++ concat groups
    /\ Forall2 (fun rowA g => joinRow ev on ph rowA rowsB = OK g) rowsA groups.
Proof.
  induction rowsA as [|rowA rowsA IH]; intros acc res H; simpl in H.
  - injection H as <-. exists []. simpl. by rewrite app_nil_r.
  - bind_inv H. bind_inv Ha. injection Ha as <-.
    destruct (IH _ _ H) as (groups & -> & HF).
    exists (a0 :: groups). simpl. rewrite app_assoc. split; [done|].
    by constructor.
Qed.

Lemma joinRows_total ev on ph rowsB : forall rowsA acc,
  (forall rowA rowB, In rowA rowsA -> In rowB rowsB -> on_defined ev on (spread rowA rowB)) ->
  exists res,
    foldlM (fun res rowA => group ← joinRow ev on ph rowA rowsB; OK (res ++ group)) rowsA acc
      = OK res.
Proof.
  induction rowsA as [|rowA rowsA IH]; intros acc H; cbn [foldlM].
  - eauto.
  - destruct (joinGroup_total ev on rowA rowsB) as [g Hg].
    { intros rowB Hb. apply H; [by left|done]. }
    assert (Hr : exists g', joinRow ev on ph rowA rowsB = OK g').
    { unfold joinRow. rewrite Hg. simpl. eauto. }
    destruct Hr as [g' ->]. simpl.
    apply IH. intros. apply H; [by right|done].
Qed.

Lemma this_rows_push cols st : this_rows (push_columns cols st) = this_rows st.
Proof. reflexivity. Qed.

(** [users = [{id: 3}]] and an empty [posts]. *)
Definition users_posts : Server :=
  {| currentDatabase := Some "mydb";
     databases :=
       [("mydb",
         [("users",
           {| getColumns := [mkColumn "id" false None (IntegerColumn 32 false false 0)];
              getRows := [[("id", VNumber 3)]] |});
          ("posts",
           {| getColumns := [mkColumn "user_id" false None (IntegerColumn 32 false false 0);
                             mkColumn "body" true None (VarcharColumn 255)];
              getRows := [] |})])] |}.

(** [FROM users u LEFT JOIN posts p ON p.user_id = u.id]. *)
Definition users_left_join_posts : list From :=
  [FromTable None "users" (Some "u") None None;
   FromTable None "posts" (Some "p") (Some "LEFT JOIN")
     (Some (BinaryExpressionE "=" (ColumnRefE (Some "posts") "user_id")
                                  (ColumnRefE (Some "users") "id")))].

(** C5. A LEFT JOIN step of FROM returns whenever its [on] condition
    evaluates on every merged row, and its rows are, left row by left row:
    the merged rows that satisfy the condition, as many as there are, or,
    when there is none, one row that binds every key of the right side to
    [null] and keeps the other keys of the left row. [users = [{id: 3}]]
    joined to an empty [posts] gives one row with the keys of [posts]
    null. *)
Theorem left_join_rows :
  (forall server ev sub f i st rs cols,
     from_join f = Some "LEFT JOIN" ->
     sourceRows server sub f = OK (rs, cols) ->
     ((forall rowA rowB, In rowA (this_rows st) -> In rowB rs ->
                         on_defined ev (from_on f) (spread rowA rowB)) ->
      exists st', fromStep server ev sub f (S i) st = OK st')
     /\ (forall st',
           fromStep server ev sub f (S i) st = OK st' ->
           exists groups,
             this_rows st' = concat groups
             /\ Forall2
                  (fun rowA g =>
                     let matched :=
                       List.filter (on_holds ev (from_on f)) (map (spread rowA) rs) in
                     (matched = [] ->
                        exists r,
                          g = [r]
                          /\ (forall key, In key cols -> obj_get key r = Some VNull)
                          /\ (forall key, ~ In key cols -> obj_get key r = obj_get key rowA))
                     /\ (matched <> [] -> g = matched /\ length g = length matched))
                  (this_rows st) groups))
  /\ (forall ev sub,
        (st ← applyFrom_loop users_posts ev sub users_left_join_posts 0 init;
         OK (this_rows st))
        = OK [[("u::id", VNumber 3); ("p::user_id", VNull); ("p::body", VNull)]]).
Proof.
  split; [|reflexivity].
  intros server ev sub f i st rs cols Hjoin Hsrc.
  assert (Hstep : fromStep server ev sub f (S i) st =
                  (j ← joinRows ev (this_rows st) rs (from_on f) (Some (placeholder cols));
                   OK (assign_rows j (push_columns cols st)))).
  { unfold fromStep. rewrite Hsrc, Hjoin. reflexivity. }
  rewrite Hstep. split.
  - intros Hdef.
    destruct (joinRows_total ev (from_on f) (Some (placeholder cols)) rs (this_rows st) [] Hdef)
      as [res Hres].
    unfold joinRows. rewrite Hres. simpl. eauto.
  - intros st' H. bind_inv H. injection H as <-.
    rewrite this_rows_assign.
    apply joinRows_groups in Ha as (groups & -> & HF). simpl.
    exists groups. split; [done|].
    eapply Forall2_impl; [exact HF|].
    intros rowA g Hrow. unfold joinRow in Hrow.
    apply rethrow_OK in Hrow. bind_inv Hrow. injection Hrow as <-.
    apply joinGroup_OK in Ha. rewrite <- Ha. split.
    + intros ->. eexists; split; [done|]. split.
      * intros key Hin. apply obj_get_spread_const.
        -- apply placeholder_entries. constructor.
        -- apply placeholder_keys. by right.
      * intros key Hin. apply obj_get_spread_other.
        intros Hk. apply placeholder_keys in Hk as [[]|Hk]. contradiction.
    + intros Hne. by destruct a.
Qed.

(** *** ORDER BY and the groups *)

(** The same query with another ORDER BY list. *)
Definition with_orderBy (q : SelectQuery) (o : list OrderBy) : SelectQuery :=
  let 'mkSelectQuery f c w g h _ l off d := q in mkSelectQuery f c w g h o l off d.

(** The groups of [st] are arrays of the store other than the one [rows]
    points to, allocated from position [n] on. *)
Definition fresh_groups (n : nat) (st : State) : Prop :=
  Forall (fun g : Z * nat => (n <= g.2 < length (heap st))%nat) (groupedRows st).

Lemma map_set_Forall (P : Z * nat -> Prop) k r m :
  (forall k', P (k', r)) -> Forall P m -> Forall P (map_set k r m).
Proof.
  intros Hr. induction m as [|[k' r'] m IH]; intros H; simpl.
  - constructor; [apply Hr|done].
  - apply Forall_cons in H as [H1 H2].
    destruct (k =? k'); constructor; auto.
Qed.

Lemma map_set_not_nil k r m : map_set k r m <> [].
Proof. destruct m as [|[k' r'] m]; simpl; [done|]. by destruct (k =? k'). Qed.

Section OrderBy.

Variable server : Server.
Variable newEvaluator : Server -> Row -> Evaluator.
Variable hashCode : string -> Z.
Variable sortBy : list SortByKey -> Row -> Row -> Res Z.

Lemma fromStep_shape ev sub f i st st' :
  fromStep server ev sub f i st = OK st' ->
  exists rs cols, st' = assign_rows rs (push_columns cols st).
Proof.
  unfold fromStep. intros H. bind_inv H. destruct a as [rs cols].
  destruct i as [|i].
  - injection H as <-. eauto.
  - destruct (from_join f) as [j|].
    + repeat (match type of H with
              | (if ?b then _ else _) = _ => destruct b
              end);
        try discriminate; bind_inv H; injection H as <-; eauto.
    + bind_inv H. injection H as <-. eauto.
Qed.

Lemma applyFrom_loop_inv ev sub froms : forall i st st',
  applyFrom_loop server ev sub froms i st = OK st' ->
  valid st -> groupedRows st = [] ->
  valid st' /\ groupedRows st' = [].
Proof.
  induction froms as [|f froms IH]; intros i st st' H Hv Hg; simpl in H.
  - by injection H as <-.
  - bind_inv H. apply fromStep_shape in Ha as (rs & cols & ->).
    eapply IH; [exact H|apply valid_assign|done].
Qed.

Lemma applyWhere_inv ev q st st' :
  applyWhere ev q st = OK st' ->
  valid st -> groupedRows st = [] ->
  valid st' /\ groupedRows st' = [].
Proof.
  unfold applyWhere. destruct (q_where q) as [w|]; intros H Hv Hg.
  - apply rethrow_OK in H. bind_inv H. injection H as <-.
    split; [apply valid_assign|done].
  - by injection H as <-.
Qed.

Lemma groupRow_inv ev groupBy n st row st' :
  groupRow hashCode ev groupBy st row = OK st' ->
  (n <= length (heap st))%nat -> fresh_groups n st ->
  rows st' = rows st
  /\ (length (heap st) <= length (heap st'))%nat
  /\ fresh_groups n st'
  /\ groupedRows st' <> []
  /\ (forall g, (g < length (heap st))%nat -> deref (heap st') g = deref (heap st) g).
Proof.
  unfold groupRow. intros H Hn Hf. bind_inv H. injection H as <-. simpl.
  split; [done|]. split; [rewrite length_app; lia|]. split; [|split].
  - unfold fresh_groups; simpl. apply map_set_Forall.
    + intros k'. simpl. rewrite length_app; simpl. lia.
    + eapply Forall_impl; [exact Hf|]. intros g Hg. simpl in Hg.
      rewrite length_app. lia.
  - apply map_set_not_nil.
  - intros g Hg. unfold deref. by rewrite lookup_app_l.
Qed.

Lemma foldlM_groupRow_inv ev groupBy n : forall l st st',
  foldlM (groupRow hashCode ev groupBy) l st = OK st' ->
  (n <= length (heap st))%nat -> fresh_groups n st ->
  rows st' = rows st
  /\ (length (heap st) <= length (heap st'))%nat
  /\ fresh_groups n st'
  /\ (l <> [] -> groupedRows st' <> [])
  /\ (l = [] -> st' = st)
  /\ (forall g, (g < length (heap st))%nat -> deref (heap st') g = deref (heap st) g).
Proof.
  induction l as [|row l IH]; intros st st' H Hn Hf; simpl in H.
  - injection H as <-. repeat split; auto.
  - bind_inv H.
    destruct (groupRow_inv _ _ n _ _ _ Ha Hn Hf) as (Hr & Hlen & Hf' & Hne & Hd).
    destruct (IH _ _ H ltac:(lia) Hf') as (Hr2 & Hlen2 & Hf2 & Hne2 & Hnil2 & Hd2).
    split; [congruence|]. split; [lia|]. split; [done|]. split; [|split].
    + intros _. destruct l as [|row' l].
      * by rewrite (Hnil2 eq_refl).
      * apply Hne2. done.
    + discriminate.
    + intros g Hg. rewrite Hd2 by lia. by apply Hd.
Qed.

(** What SELECT reads of a state: the groups and their arrays, and the
    rows when there is no group. *)
Definition same_inputs (st st' : State) : Prop :=
  groupedRows st = groupedRows st'
  /\ Forall (fun g : Z * nat =>
               (g.2 < length (heap st))%nat /\ (g.2 < length (heap st'))%nat
               /\ deref (heap st) g.2 = deref (heap st') g.2)
            (groupedRows st)
  /\ (groupedRows st = [] -> this_rows st = this_rows st').

Lemma injectRow_cases q st :
  (injectRow q st = st)
  \/ (injectRow q st = assign_rows [[]] st
      /\ this_rows st = [] /\ injectsRow (q_columns q) = true).
Proof.
  unfold injectRow.
  destruct (this_rows st) as [|r l]; simpl; [|by left].
  destruct (injectsRow (q_columns q)); [right|left]; done.
Qed.

Lemma injectRow_this_rows q st :
  this_rows (injectRow q st) =
  if (length (this_rows st) =? 0)%nat && injectsRow (q_columns q)
  then [[]] else this_rows st.
Proof.
  unfold injectRow.
  destruct ((length (this_rows st) =? 0)%nat && injectsRow (q_columns q)); [|done].
  apply this_rows_assign.
Qed.

Lemma selectInputs_same q st st' cols cols' :
  same_inputs st st' ->
  selectInputs (push_columns cols (injectRow q st))
  = selectInputs (push_columns cols' (injectRow q st')).
Proof.
  intros (Hg & Hall & Hrows). unfold selectInputs.
  assert (G : forall s, groupedRows (push_columns cols (injectRow q s)) = groupedRows s).
  { intros s. by destruct (injectRow_cases q s) as [->|[-> _]]. }
  assert (G' : forall s, groupedRows (push_columns cols' (injectRow q s)) = groupedRows s).
  { intros s. by destruct (injectRow_cases q s) as [->|[-> _]]. }
  rewrite G, G', <- Hg.
  destruct (groupedRows st) as [|g gs] eqn:E.
  - change (this_rows (injectRow q st)) with (this_rows (push_columns cols (injectRow q st))).
    rewrite !this_rows_push, !injectRow_this_rows. by rewrite (Hrows eq_refl).
  - apply map_ext_Forall. eapply Forall_impl; [exact Hall|].
    intros x (H1 & H2 & H3). simpl.
    assert (D : forall s, (x.2 < length (heap s))%nat ->
                deref (heap (injectRow q s)) x.2 = deref (heap s) x.2).
    { intros s Hx. destruct (injectRow_cases q s) as [->|[-> _]]; [done|].
      simpl. unfold deref. by rewrite lookup_app_l. }
    by rewrite !D, H3.
Qed.

Lemma with_orderBy_where q o : q_where (with_orderBy q o) = q_where q.
Proof. by destruct q. Qed.
Lemma with_orderBy_groupBy q o : q_groupBy (with_orderBy q o) = q_groupBy q.
Proof. by destruct q. Qed.
Lemma with_orderBy_columns q o : q_columns (with_orderBy q o) = q_columns q.
Proof. by destruct q. Qed.
Lemma with_orderBy_having q o : q_having (with_orderBy q o) = q_having q.
Proof. by destruct q. Qed.
Lemma with_orderBy_orderBy q o : q_orderBy (with_orderBy q o) = o.
Proof. by destruct q. Qed.

Lemma selectRows_order ev q o inputs :
  selectRows ev (with_orderBy q o) inputs = selectRows ev q inputs.
Proof.
  induction inputs as [|[rawRow group] inputs IH]; [done|].
  simpl. unfold mapRow, checkIfKeep.
  by rewrite with_orderBy_columns, with_orderBy_having, IH.
Qed.

Lemma applySelectAndHaving_order ev q o st :
  applySelectAndHaving ev (with_orderBy q o) st = applySelectAndHaving ev q st.
Proof.
  unfold applySelectAndHaving, injectRow, applyDistinct.
  rewrite selectRows_order, with_orderBy_columns. by destruct q.
Qed.

Lemma select_same ev q st st' s :
  same_inputs st st' ->
  applySelectAndHaving ev q st = OK s ->
  exists s', applySelectAndHaving ev q st' = OK s' /\ this_rows s' = this_rows s.
Proof.
  unfold applySelectAndHaving. intros Hsame H. bind_inv H. injection H as <-.
  rewrite <- (selectInputs_same q st st' (aliasKeys (q_columns q)) _ Hsame), Ha. simpl.
  eexists; split; [done|]. by rewrite !this_rows_assign.
Qed.

(** The LIMIT stage on the rows alone. *)
Definition limitRows (q : SelectQuery) (l : list Row) : Res (list Row) :=
  let l1 := if negb (q_offset q =? 0) then filter_index_ge (q_offset q) 0 l else l in
  if negb (q_limit q =? 0) && (q_limit q <? Z.of_nat (length l1))
  then
    if q_limit q <? 0 then Throw (JsError "RangeError" "Invalid array length")
    else OK (take (Z.to_nat (q_limit q)) l1)
  else OK l1.

Lemma applyLimit_limitRows q st :
  valid st -> (s ← applyLimit q st; OK (this_rows s)) = limitRows q (this_rows st).
Proof.
  intros Hv. unfold applyLimit, limitRows.
  set (st1 := if negb (q_offset q =? 0) then _ else st).
  set (l1 := if negb (q_offset q =? 0) then _ else this_rows st).
  assert (H1 : valid st1 /\ this_rows st1 = l1).
  { subst st1 l1. destruct (negb (q_offset q =? 0)); [|done].
    split; [apply valid_assign|apply this_rows_assign]. }
  destruct H1 as [Hv1 Hr1]. rewrite Hr1.
  destruct (negb (q_limit q =? 0) && (q_limit q <? Z.of_nat (length l1)));
    [|simpl; by rewrite Hr1].
  destruct (q_limit q <? 0); [done|]. simpl.
  by rewrite this_rows_update.
Qed.

Lemma sorted_nil {A} (cmp : A -> A -> Res Z) s : array_sort cmp [] = OK s -> s = [].
Proof. simpl. congruence. Qed.

Lemma applyOrderBy_same ev q n st st' :
  valid st -> (rows st < n)%nat -> fresh_groups n st ->
  (groupedRows st = [] -> this_rows st = []) ->
  applyOrderBy sortBy ev q st = OK st' ->
  same_inputs st' st.
Proof.
  intros Hv Hn Hf He. unfold applyOrderBy.
  assert (Hrefl : same_inputs st st).
  { split; [done|]. split; [|done].
    eapply Forall_impl; [exact Hf|]. intros g Hg. simpl in Hg. repeat split; lia. }
  destruct (q_orderBy q) as [|o os]; intros H.
  - by injection H as <-.
  - apply rethrow_OK in H. bind_inv H. injection H as <-.
    split; [done|]. split.
    + eapply Forall_impl; [exact Hf|]. intros g Hg. simpl in *.
      rewrite length_insert. repeat split; try lia.
      unfold deref. rewrite list_lookup_insert_ne; [done|lia].
    + simpl. intros Hnil. rewrite this_rows_update by done.
      rewrite (He Hnil) in Ha |- *. by apply sorted_nil in Ha.
Qed.

Lemma afterFrom_order ev q st out :
  valid st -> groupedRows st = [] -> q_groupBy q <> [] ->
  afterFrom hashCode sortBy ev q st = OK out ->
  afterFrom hashCode sortBy ev (with_orderBy q []) st = OK out.
Proof.
  intros Hv Hg Hgb. unfold afterFrom. intros H.
  bind_inv H. rename a into st1, Ha into Hwhere.
  bind_inv H. rename a into st2, Ha into Hgroup.
  bind_inv H. rename a into st3, Ha into Horder.
  bind_inv H. rename a into st4, Ha into Hselect.
  bind_inv H. rename a into st5, Ha into Hlimit.
  injection H as <-.
  destruct (applyWhere_inv _ _ _ _ Hwhere Hv Hg) as [Hv1 Hg1].
  assert (Hsame : same_inputs st3 st2).
  { unfold applyGroupBy in Hgroup.
    destruct (q_groupBy q) as [|g0 gs]; [done|].
    apply rethrow_OK in Hgroup.
    destruct (foldlM_groupRow_inv ev (g0 :: gs) (length (heap st1)) _ _ _ Hgroup)
      as (Hr & Hlen & Hf & Hne & Hnil & Hd).
    { done. }
    { unfold fresh_groups. rewrite Hg1. constructor. }
    eapply (applyOrderBy_same ev q (length (heap st1))); [| | | |exact Horder].
    - unfold valid in *. lia.
    - unfold valid in Hv1. lia.
    - done.
    - intros E. destruct (this_rows st1) as [|r l] eqn:Er.
      + by rewrite (Hnil eq_refl).
      + exfalso. by apply Hne. }
  destruct (select_same ev q st3 st2 st4 Hsame Hselect) as (st4' & Hselect' & Hrows).
  assert (Hw : applyWhere ev (with_orderBy q []) st = OK st1).
  { unfold applyWhere in *. by rewrite with_orderBy_where. }
  assert (Hgr : applyGroupBy hashCode ev (with_orderBy q []) st1 = OK st2).
  { unfold applyGroupBy in *. by rewrite with_orderBy_groupBy, with_orderBy_columns. }
  assert (Ho : applyOrderBy sortBy ev (with_orderBy q []) st2 = OK st2).
  { unfold applyOrderBy. by rewrite with_orderBy_orderBy. }
  rewrite Hw; simpl. rewrite Hgr; simpl. rewrite Ho; simpl.
  rewrite applySelectAndHaving_order, Hselect'; simpl.
  assert (Hl : (s ← applyLimit (with_orderBy q []) st4'; OK (this_rows s)) = OK (this_rows st5)).
  { rewrite applyLimit_limitRows by (eapply applySelectAndHaving_valid; eauto).
    rewrite Hrows.
    replace (limitRows (with_orderBy q []) (this_rows st4)) with (limitRows q (this_rows st4))
      by (by destruct q).
    rewrite <- applyLimit_limitRows by (eapply applySelectAndHaving_valid; eauto).
    by rewrite Hlimit. }
  exact Hl.
Qed.

(** C9, as amended. With a GROUP BY list that is not empty, a query that
    returns, returns what it returns without its ORDER BY list: each group
    is an array of its own, made before ORDER BY sorts the array of rows,
    and SELECT reads the groups only. *)
Theorem order_by_ignored_with_group_by (q : SelectQuery) (context : Row) (out : list Row) :
  q_groupBy q <> [] ->
  process server newEvaluator hashCode sortBy q context = OK out ->
  process server newEvaluator hashCode sortBy (with_orderBy q []) context = OK out.
Proof.
  intros Hgb H. destruct q as [f c w g h o l off d]. simpl in H |- *.
  bind_inv H. rewrite Ha. simpl.
  destruct (applyFrom_loop_inv _ _ _ _ _ _ Ha valid_init eq_refl) as [Hv Hg].
  by apply (afterFrom_order _ (mkSelectQuery f c w g h o l off d)).
Qed.

End OrderBy.

(** [t = [{id: 1}, {id: 2}]]. *)
Definition table_1_2 : Table :=
  {| getColumns := [mkColumn "id" false None (IntegerColumn 32 false false 0)];
     getRows := [[("id", VNumber 1)]; [("id", VNumber 2)]] |}.

(** [SELECT count( * ) c, id + 0 x FROM t], with an ORDER BY list. *)
Definition count_and_id (o : list OrderBy) : SelectQuery :=
  mkSelectQuery [FromTable None "t" None None None]
    [mkSelectColumn (FunctionE "count" [StarE None] false) "count()" (Some "c");
     mkSelectColumn (BinaryExpressionE "+" (ColumnRefE None "id") (NumberE 0)) "" (Some "x")]
    None [] Null o 0 0 false.

(** In single-group mode the group is the array ORDER BY sorts in place:
    [ORDER BY id DESC] changes the first row of the group, which is the
    row [id + 0] is evaluated on. *)
Lemma order_by_changes_single_group :
  Spec.process (server_with "t" table_1_2)
    (count_and_id [mkOrderBy (ColumnRefE None "id") DESC])
  = OK [[("c", VNumber 2); ("x", VNumber 2)]]
  /\ Spec.process (server_with "t" table_1_2) (count_and_id [])
     = OK [[("c", VNumber 2); ("x", VNumber 1)]]
  /\ Spec.process (server_with "t" table_1_2)
       (count_and_id [mkOrderBy (ColumnRefE None "id") DESC])
     <> Spec.process (server_with "t" table_1_2) (count_and_id []).
Proof.
  split; [vm_compute; reflexivity|]. split; [vm_compute; reflexivity|].
  vm_compute. discriminate.
Qed.

(** [SELECT count( * ) c FROM t GROUP BY id], with an ORDER BY list. *)
Definition count_by_id (o : list OrderBy) : SelectQuery :=
  mkSelectQuery [FromTable None "t" None None None]
    [mkSelectColumn (FunctionE "count" [StarE None] false) "count()" (Some "c")]
    None [ColumnRefE None "id"] Null o 0 0 false.

Lemma order_by_ignored_with_group_by_witness :
  Spec.process (server_with "t" table_1_2) (count_by_id []) =
  OK [[("c", VNumber 1)]; [("c", VNumber 1)]].
Proof.
  apply (order_by_ignored_with_group_by (server_with "t" table_1_2)
           Spec.newEvaluator Spec.hashCode Spec.sortBy
           (count_by_id [mkOrderBy (ColumnRefE None "id") DESC]) []).
  - discriminate.
  - vm_compute. reflexivity.
Defined.

Lemma limit_drops_then_truncates_witness :
  exists st',
    applyLimit (mkSelectQuery [] [] None [] Null [] 1 1 false)
               (assign_rows [[("a", VNumber 1)]; [("a", VNumber 2)]; [("a", VNumber 3)]] init)
    = OK st'
    /\ this_rows st' = [[("a", VNumber 2)]].
Proof.
  destruct (limit_drops_then_truncates (server_with "t" table_1_2)
              Spec.newEvaluator Spec.hashCode Spec.sortBy
              (mkSelectQuery [] [] None [] Null [] 1 1 false) ltac:(simpl; lia))
    as [Hstage _].
  destruct (Hstage (assign_rows [[("a", VNumber 1)]; [("a", VNumber 2)]; [("a", VNumber 3)]] init)
              (valid_assign _ _)) as (st' & E & R & _).
  exists st'. split; [exact E|exact R].
Defined.

(** [SELECT count( * ), t.id FROM t]: an aggregate and a column reference. *)
Definition count_and_ref : SelectQuery :=
  mkSelectQuery [FromTable None "t" None None None]
    [mkSelectColumn (FunctionE "count" [StarE None] false) "count()" None;
     mkSelectColumn (ColumnRefE (Some "t") "id") "id" None]
    None [] Null [] 0 0 false.

Lemma group_by_empty_witness :
  applyGroupBy Spec.hashCode (Spec.newEvaluator (server_with "t" table_1_2) []) count_and_ref init
  = Throw (ProcessorException
      "In aggregated query without GROUP BY, expression #2 of SELECT list contains nonaggregated column 't.id'").
Proof.
  destruct (group_by_empty Spec.hashCode Spec.sortBy
              (Spec.newEvaluator (server_with "t" table_1_2) []) count_and_ref init eq_refl)
    as (_ & Hthrow & _).
  apply (Hthrow ltac:(apply Exists_cons; left; exists "count", [StarE None], false;
                      split; [reflexivity|simpl; tauto])
                1%nat (Some "t") "id").
  split.
  - eexists. split; reflexivity.
  - intros j c Hj Hl. destruct j as [|j]; [|lia].
    injection Hl as <-. intros (t & col & E). discriminate.
Defined.

End SelectFacts.

(** * Properties of the query builder *)

Module ParserFacts.

Import Parser.

(** The same tree with another limit clause. *)
Definition with_limit (ast : Select) (l : option AstLimit) : Select :=
  {| from := from ast; columns := columns ast; where_ := where_ ast;
     groupby := groupby ast; orderby := orderby ast; limit := l |}.

(** [LIMIT a, b]: two values, the offset first. *)
Definition limit_comma (a b : Z) : option AstLimit :=
  Some {| seperator := ","; value := [a; b] |}.

(** [LIMIT b OFFSET a]: two values, the limit first. *)
Definition limit_offset (b a : Z) : option AstLimit :=
  Some {| seperator := "offset"; value := [b; a] |}.

(** Parse, then run: [fromAst] followed by [process]. *)
Definition execute (buildExpression : AstExpr -> list (string * string) -> Res Expression)
    (server : Server) (newEvaluator : Server -> Row -> Select.Evaluator)
    (hashCode : string -> Z)
    (sortBy : list Select.SortByKey -> Row -> Row -> Res Z)
    (ast : Select) : Res (list Row) :=
  q ← fromAst buildExpression ast;
  Select.process server newEvaluator hashCode sortBy q [].

(** C8. [LIMIT a, b] and [LIMIT b OFFSET a] give the pair
    [limit = b], [offset = a]; the two queries built are the same query,
    and so are their executions. *)
Theorem limit_comma_is_limit_offset
    (buildExpression : AstExpr -> list (string * string) -> Res Expression)
    (ast : Select) (a b : Z) :
  limitOffset (limit_comma a b) = (b, a)
  /\ limitOffset (limit_offset b a) = (b, a)
  /\ fromAst buildExpression (with_limit ast (limit_comma a b))
     = fromAst buildExpression (with_limit ast (limit_offset b a))
  /\ (forall q, fromAst buildExpression (with_limit ast (limit_comma a b)) = OK q ->
                q_limit q = b /\ q_offset q = a)
  /\ (forall q, fromAst buildExpression (with_limit ast (limit_offset b a)) = OK q ->
                q_limit q = b /\ q_offset q = a)
  /\ (forall server newEvaluator hashCode sortBy,
        execute buildExpression server newEvaluator hashCode sortBy
                (with_limit ast (limit_comma a b))
        = execute buildExpression server newEvaluator hashCode sortBy
                  (with_limit ast (limit_offset b a))).
Proof.
  assert (E : fromAst buildExpression (with_limit ast (limit_comma a b))
              = fromAst buildExpression (with_limit ast (limit_offset b a))) by reflexivity.
  assert (F : forall q, fromAst buildExpression (with_limit ast (limit_comma a b)) = OK q ->
                        q_limit q = b /\ q_offset q = a).
  { unfold fromAst. simpl. intros q H.
    repeat (apply SelectFacts.bind_OK in H; destruct H as (? & _ & H)).
    by injection H as <-. }
  split; [reflexivity|]. split; [reflexivity|]. split; [exact E|].
  split; [exact F|]. split.
  - intros q H. apply F. by rewrite E.
  - intros. unfold execute. by rewrite E.
Qed.

(** Modelled from the spec: [buildExpression] of [src/parser/expression]
    is not in src. The nodes map to the expression of the same shape; a
    column reference through an alias of a FROM source gets the name of
    the table behind the alias (section 4.2). *)
Fixpoint buildExpression (e : AstExpr) (aliases : list (string * string)) : Res Expression :=
  match e with
  | AstColumnRef t "*" => OK (StarE (match t with
                                     | Some a => Some (default a (assoc a aliases))
                                     | None => None
                                     end))
  | AstColumnRef t c => OK (ColumnRefE (match t with
                                        | Some a => Some (default a (assoc a aliases))
                                        | None => None
                                        end) c)
  | AstNumber z => OK (NumberE z)
  | AstString s => OK (StringE s)
  | AstBinaryExpr op l r =>
      l' ← buildExpression l aliases;
      r' ← buildExpression r aliases;
      OK (BinaryExpressionE op l' r')
  | AstAggrFunc name args | AstFunction name args =>
      args' ← (fix build (l : list AstExpr) : Res (list Expression) :=
                 match l with
                 | [] => OK []
                 | x :: l' => x' ← buildExpression x aliases; r ← build l'; OK (x' :: r)
                 end) args;
      OK (FunctionE name args' false)
  | AstStar => OK (StarE None)
  | AstOther t => Spec.not_modelled t
  end.

(** The tree of [SELECT database()]. *)
Definition select_database : Select :=
  {| from := None;
     columns := [AstExprColumn (AstFunction "database" []) None];
     where_ := None; groupby := None; orderby := None; limit := None |}.

(** A server whose current database is [mydb]. *)
Definition mydb (dbs : list (string * Database)) : Server :=
  {| currentDatabase := Some "mydb"; databases := dbs |}.

(** The query of [SELECT database()]: one function column, named by its
    function followed by a pair of parentheses, with the [having] given. *)
Definition database_query (having : Slot Expression) : SelectQuery :=
  mkSelectQuery []
    [mkSelectColumn (FunctionE "database" [] false) "database()" None]
    None [] having [] 0 0 false.

(** C6, as amended. For [SELECT database()], [fromAst] builds the query
    whose one column is the function, named [database()], and which has no
    [having]; on the one row the SELECT stage works on, the empty row, the
    column is mapped to a row whose one key is [database()], bound to
    ['mydb']; and with a [having] that is [null] the query returns exactly
    that row, on a server whose current database is [mydb]. This holds for
    every builder that maps the call to the function expression and every
    evaluator that answers [database()] with the current database. *)
Theorem select_database_row
    (build : AstExpr -> list (string * string) -> Res Expression)
    (newEvaluator : Server -> Row -> Select.Evaluator)
    (hashCode : string -> Z)
    (sortBy : list Select.SortByKey -> Row -> Row -> Res Z)
    (dbs : list (string * Database)) :
  build (AstFunction "database" []) [] = OK (FunctionE "database" [] false) ->
  (forall row group,
     Select.evaluateExpression (newEvaluator (mydb dbs) [])
       (FunctionE "database" [] false) row group = OK (VString "mydb")) ->
  fromAst build select_database = OK (database_query Undefined)
  /\ Select.this_rows (Select.injectRow (database_query Undefined) Select.init) = [[]]
  /\ Select.mapRow (newEvaluator (mydb dbs) []) (database_query Undefined) (Some []) []
     = OK ([("database()", VString "mydb")], Some [])
  /\ Select.process (mydb dbs) newEvaluator hashCode sortBy (database_query Null) []
     = OK [[("database()", VString "mydb")]].
Proof.
  intros Hb He. split; [|split; [|split]].
  - unfold fromAst, select_database. simpl.
    change (tableAliases []) with (@nil (string * string)).
    by rewrite Hb.
  - reflexivity.
  - unfold Select.mapRow. simpl. by rewrite He.
  - simpl. unfold Select.afterFrom. simpl.
    unfold Select.applySelectAndHaving. simpl.
    unfold Select.mapRow. simpl. by rewrite He.
Qed.

Lemma select_database_row_witness :
  fromAst buildExpression select_database = OK (database_query Undefined)
  /\ Spec.process (mydb []) (database_query Null) = OK [[("database()", VString "mydb")]].
Proof.
  destruct (select_database_row buildExpression Spec.newEvaluator Spec.hashCode Spec.sortBy [])
    as (Hq & _ & _ & Hrun).
  - reflexivity.
  - intros row group. reflexivity.
  - split; [exact Hq|exact Hrun].
Defined.

(** The run of [SELECT database()] does not return the row
    [{database: 'mydb'}]: the key of the mapped row is [database()], and
    the run itself throws, in the HAVING check, with the evaluator as
    modelled. *)
Lemma select_database_key :
  Select.mapRow (Spec.newEvaluator (mydb []) []) (database_query Undefined) (Some []) []
  = OK ([("database()", VString "mydb")], Some [])
  /\ execute buildExpression (mydb []) Spec.newEvaluator Spec.hashCode Spec.sortBy
             select_database
     = Throw (JsError "TypeError" "Cannot read properties of undefined (reading 'type')").
Proof. split; vm_compute; reflexivity. Qed.

End ParserFacts.

(** * Properties of the INSERT processor *)

Module InsertFacts.

Import Insert.

(** Two states of one column: the same but for the counter. *)
Definition same_column (a b : Column) : Prop :=
  getName a = getName b
  /\ isNullable a = isNullable b
  /\ getDefaultValueExpression a = getDefaultValueExpression b
  /\ hasAutoIncrement a = hasAutoIncrement b.

Lemma same_column_refl a : same_column a a.
Proof. by repeat split. Qed.

Lemma same_column_trans a b c : same_column a b -> same_column b c -> same_column a c.
Proof. unfold same_column. intuition congruence. Qed.

Lemma same_column_next c : same_column (nextAutoIncrementValue c).2 c.
Proof.
  unfold nextAutoIncrementValue, same_column, hasAutoIncrement.
  destruct c as [n nl d k]; destruct k; simpl; done.
Qed.

(** What a step that inserts no row leaves as it was: the rows, the count
    of affected rows, and the columns but for their counters. *)
Definition evolves (s s' : St) : Prop :=
  getRows (st_table s') = getRows (st_table s)
  /\ st_affectedRows s' = st_affectedRows s
  /\ Forall2 same_column (getColumns (st_table s')) (getColumns (st_table s)).

Lemma evolves_refl s : evolves s s.
Proof.
  repeat split. apply Forall2_same_length_lookup. split; [done|].
  intros i x y Hx Hy. rewrite Hx in Hy. injection Hy as <-. apply same_column_refl.
Qed.

Lemma evolves_trans s1 s2 s3 : evolves s1 s2 -> evolves s2 s3 -> evolves s1 s3.
Proof.
  intros (R1 & A1 & C1) (R2 & A2 & C2). split; [congruence|]. split; [congruence|].
  eapply Forall2_trans; [|exact C2|exact C1].
  intros x y z Hxy Hyz. eapply same_column_trans; eauto.
Qed.

(** What a step leaves of [insertId]. *)
Definition same_id (s s' : St) : Prop := st_insertId s' = st_insertId s.

(** A computation whose every run relates the state it starts from to the
    state it ends in, whether it returns or throws. *)
Definition frame (R : St -> St -> Prop) {A} (m : M A) : Prop :=
  forall s r s', m s = (r, s') -> R s s'.

Section Frame.

Variable R : St -> St -> Prop.
Hypothesis R_refl : forall s, R s s.
Hypothesis R_trans : forall s1 s2 s3, R s1 s2 -> R s2 s3 -> R s1 s3.

Lemma frame_ret {A} (a : A) : frame R (mret a).
Proof. intros s r s' H. injection H as <- <-. apply R_refl. Qed.

Lemma frame_throw {A} e : frame R (@throw A e).
Proof. intros s r s' H. injection H as <- <-. apply R_refl. Qed.

Lemma frame_lift {A} (x : Res A) : frame R (lift x).
Proof. intros s r s' H. injection H as <- <-. apply R_refl. Qed.

Lemma frame_liveColumn ic : frame R (liveColumn ic).
Proof. intros s r s' H. injection H as <- <-. apply R_refl. Qed.

Lemma frame_bind {A B} (m : M A) (f : A -> M B) :
  frame R m -> (forall a, frame R (f a)) -> frame R (m ≫= f).
Proof.
  intros Hm Hf s r s' H. unfold mbind, M_bind in H.
  destruct (m s) as [[a|e] s1] eqn:E.
  - eapply R_trans; [eapply Hm; eauto|eapply Hf; eauto].
  - injection H as <- <-. eapply Hm; eauto.
Qed.

Lemma frame_try_catch {A} (m : M A) (h : Exn -> M A) :
  frame R m -> (forall e, frame R (h e)) -> frame R (try_catch m h).
Proof.
  intros Hm Hh s r s' H. unfold try_catch in H.
  destruct (m s) as [[a|e] s1] eqn:E.
  - injection H as <- <-. eapply Hm; eauto.
  - eapply R_trans; [eapply Hm; eauto|eapply Hh; eauto].
Qed.

Lemma frame_foldM {A B} (f : A -> B -> M A) (l : list B) :
  (forall a b, frame R (f a b)) -> forall a, frame R (foldM f l a).
Proof.
  intros Hf. induction l as [|b l IH]; intros a; simpl.
  - apply frame_ret.
  - apply frame_bind; [apply Hf|apply IH].
Qed.

Lemma frame_if {A} (b : bool) (m1 m2 : M A) :
  frame R m1 -> frame R m2 -> frame R (if b then m1 else m2).
Proof. by destruct b. Qed.

End Frame.

Lemma frame_set_insertId v : frame evolves (set_insertId v).
Proof.
  intros s r s' H. injection H as <- <-.
  destruct (evolves_refl s) as (R & A & C). by repeat split.
Qed.

Lemma evolves_getNextAutoIncrementValue i : frame evolves (getNextAutoIncrementValue i).
Proof.
  intros s r s' H. unfold getNextAutoIncrementValue in H.
  destruct (getColumns (st_table s) !! i) as [c|] eqn:E.
  - pose proof (same_column_next c) as Hc.
    destruct (nextAutoIncrementValue c) as [v c']. injection H as <- <-.
    repeat split; simpl.
    apply Forall2_same_length_lookup. split; [by rewrite length_insert|].
    intros j x y Hx Hy. destruct (decide (i = j)) as [->|Hne].
    + rewrite list_lookup_insert_eq in Hx by (eapply lookup_lt_Some; eauto).
      injection Hx as <-. rewrite E in Hy. by injection Hy as <-.
    + rewrite list_lookup_insert_ne in Hx by done.
      rewrite Hx in Hy. injection Hy as <-. apply same_column_refl.
  - injection H as <- <-. apply evolves_refl.
Qed.

Lemma same_id_getNextAutoIncrementValue i : frame same_id (getNextAutoIncrementValue i).
Proof.
  intros s r s' H. unfold getNextAutoIncrementValue in H.
  destruct (getColumns (st_table s) !! i) as [c|].
  - destruct (nextAutoIncrementValue c) as [v c']. by injection H as <- <-.
  - by injection H as <- <-.
Qed.

Section Frames.

Variable server : Server.
Variable evaluateExpression : Server -> list string -> Expression -> Row -> Res Value.
Variable cast : Column -> Value -> Res Value.
Variable query : InsertQuery.

Local Abbreviation evaluate := (evaluate server evaluateExpression query).
Local Abbreviation evaluateDefaultValue := (evaluateDefaultValue server evaluateExpression query).
Local Abbreviation rawRowStep := (rawRowStep server evaluateExpression query).
Local Abbreviation columnValue := (columnValue server evaluateExpression query).
Local Abbreviation rowStep := (rowStep server evaluateExpression cast query).
Local Abbreviation insertValues := (insertValues server evaluateExpression cast query).

Section Relation.

Variable R : St -> St -> Prop.
Hypothesis R_refl : forall s, R s s.
Hypothesis R_trans : forall s1 s2 s3, R s1 s2 -> R s2 s3 -> R s1 s3.
Hypothesis R_next : forall i, frame R (getNextAutoIncrementValue i).

Lemma frame_evaluate scope e row : frame R (evaluate scope e row).
Proof. intros s r s' H. injection H as <- <-. apply R_refl. Qed.

Lemma frame_getColumnDefinition cs column : frame R (getColumnDefinition cs column).
Proof.
  unfold getColumnDefinition. destruct (lookupColumn column cs 0).
  - by apply frame_ret.
  - by apply frame_throw.
Qed.

Lemma frame_evaluateDefaultValue scope ic row : frame R (evaluateDefaultValue scope ic row).
Proof.
  unfold Insert.evaluateDefaultValue. apply frame_if.
  - apply R_next.
  - destruct (getDefaultValueExpression ic.2); [apply frame_evaluate|by apply frame_ret].
Qed.

Lemma frame_rawRowStep scope cs res cv : frame R (rawRowStep scope cs res cv).
Proof.
  unfold Insert.rawRowStep. apply frame_bind; [done| |].
  - apply frame_if.
    + apply frame_bind; [done|apply frame_getColumnDefinition|].
      intros a. apply frame_evaluateDefaultValue.
    + apply frame_evaluate.
  - intros a. by apply frame_ret.
Qed.

Lemma frame_columnValue scope rawRow ic : frame R (columnValue scope rawRow ic).
Proof.
  unfold Insert.columnValue. apply frame_bind; [done|apply frame_evaluate|].
  intros v. apply frame_if; [apply frame_evaluateDefaultValue|by apply frame_ret].
Qed.

End Relation.

Lemma evolves_rawRowStep scope cs res cv : frame evolves (rawRowStep scope cs res cv).
Proof.
  apply frame_rawRowStep;
    [apply evolves_refl|apply evolves_trans|apply evolves_getNextAutoIncrementValue].
Qed.


Lemma evolves_columnValue scope rawRow ic : frame evolves (columnValue scope rawRow ic).
Proof.
  apply frame_columnValue;
    [apply evolves_refl|apply evolves_trans|apply evolves_getNextAutoIncrementValue].
Qed.

Lemma same_id_columnValue scope rawRow ic : frame same_id (columnValue scope rawRow ic).
Proof.
  apply frame_columnValue; [done| |apply same_id_getNextAutoIncrementValue].
  unfold same_id. congruence.
Qed.

Lemma evolves_rowStep scope rawRow rowIndex res ic :
  frame evolves (rowStep scope rawRow rowIndex res ic).
Proof.
  pose proof evolves_refl as Hr. pose proof evolves_trans as Ht.
  unfold Insert.rowStep. apply frame_bind; [done|apply evolves_columnValue|].
  intros value. apply frame_bind; [done| |].
  { apply frame_if; [by apply frame_throw|by apply frame_ret]. }
  intros _. apply frame_bind; [done| |].
  { apply frame_if; [apply frame_set_insertId|by apply frame_ret]. }
  intros _. apply frame_try_catch; [done| |].
  - apply frame_bind; [done|by apply frame_liveColumn|]. intros c.
    apply frame_bind; [done|by apply frame_lift|]. intros v. by apply frame_ret.
  - intros e. apply frame_if; by apply frame_throw.
Qed.

Lemma evolves_rawRow scope cs l a : frame evolves (foldM (rawRowStep scope cs) l a).
Proof.
  apply frame_foldM; [apply evolves_refl|apply evolves_trans|].
  intros. apply evolves_rawRowStep.
Qed.


Lemma evolves_row scope rawRow rowIndex l a :
  frame evolves (foldM (rowStep scope rawRow rowIndex) l a).
Proof.
  apply frame_foldM; [apply evolves_refl|apply evolves_trans|].
  intros. apply evolves_rowStep.
Qed.

Local Abbreviation processTable := (processTable server evaluateExpression cast query).

Lemma bindM_OK {A B} (m : M A) (f : A -> M B) s b s' :
  (m ≫= f) s = (OK b, s') ->
  exists a s1, m s = (OK a, s1) /\ f a s1 = (OK b, s').
Proof.
  unfold mbind, M_bind. destruct (m s) as [[a|e] s1]; [eauto|discriminate].
Qed.

Lemma bindM_Throw {A B} (m : M A) (f : A -> M B) s e s' :
  (m ≫= f) s = (Throw e, s') ->
  m s = (Throw e, s') \/ exists a s1, m s = (OK a, s1) /\ f a s1 = (Throw e, s').
Proof.
  unfold mbind, M_bind. destruct (m s) as [[a|e0] s1]; [eauto|].
  intros H. injection H as <- <-. by left.
Qed.

Lemma bindM_run {A B} (m : M A) (f : A -> M B) s a s1 :
  m s = (OK a, s1) -> (m ≫= f) s = f a s1.
Proof. unfold mbind, M_bind. by intros ->. Qed.

Lemma bindM_fail {A B} (m : M A) (f : A -> M B) s e s1 :
  m s = (Throw e, s1) -> (m ≫= f) s = (Throw e, s1).
Proof. unfold mbind, M_bind. by intros ->. Qed.

Lemma foldM_app {A B} (f : A -> B -> M A) l1 l2 a s :
  foldM f (l1 ++ l2) a s =
  match foldM f l1 a s with
  | (OK a', s') => foldM f l2 a' s'
  | (Throw e, s') => (Throw e, s')
  end.
Proof.
  revert a s. induction l1 as [|b l1 IH]; intros a s; simpl; [done|].
  unfold mbind, M_bind. destruct (f a b s) as [[a'|e] s1]; [apply IH|done].
Qed.

Lemma forEach_app {B} (f : B -> Z -> M unit) l1 l2 i s :
  forEach f (l1 ++ l2) i s =
  match forEach f l1 i s with
  | (OK _, s') => forEach f l2 (i + Z.of_nat (length l1)) s'
  | (Throw e, s') => (Throw e, s')
  end.
Proof.
  revert i s. induction l1 as [|b l1 IH]; intros i s; simpl.
  - by rewrite Z.add_0_r.
  - unfold mbind, M_bind. destruct (f b i s) as [[[]|e] s1]; [|done].
    rewrite IH. replace (i + 1 + Z.of_nat (length l1)) with (i + Z.pos (Pos.of_succ_nat (length l1))) by lia.
    done.
Qed.

(** The state a row leaves when it is inserted. *)
Definition after_insert (row : Row) (s : St) : St :=
  {| st_table := insertRow row (st_table s); st_insertId := st_insertId s;
     st_affectedRows := st_affectedRows s + 1 |}.

Lemma insertValues_OK cds scope cols values rowIndex s s' :
  insertValues cds scope cols values rowIndex s = (OK tt, s') ->
  length values = length cols
  /\ exists rawRow s1 row s2,
       foldM (rawRowStep scope cds) (zip cols values) [] s = (OK rawRow, s1)
       /\ foldM (rowStep scope rawRow rowIndex) (indexed cds) [] s1 = (OK row, s2)
       /\ s' = after_insert row s2.
Proof.
  unfold Insert.insertValues.
  destruct (Nat.eqb_spec (length values) (length cols)) as [E|E]; simpl; [|discriminate].
  intros H. split; [done|].
  apply bindM_OK in H as (rawRow & s1 & Hraw & H).
  apply bindM_OK in H as (row & s2 & Hrow & H).
  exists rawRow, s1, row, s2. split; [done|]. split; [done|].
  by injection H as <-.
Qed.

Lemma insertValues_Throw cds scope cols values rowIndex s e s' :
  insertValues cds scope cols values rowIndex s = (Throw e, s') -> evolves s s'.
Proof.
  unfold Insert.insertValues.
  destruct (negb (length values =? length cols)%nat).
  - intros H. injection H as <- <-. apply evolves_refl.
  - intros H. apply bindM_Throw in H as [H|(rawRow & s1 & Hraw & H)].
    + eapply evolves_rawRow; eauto.
    + eapply evolves_trans.
      { eapply evolves_rawRow; eauto. }
      apply bindM_Throw in H as [H|(row & s2 & Hrow & H)].
      * eapply evolves_row; eauto.
      * discriminate.
Qed.

(** [n] rows were inserted between two states. *)
Definition inserted (n : nat) (s s' : St) : Prop :=
  (exists new, getRows (st_table s') = getRows (st_table s) ++ new /\ length new = n)
  /\ st_affectedRows s' = st_affectedRows s + Z.of_nat n
  /\ Forall2 same_column (getColumns (st_table s')) (getColumns (st_table s)).

Lemma inserted_one cds scope cols values rowIndex s s' :
  insertValues cds scope cols values rowIndex s = (OK tt, s') -> inserted 1 s s'.
Proof.
  intros H. apply insertValues_OK in H as (_ & rawRow & s1 & row & s2 & Hraw & Hrow & ->).
  pose proof (evolves_rawRow _ _ _ _ _ _ _ Hraw) as E1.
  pose proof (evolves_row _ _ _ _ _ _ _ _ Hrow) as E2.
  destruct (evolves_trans _ _ _ E1 E2) as (R & A & C).
  split; [|split]; simpl.
  - exists [row]. by rewrite R.
  - lia.
  - done.
Qed.

Lemma forEach_inserted cds scope cols : forall l i s s',
  forEach (insertValues cds scope cols) l i s = (OK tt, s') ->
  inserted (length l) s s'.
Proof.
  induction l as [|v l IH]; intros i s s' H; simpl in H.
  - injection H as <-. destruct (evolves_refl s) as (R & A & C).
    split; [exists []; by rewrite app_nil_r|]. split; [simpl; lia|done].
  - apply bindM_OK in H as ([] & s1 & H1 & H).
    apply inserted_one in H1 as ((new1 & R1 & L1) & A1 & C1).
    apply IH in H as ((new & R & L) & A & C).
    split; [|split].
    + exists (new1 ++ new). rewrite R, R1, app_assoc. split; [done|].
      rewrite length_app. simpl. lia.
    + simpl length. lia.
    + eapply Forall2_trans; [|exact C|exact C1].
      intros x y z Hxy Hyz. eapply same_column_trans; eauto.
Qed.

Definition with_insertId (v : Value) (s : St) : St :=
  {| st_table := st_table s; st_insertId := v; st_affectedRows := st_affectedRows s |}.

(** The column object at position [ic.1] in a state. *)
Definition live (ic : nat * Column) (s : St) : Column :=
  default ic.2 (getColumns (st_table s) !! ic.1).


Lemma rowStep_OK scope rawRow rowIndex res ic s res' s' :
  rowStep scope rawRow rowIndex res ic s = (OK res', s') ->
  exists value w s1,
    columnValue scope rawRow ic s = (OK value, s1)
    /\ is_null value && negb (isNullable ic.2) = false
    /\ s' = (if hasAutoIncrement ic.2 then with_insertId value s1 else s1)
    /\ cast (live ic s') value = OK w
    /\ res' = obj_set (getName ic.2) w res.
Proof.
  unfold Insert.rowStep. intros H.
  apply bindM_OK in H as (value & s1 & Hv & H).
  apply bindM_OK in H as ([] & s2 & Hn & H).
  apply bindM_OK in H as ([] & s3 & Hi & H).
  destruct (is_null value && negb (isNullable ic.2)) eqn:En; [discriminate|].
  injection Hn as <-.
  assert (E3 : s3 = if hasAutoIncrement ic.2 then with_insertId value s1 else s1).
  { destruct (hasAutoIncrement ic.2); by injection Hi as <-. }
  unfold try_catch, mbind, M_bind, liveColumn, lift in H. simpl in H.
  fold (live ic s3) in H.
  destruct (cast (live ic s3) value) as [w|e] eqn:Ec.
  - injection H as <- <-. exists value, w, s1. by rewrite <- E3.
  - destruct (code_included e); discriminate.
Qed.

Lemma foldM_rowStep_key scope rawRow rowIndex key : forall ics res s res' s',
  Forall (fun ic : nat * Column => getName ic.2 <> key) ics ->
  foldM (rowStep scope rawRow rowIndex) ics res s = (OK res', s') ->
  obj_get key res' = obj_get key res.
Proof.
  induction ics as [|ic ics IH]; intros res s res' s' Hk H; simpl in H.
  - by injection H as <- <-.
  - apply Forall_cons in Hk as [Hk1 Hk2].
    apply bindM_OK in H as (res1 & s1 & H1 & H).
    apply rowStep_OK in H1 as (value & w & s0 & _ & _ & _ & _ & ->).
    rewrite (IH _ _ _ _ Hk2 H).
    apply SelectFacts.obj_get_set_ne. congruence.
Qed.

Lemma foldM_rowStep_insertId scope rawRow rowIndex : forall ics res s res' s',
  Forall (fun ic : nat * Column => hasAutoIncrement ic.2 = false) ics ->
  foldM (rowStep scope rawRow rowIndex) ics res s = (OK res', s') ->
  st_insertId s' = st_insertId s.
Proof.
  induction ics as [|ic ics IH]; intros res s res' s' Hk H; simpl in H.
  - by injection H as <- <-.
  - apply Forall_cons in Hk as [Hk1 Hk2].
    apply bindM_OK in H as (res1 & s1 & H1 & H).
    rewrite (IH _ _ _ _ Hk2 H).
    unfold Insert.rowStep in H1. rewrite Hk1 in H1.
    apply bindM_OK in H1 as (value & s2 & Hv & H1).
    apply bindM_OK in H1 as ([] & s3 & Hn & H1).
    apply bindM_OK in H1 as ([] & s4 & Hi & H1).
    assert (I1 : st_insertId s2 = st_insertId s).
    { eapply same_id_columnValue; eauto. }
    assert (I2 : st_insertId s3 = st_insertId s2).
    { destruct (is_null value && negb (isNullable ic.2)); [discriminate|].
      by injection Hn as <-. }
    injection Hi as <-.
    assert (I3 : st_insertId s1 = st_insertId s3).
    { unfold try_catch, mbind, M_bind, liveColumn, lift in H1. simpl in H1.
      destruct (cast _ value) as [w|e].
      - by injection H1 as _ <-.
      - destruct (code_included e); discriminate. }
    congruence.
Qed.

(** The last auto-increment column of the fold decides [insertId]: it is
    the value the column was given, and the row holds that value cast. *)
Lemma foldM_rowStep_last scope rawRow rowIndex pre ic post res s res' s' :
  hasAutoIncrement ic.2 = true ->
  Forall (fun ic' : nat * Column => hasAutoIncrement ic'.2 = false) post ->
  foldM (rowStep scope rawRow rowIndex) (pre ++ ic :: post) res s = (OK res', s') ->
  exists s0 s2 s1 w,
    columnValue scope rawRow ic s0 = (OK (st_insertId s'), s2)
    /\ evolves s s1
    /\ cast (live ic s1) (st_insertId s') = OK w
    /\ (Forall (fun ic' : nat * Column => getName ic'.2 <> getName ic.2) post ->
        obj_get (getName ic.2) res' = Some w).
Proof.
  intros Ha Hpost H. rewrite foldM_app in H.
  destruct (foldM (rowStep scope rawRow rowIndex) pre res s) as [[res0|e] s0] eqn:E0;
    [|discriminate].
  pose proof (evolves_row _ _ _ _ _ _ _ _ E0) as Ev0.
  simpl in H. apply bindM_OK in H as (res1 & s1 & H1 & H).
  pose proof (evolves_rowStep _ _ _ _ _ _ _ _ H1) as Ev1.
  apply rowStep_OK in H1 as (value & w & s2 & Hv & _ & Es & Hc & ->).
  rewrite Ha in Es.
  assert (Hid : st_insertId s' = value).
  { rewrite (foldM_rowStep_insertId _ _ _ _ _ _ _ _ Hpost H). by rewrite Es. }
  exists s0, s2, s1, w. split; [by rewrite Hid|].
  split; [eapply evolves_trans; eauto|]. split.
  - by rewrite Hid.
  - intros Hnames. rewrite (foldM_rowStep_key _ _ _ _ _ _ _ _ _ Hnames H).
    apply SelectFacts.obj_get_set_eq.
Qed.

Lemma Forall_imap_snd (Q : Column -> Prop) : forall (l : list Column) (h : nat -> nat),
  Forall Q l -> Forall (fun ic : nat * Column => Q ic.2) (imap (fun i c => (h i, c)) l).
Proof.
  induction l as [|c l IH]; intros h H; [constructor|].
  apply Forall_cons in H as [H1 H2]. rewrite imap_cons. constructor; [done|].
  apply (IH (h ∘ S) H2).
Qed.



Lemma live_same_column s (cds : list Column) i c :
  Forall2 same_column (getColumns (st_table s)) cds ->
  cds !! i = Some c ->
  same_column (live (i, c) s) c.
Proof.
  intros HF Hc. unfold live. simpl.
  destruct (Forall2_lookup_r _ _ _ _ _ HF Hc) as (l & -> & Hl). done.
Qed.

(** The state [process] starts from. *)
Definition start (t : Table) : St :=
  {| st_table := t; st_insertId := VNumber 0; st_affectedRows := 0 |}.

Definition scope_of (t : Table) : list string :=
  map (fun c => table query +:+ "::" +:+ getName c) (getColumns t).

Definition columns_of (t : Table) : list string :=
  default (map getName (getColumns t)) (Insert.columns query).

Lemma processTable_run t :
  processTable t =
  let '(r, st) := forEach (insertValues (getColumns t) (scope_of t) (columns_of t))
                          (values query) 0 (start t) in
  (_ ← r; OK {| affectedRows := st_affectedRows st; insertId := st_insertId st |},
   st_table st).
Proof. reflexivity. Qed.

(** The target table of the query. *)
Definition target : Res Table :=
  db ← getDatabase server (database query); getTable db (table query).

Lemma process_run :
  process server evaluateExpression cast query =
  match target with
  | OK t => let '(r, t') := processTable t in
            (r, putTable server (database query) (table query) t')
  | Throw e => (Throw e, server)
  end.
Proof. reflexivity. Qed.






(** The value row [values], processed from state [s] as row [rowIndex]
    (counted from 0), gets as far as the cast of a column, which throws
    [e]; [s'] is the state then. *)
Definition cast_fails (t : Table) (values : list Expression) (rowIndex : Z)
    (s : St) (e : Exn) (s' : St) : Prop :=
  length values = length (columns_of t)
  /\ exists rawRow s1 done ic rest res s2 value,
       foldM (rawRowStep (scope_of t) (getColumns t)) (zip (columns_of t) values) [] s
         = (OK rawRow, s1)
       /\ indexed (getColumns t) = done ++ ic :: rest
       /\ foldM (rowStep (scope_of t) rawRow rowIndex) done [] s1 = (OK res, s2)
       /\ columnValue (scope_of t) rawRow ic s2 = (OK value, s')
       /\ is_null value && negb (isNullable ic.2) = false
       /\ cast (live ic s') value = Throw e.

Lemma insertValues_cast_failure t values rowIndex s e s' :
  cast_fails t values rowIndex s e s' ->
  code_included e = true ->
  exists s'',
    insertValues (getColumns t) (scope_of t) (columns_of t) values rowIndex s
    = (Throw (ProcessorError (exn_message e +:+ " at row " +:+ pretty (rowIndex + 1))), s'')
    /\ st_table s'' = st_table s'.
Proof.
  intros (Hlen & rawRow & s1 & done & ic & rest & res & s2 & value
          & Hraw & Hidx & Hdone & Hval & Hnull & Hcast) Hcode.
  unfold Insert.insertValues. rewrite Hlen, Nat.eqb_refl. simpl.
  rewrite (bindM_run _ _ _ _ _ Hraw), Hidx.
  unfold mbind at 1, M_bind at 1. rewrite foldM_app, Hdone. simpl.
  unfold mbind at 1, M_bind at 1.
  unfold Insert.rowStep. rewrite (bindM_run _ _ _ _ _ Hval), Hnull.
  unfold mbind, M_bind, try_catch, liveColumn, lift, set_insertId, throw. simpl.
  destruct (hasAutoIncrement ic.2); simpl.
  - change (default ic.2 (getColumns (st_table s') !! ic.1)) with (live ic s').
    rewrite Hcast, Hcode. eauto.
  - change (default ic.2 (getColumns (st_table s') !! ic.1)) with (live ic s').
    rewrite Hcast, Hcode. eauto.
Qed.

Lemma cast_fails_evolves t values rowIndex s e s' :
  cast_fails t values rowIndex s e s' -> evolves s s'.
Proof.
  intros (_ & rawRow & s1 & done & ic & rest & res & s2 & value
          & Hraw & _ & Hdone & Hval & _).
  eapply evolves_trans; [eapply evolves_rawRow; eauto|].
  eapply evolves_trans; [eapply evolves_row; eauto|].
  eapply evolves_columnValue; eauto.
Qed.

Lemma process_cast_failure t before vi after s1 e s2 :
  target = OK t ->
  values query = before ++ vi :: after ->
  forEach (insertValues (getColumns t) (scope_of t) (columns_of t)) before 0 (start t)
    = (OK tt, s1) ->
  cast_fails t vi (Z.of_nat (length before)) s1 e s2 ->
  code_included e = true ->
  process server evaluateExpression cast query
  = (Throw (ProcessorError
              (exn_message e +:+ " at row " +:+ pretty (Z.of_nat (length before) + 1))),
     putTable server (database query) (table query) (st_table s2))
  /\ getRows (st_table s2) = getRows (st_table s1)
  /\ (exists new, getRows (st_table s1) = getRows t ++ new /\ length new = length before).
Proof.
  intros Ht Hv Hbefore Hfail Hcode.
  destruct (insertValues_cast_failure _ _ _ _ _ _ Hfail Hcode) as (s'' & Hrun & Htab).
  split; [|split].
  - rewrite process_run, Ht, processTable_run, Hv, forEach_app, Hbefore. simpl.
    rewrite Z.add_0_l, (bindM_fail _ _ _ _ _ Hrun). simpl. by rewrite Htab.
  - by destruct (cast_fails_evolves _ _ _ _ _ _ Hfail) as (R & _).
  - by destruct (forEach_inserted _ _ _ _ _ _ _ Hbefore) as (N & _).
Qed.




End Frames.

(** [CREATE TABLE t (id INT UNSIGNED AUTO_INCREMENT, name VARCHAR(3) NOT NULL)]. *)
Definition id_column : Column := mkColumn "id" true None (IntegerColumn 32 true true 0).
Definition name_column : Column := mkColumn "name" false None (VarcharColumn 3).
Definition table_t : Table :=
  {| getColumns := [id_column; name_column]; getRows := [] |}.

Definition server_t : Server := SelectFacts.server_with "t" table_t.

(** [INSERT INTO t (name) VALUES ('ok'), ('toolong')]. *)
Definition insert_ok_toolong : InsertQuery :=
  {| database := None; table := "t"; columns := Some ["name"];
     values := [[StringE "ok"]; [StringE "toolong"]] |}.

(** The rows of the target table of a query in a server. *)
Definition rows_of (server : Server) (query : InsertQuery) : Res (list Row) :=
  t ← target server query; OK (getRows t).

(** C2. When the rows before row [i] (counted from 1) are inserted and row
    [i] gets as far as a cast that throws with code [OUT_OF_RANGE_VALUE] or
    [INCORRECT_INTEGER_VALUE], the INSERT throws a [ProcessorError] whose
    message is the message of the cast followed by [ at row i]; the rows
    after it are not looked at, and the table holds the rows it held
    before row [i], which are its old rows and one row for each value row
    before [i]. On [t (id INT UNSIGNED AUTO_INCREMENT, name VARCHAR(3) NOT
    NULL)], inserting ['ok'] and ['toolong'] leaves the one row
    [id = 1, name = 'ok'] and throws a message that ends in [ at row 2]. *)
Theorem insert_cast_failure :
  (forall server evaluateExpression cast query t before vi after s1 e s2,
     target server query = OK t ->
     values query = before ++ vi :: after ->
     forEach (insertValues server evaluateExpression cast query
                (getColumns t) (scope_of query t) (columns_of query t))
             before 0 (start t) = (OK tt, s1) ->
     cast_fails server evaluateExpression cast query t vi
                (Z.of_nat (length before)) s1 e s2 ->
     (exn_code e = Some "OUT_OF_RANGE_VALUE" \/ exn_code e = Some "INCORRECT_INTEGER_VALUE") ->
     process server evaluateExpression cast query
     = (Throw (ProcessorError
                 (exn_message e +:+ " at row " +:+ pretty (Z.of_nat (length before) + 1))),
        putTable server (database query) (table query) (st_table s2))
     /\ getRows (st_table s2) = getRows (st_table s1)
     /\ (exists new, getRows (st_table s1) = getRows t ++ new
                     /\ length new = length before))
  /\ (exists m server',
        Spec.insert server_t insert_ok_toolong
        = (Throw (ProcessorError (m +:+ " at row 2")), server')
        /\ rows_of server' insert_ok_toolong
           = OK [[("id", VNumber 1); ("name", VString "ok")]]).
Proof.
  split.
  - intros server evaluateExpression cast query t before vi after s1 e s2
           Ht Hv Hbefore Hfail Hcode.
    eapply process_cast_failure; eauto.
    unfold code_included. by destruct Hcode as [-> | ->].
  - exists "Out of range value for column 'name'". eexists. split.
    + vm_compute. reflexivity.
    + vm_compute. reflexivity.
Qed.

Lemma insert_cast_failure_witness :
  (Spec.insert server_t insert_ok_toolong).1
  = Throw (ProcessorError "Out of range value for column 'name' at row 2").
Proof.
  destruct insert_cast_failure as [General _].
  edestruct (General server_t Spec.insertEvaluator Spec.cast insert_ok_toolong table_t
               [[StringE "ok"]] [StringE "toolong"] [])
    as (Hrun & _).
  - reflexivity.
  - reflexivity.
  - vm_compute. reflexivity.
  - split; [reflexivity|].
    eexists _, _, [(0%nat, id_column)], (1%nat, name_column), [], _, _, _.
    split; [vm_compute; reflexivity|]. split; [reflexivity|].
    split; [vm_compute; reflexivity|]. split; [vm_compute; reflexivity|].
    split; [reflexivity|]. vm_compute. reflexivity.
  - left. reflexivity.
  - unfold Spec.insert. rewrite Hrun. reflexivity.
Defined.











End InsertFacts.

(** * More of the SELECT pipeline: joins, WHERE and the errors of FROM *)

Module SelectMore.

Import Select SelectFacts.

(** The merged rows of one left row that satisfy the [on] condition. *)
Definition matching (ev : Evaluator) (on : option Expression) (rowA : Row)
    (rowsB : list Row) : list Row :=
  List.filter (on_holds ev on) (map (spread rowA) rowsB).

Lemma joinGroup_defined ev on rowA rowsB :
  (forall rowB, In rowB rowsB -> on_defined ev on (spread rowA rowB)) ->
  joinGroup ev on rowA rowsB = OK (matching ev on rowA rowsB).
Proof.
  intros H. destruct (joinGroup_total ev on rowA rowsB H) as [g Hg].
  rewrite Hg. f_equal. by apply joinGroup_OK.
Qed.

Lemma foldlM_joinRow_defined ev on rowsB : forall rowsA acc,
  (forall rowA rowB, In rowA rowsA -> In rowB rowsB -> on_defined ev on (spread rowA rowB)) ->
  foldlM (fun res rowA => group ← joinRow ev on None rowA rowsB; OK (res ++ group)) rowsA acc
  = OK (acc ++ concat (map (fun rowA => matching ev on rowA rowsB) rowsA)).
Proof.
  induction rowsA as [|rowA rowsA IH]; intros acc H; cbn [foldlM].
  - simpl. by rewrite app_nil_r.
  - assert (Hr : joinRow ev on None rowA rowsB = OK (matching ev on rowA rowsB)).
    { unfold joinRow. rewrite joinGroup_defined by (intros; apply H; [by left|done]).
      simpl. by destruct (matching ev on rowA rowsB). }
    rewrite Hr. simpl. rewrite IH by (intros; apply H; [by right|done]).
    by rewrite app_assoc.
Qed.

Lemma matching_all ev rowA rowsB : matching ev None rowA rowsB = map (spread rowA) rowsB.
Proof.
  unfold matching. induction (map (spread rowA) rowsB) as [|r l IH]; simpl; [done|].
  by rewrite IH.
Qed.

Lemma length_product {A B} (f : A -> list B) (n : nat) (l : list A) :
  (forall a, length (f a) = n) -> length (concat (map f l)) = (length l * n)%nat.
Proof.
  intros H. induction l as [|a l IH]; simpl; [done|].
  rewrite length_app, H, IH. lia.
Qed.

(** X1. A source joined with a comma ([join = null]) is combined with the
    rows so far as their product: the step returns, whatever the [on]
    field and the evaluator, with every left row merged with every right
    row, left row by left row, [|A| * |B|] rows in all. *)
Theorem comma_join_is_product (server : Server) (ev : Evaluator)
    (sub : SelectQuery -> Res (list Row)) (f : From) (i : nat) (st : State)
    (rs : list Row) (cols : list string) :
  from_join f = None ->
  sourceRows server sub f = OK (rs, cols) ->
  exists st',
    fromStep server ev sub f (S i) st = OK st'
    /\ this_rows st' = concat (map (fun rowA => map (spread rowA) rs) (this_rows st))
    /\ length (this_rows st') = (length (this_rows st) * length rs)%nat
    /\ columns st' = columns st ++ cols.
Proof.
  intros Hj Hs.
  assert (Hstep : fromStep server ev sub f (S i) st =
                  (j ← joinRows ev (this_rows (push_columns cols st)) rs None None;
                   OK (assign_rows j (push_columns cols st)))).
  { unfold fromStep. by rewrite Hs, Hj. }
  rewrite Hstep. unfold joinRows. rewrite this_rows_push.
  rewrite (foldlM_joinRow_defined ev None rs (this_rows st) []) by (intros; exact I).
  simpl. eexists. split; [reflexivity|].
  rewrite this_rows_assign.
  assert (E : map (fun rowA => matching ev None rowA rs) (this_rows st)
              = map (fun rowA => map (spread rowA) rs) (this_rows st)).
  { apply map_ext. intros. apply matching_all. }
  rewrite E. split; [done|]. split; [|done].
  apply length_product. intros. by rewrite length_map.
Qed.

(** X2. An INNER JOIN or CROSS JOIN step whose [on] condition evaluates on
    every merged row returns, left row by left row and in the order of the
    right rows, the merged rows on which the condition is truthy; a left
    row without a match gives no row. *)
Theorem inner_join_keeps_matches (server : Server) (ev : Evaluator)
    (sub : SelectQuery -> Res (list Row)) (f : From) (i : nat) (st : State)
    (rs : list Row) (cols : list string) :
  from_join f = Some "INNER JOIN" \/ from_join f = Some "CROSS JOIN" ->
  sourceRows server sub f = OK (rs, cols) ->
  (forall rowA rowB, In rowA (this_rows st) -> In rowB rs ->
                     on_defined ev (from_on f) (spread rowA rowB)) ->
  exists st',
    fromStep server ev sub f (S i) st = OK st'
    /\ this_rows st'
       = concat (map (fun rowA => List.filter (on_holds ev (from_on f)) (map (spread rowA) rs))
                     (this_rows st))
    /\ (length (this_rows st') <= length (this_rows st) * length rs)%nat.
Proof.
  intros Hj Hs Hdef.
  assert (Hstep : fromStep server ev sub f (S i) st =
                  (j ← joinRows ev (this_rows (push_columns cols st)) rs (from_on f) None;
                   OK (assign_rows j (push_columns cols st)))).
  { unfold fromStep. rewrite Hs. simpl. by destruct Hj as [-> | ->]. }
  rewrite Hstep. unfold joinRows. rewrite this_rows_push.
  rewrite (foldlM_joinRow_defined ev (from_on f) rs (this_rows st) [] Hdef).
  simpl. eexists. split; [reflexivity|]. rewrite this_rows_assign. split; [done|].
  clear Hdef Hstep.
  induction (this_rows st) as [|rowA l IH]; simpl; [lia|].
  rewrite length_app. unfold matching in *.
  pose proof (filter_length (on_holds ev (from_on f)) (map (spread rowA) rs)) as Hf.
  rewrite length_map in Hf. lia.
Qed.

(** What a [catch] of the pipeline makes of a thrown value, by clause. *)
Definition labelled (clause : string) (e : Exn) : Exn :=
  match e with
  | EvaluatorException m => ProcessorException (m +:+ " in '" +:+ clause +:+ "'")
  | _ => e
  end.

Lemma rethrow_Throw {A} clause e : @rethrow_in A clause (Throw e) = Throw (labelled clause e).
Proof. by destruct e. Qed.

Lemma filterM_defined {A} (p : A -> Res bool) (b : A -> bool) (l : list A) :
  (forall a, In a l -> p a = OK (b a)) -> filterM p l = OK (List.filter b l).
Proof.
  induction l as [|a l IH]; intros H; simpl; [done|].
  rewrite (H a) by (by left). simpl. rewrite IH by (intros; apply H; by right).
  simpl. by destruct (b a).
Qed.

Lemma filterM_first_throw {A} (p : A -> Res bool) (pre : list A) a post e :
  (forall x, In x pre -> exists b, p x = OK b) -> p a = Throw e ->
  filterM p (pre ++ a :: post) = Throw e.
Proof.
  induction pre as [|x pre IH]; intros H Ha; simpl.
  - by rewrite Ha.
  - destruct (H x) as [b ->]; [by left|]. simpl.
    rewrite IH; [done| |done]. intros; apply H; by right.
Qed.

(** The test of the WHERE filter on a row. *)
Definition where_test (ev : Evaluator) (w : Expression) (row : Row) : Res bool :=
  v ← evaluateExpression ev w (Some row) None; OK (truthy v).

(** X3. With a WHERE expression that evaluates on every row, the WHERE
    stage returns and keeps, in their order, exactly the rows on which the
    expression is truthy; groups and scope are left alone. Without a WHERE
    expression the state is unchanged. *)
Theorem where_keeps_truthy_rows (ev : Evaluator) (q : SelectQuery) (st : State) :
  (q_where q = None -> applyWhere ev q st = OK st)
  /\ (forall w,
        q_where q = Some w ->
        (forall row, In row (this_rows st) ->
                     exists v, evaluateExpression ev w (Some row) None = OK v) ->
        exists st',
          applyWhere ev q st = OK st'
          /\ this_rows st' = List.filter (on_holds ev (Some w)) (this_rows st)
          /\ (length (this_rows st') <= length (this_rows st))%nat
          /\ groupedRows st' = groupedRows st
          /\ columns st' = columns st).
Proof.
  unfold applyWhere. split; [by intros ->|].
  intros w -> Hdef.
  rewrite (filterM_defined _ (on_holds ev (Some w))).
  - simpl. eexists. split; [reflexivity|]. rewrite this_rows_assign.
    split; [done|]. split; [|done].
    pose proof (filter_length (on_holds ev (Some w)) (this_rows st)). lia.
  - intros row Hin. destruct (Hdef row Hin) as [v Hv]. simpl. by rewrite Hv.
Qed.

(** X4. The first row on which the WHERE expression throws decides: an
    [EvaluatorException] comes out as a [ProcessorException] with
    [ in 'where clause'] after its message, anything else as it was
    thrown; rows after it are not evaluated. *)
Theorem where_error_is_labelled (ev : Evaluator) (q : SelectQuery) (st : State)
    (w : Expression) (pre : list Row) (row : Row) (post : list Row) (e : Exn) :
  q_where q = Some w ->
  this_rows st = pre ++ row :: post ->
  (forall r, In r pre -> exists v, evaluateExpression ev w (Some r) None = OK v) ->
  evaluateExpression ev w (Some row) None = Throw e ->
  applyWhere ev q st
  = Throw (match e with
           | EvaluatorException m => ProcessorException (m +:+ " in 'where clause'")
           | _ => e
           end).
Proof.
  intros Hw Hrows Hpre Hrow. unfold applyWhere. rewrite Hw, Hrows.
  rewrite (filterM_first_throw _ pre row post e).
  - simpl. by destruct e.
  - intros r Hin. destruct (Hpre r Hin) as [v ->]. simpl. eauto.
  - by rewrite Hrow.
Qed.

Lemma joinGroup_first_throw ev e0 rowA pre rowB post e :
  (forall r, In r pre -> exists v, evaluateExpression ev e0 (Some (spread rowA r)) None = OK v) ->
  evaluateExpression ev e0 (Some (spread rowA rowB)) None = Throw e ->
  joinGroup ev (Some e0) rowA (pre ++ rowB :: post) = Throw e.
Proof.
  induction pre as [|r pre IH]; intros H Hb; simpl.
  - by rewrite Hb.
  - destruct (H r) as [v ->]; [by left|]. simpl.
    rewrite IH; [done| |done]. intros; apply H; by right.
Qed.

(** X5. In a join, left rows are taken in order and, for each, right rows
    in order; the first merged row on which the [on] condition throws
    decides: an [EvaluatorException] comes out as a [ProcessorException]
    with [ in 'on clause'] after its message, anything else as it was
    thrown. The placeholder of a LEFT JOIN plays no part. *)
Theorem on_error_is_labelled (ev : Evaluator) (on : Expression) (ph : option Row)
    (preA : list Row) (rowA : Row) (postA : list Row)
    (rowsB preB : list Row) (rowB : Row) (postB : list Row) (e : Exn) :
  rowsB = preB ++ rowB :: postB ->
  (forall a b, In a preA -> In b rowsB ->
               exists v, evaluateExpression ev on (Some (spread a b)) None = OK v) ->
  (forall b, In b preB ->
             exists v, evaluateExpression ev on (Some (spread rowA b)) None = OK v) ->
  evaluateExpression ev on (Some (spread rowA rowB)) None = Throw e ->
  joinRows ev (preA ++ rowA :: postA) rowsB (Some on) ph
  = Throw (match e with
           | EvaluatorException m => ProcessorException (m +:+ " in 'on clause'")
           | _ => e
           end).
Proof.
  intros HB HpreA HpreB Hthrow. unfold joinRows.
  assert (G : forall acc,
            foldlM (fun res a => group ← joinRow ev (Some on) ph a rowsB; OK (res ++ group))
                   (preA ++ rowA :: postA) acc
            = Throw (labelled "on clause" e)).
  { induction preA as [|a preA IH]; intros acc; cbn [foldlM app].
    - assert (Hr : joinRow ev (Some on) ph rowA rowsB = Throw (labelled "on clause" e)).
      { unfold joinRow. rewrite HB, (joinGroup_first_throw ev on rowA preB rowB postB e HpreB Hthrow).
        simpl. apply rethrow_Throw. }
      by rewrite Hr.
    - destruct (joinGroup_total ev (Some on) a rowsB) as [g Hg].
      { intros b Hb. apply HpreA; [by left|done]. }
      assert (Hr : exists g', joinRow ev (Some on) ph a rowsB = OK g').
      { unfold joinRow. rewrite Hg. simpl. eauto. }
      destruct Hr as [g' ->]. simpl. apply IH.
      intros; apply HpreA; [by right|done]. }
  rewrite G. by destruct e.
Qed.

(** X6. A derived table whose alias is [null] or empty makes FROM throw
    the [SubQueryException] [Every derived table must have its own alias]
    before its sub-query is run, at whatever position and whatever its
    join; the exception is not relabelled, and a query whose first source
    is such a table throws it. *)
Theorem derived_table_needs_alias (server : Server)
    (newEvaluator : Server -> Row -> Evaluator) (hashCode : string -> Z)
    (sortBy : list SortByKey -> Row -> Row -> Res Z)
    (query : SelectQuery) (alias : option string) (join : option string)
    (on : option Expression) :
  truthy_str alias = false ->
  (forall ev sub i st,
     fromStep server ev sub (FromSelect query alias join on) i st
     = Throw (SubQueryException "Every derived table must have its own alias"))
  /\ (forall rest cs w g h o l off d context,
        process server newEvaluator hashCode sortBy
          (mkSelectQuery (FromSelect query alias join on :: rest) cs w g h o l off d) context
        = Throw (SubQueryException "Every derived table must have its own alias")).
Proof.
  intros Ha.
  assert (Hstep : forall ev sub i st,
            fromStep server ev sub (FromSelect query alias join on) i st
            = Throw (SubQueryException "Every derived table must have its own alias")).
  { intros. unfold fromStep. simpl. by rewrite Ha. }
  split; [exact Hstep|].
  intros. simpl. by rewrite Hstep.
Qed.

(** X7. The join of the first source is never looked at. For a later
    source whose rows were fetched, a join other than [CROSS JOIN],
    [INNER JOIN] and [LEFT JOIN] (a [RIGHT JOIN], say) makes FROM throw the
    [ProcessorException] [Unknown "<join>" join type]. *)
Theorem unknown_join_type (server : Server) (ev : Evaluator)
    (sub : SelectQuery -> Res (list Row)) (f : From) (i : nat) (st : State)
    (rs : list Row) (cols : list string) :
  sourceRows server sub f = OK (rs, cols) ->
  fromStep server ev sub f 0 st = OK (assign_rows rs (push_columns cols st))
  /\ (forall join,
        from_join f = Some join ->
        ~ In join ["CROSS JOIN"; "INNER JOIN"; "LEFT JOIN"] ->
        fromStep server ev sub f (S i) st
        = Throw (ProcessorException ("Unknown " +:+ quote +:+ join +:+ quote +:+ " join type"))).
Proof.
  intros Hs. unfold fromStep. rewrite Hs. simpl. split; [done|].
  intros join -> Hnot. simpl in Hnot.
  destruct (String.eqb_spec join "CROSS JOIN") as [->|_]; [tauto|].
  destruct (String.eqb_spec join "INNER JOIN") as [->|_]; [tauto|].
  destruct (String.eqb_spec join "LEFT JOIN") as [->|_]; [tauto|].
  done.
Qed.

(** *** The keys of the rows of FROM *)

(** A key [p::c] whose qualifier [p] is one of [prefixes]. *)
Definition qualified (prefixes : list string) (k : string) : Prop :=
  exists p c, In p prefixes /\ k = p +:+ "::" +:+ c.

(** The qualifier a source gives its keys: its alias, or the name of the
    table when it has none. *)
Definition from_prefix (f : From) : string :=
  match f with
  | FromTable _ table alias _ _ => or_str alias table
  | FromSelect _ alias _ _ => tpl_str alias
  end.

Definition rows_qualified (prefixes : list string) (rs : list Row) : Prop :=
  Forall (fun row : Row => Forall (qualified prefixes) (keys row)) rs.

Lemma qualified_mono P P' k : qualified P k -> qualified (P ++ P') k.
Proof. intros (p & c & Hin & ->). exists p, c. split; [apply in_or_app; by left|done]. Qed.

Lemma qualified_mono_r P P' k : qualified P' k -> qualified (P ++ P') k.
Proof. intros (p & c & Hin & ->). exists p, c. split; [apply in_or_app; by right|done]. Qed.

Lemma keys_obj_set (Q : string -> Prop) k v o :
  Q k -> Forall Q (keys o) -> Forall Q (keys (obj_set k v o)).
Proof.
  intros Hk. induction o as [|[k' v'] o IH]; simpl; intros H.
  - by constructor.
  - apply Forall_cons in H as [H1 H2].
    destruct (String.eqb k k'); [|destruct (precedes k k')]; simpl;
      repeat constructor; auto.
Qed.

Lemma keys_spread (Q : string -> Prop) b : forall a,
  Forall Q (keys a) -> Forall Q (keys b) -> Forall Q (keys (spread a b)).
Proof.
  unfold spread. induction b as [|[k v] b IH]; intros a Ha Hb; simpl; [done|].
  simpl in Hb. apply Forall_cons in Hb as [Hk Hb].
  apply IH; [|done]. by apply keys_obj_set.
Qed.

Lemma keys_mapKeys (Q : string -> Prop) f o :
  (forall k, Q (f k)) -> Forall Q (keys (mapKeys o f)).
Proof.
  intros HQ. unfold mapKeys.
  assert (G : forall acc, Forall Q (keys acc) ->
                Forall Q (keys (fold_left (fun acc kv => obj_set (f kv.1) kv.2 acc) o acc))).
  { induction o as [|[k v] o IH]; intros acc Hacc; simpl; [done|].
    apply IH. by apply keys_obj_set. }
  apply G. constructor.
Qed.

Lemma keys_placeholder (Q : string -> Prop) cols :
  Forall Q cols -> Forall Q (keys (placeholder cols)).
Proof.
  unfold placeholder.
  assert (G : forall acc, Forall Q (keys acc) -> Forall Q cols ->
                Forall Q (keys (fold_left (fun res key => obj_set key VNull res) cols acc))).
  { induction cols as [|k cols IH]; intros acc Hacc Hc; simpl; [done|].
    apply Forall_cons in Hc as [Hk Hc]. apply IH; [|done]. by apply keys_obj_set. }
  apply G. constructor.
Qed.

Lemma joinRows_keys (Q : string -> Prop) ev rowsA rowsB on ph res :
  Forall (fun row : Row => Forall Q (keys row)) rowsA ->
  Forall (fun row : Row => Forall Q (keys row)) rowsB ->
  (forall p, ph = Some p -> Forall Q (keys p)) ->
  joinRows ev rowsA rowsB on ph = OK res ->
  Forall (fun row : Row => Forall Q (keys row)) res.
Proof.
  intros HA HB Hph H. unfold joinRows in H.
  apply joinRows_groups in H as (groups & -> & HF). simpl.
  apply Forall_concat. revert HA.
  induction HF as [|rowA g rowsA groups Hrow HF IH]; intros HA; [constructor|].
  apply Forall_cons in HA as [Ha HA]. constructor; [|by apply IH].
  unfold joinRow in Hrow. apply rethrow_OK in Hrow. bind_inv Hrow.
  apply joinGroup_OK in Ha0. injection Hrow as <-.
  assert (Hm : Forall (fun row : Row => Forall Q (keys row)) a).
  { rewrite Ha0. apply Forall_forall. intros r Hr.
    apply list_elem_of_In, filter_In in Hr as [Hr _].
    apply in_map_iff in Hr as (rowB & <- & Hb).
    apply keys_spread; [done|].
    rewrite Forall_forall in HB. apply HB. by apply list_elem_of_In. }
  destruct a as [|r a]; [|done].
  destruct ph as [p|]; [|done].
  constructor; [|constructor]. apply keys_spread; [done|by apply Hph].
Qed.

Lemma fromStep_joined server ev sub f i st st' :
  fromStep server ev sub f (S i) st = OK st' ->
  exists rs cols on ph j,
    sourceRows server sub f = OK (rs, cols)
    /\ (ph = None \/ ph = Some (placeholder cols))
    /\ joinRows ev (this_rows st) rs on ph = OK j
    /\ st' = assign_rows j (push_columns cols st).
Proof.
  unfold fromStep. intros H. bind_inv H. destruct a as [rs cols].
  exists rs, cols.
  destruct (from_join f) as [join|].
  - repeat (match type of H with
            | (if ?b then _ else _) = _ => destruct b
            end); try discriminate; bind_inv H; injection H as <-;
      rewrite this_rows_push in Ha0; eauto 10.
  - bind_inv H. injection H as <-. rewrite this_rows_push in Ha0. eauto 10.
Qed.

Lemma sourceRows_keys server sub f rs cols :
  sourceRows server sub f = OK (rs, cols) ->
  rows_qualified [from_prefix f] rs /\ Forall (qualified [from_prefix f]) cols.
Proof.
  unfold sourceRows. destruct f as [db t alias j on|q alias j on]; simpl.
  - intros H. bind_inv H. bind_inv H. injection H as <- <-. split.
    + apply Forall_forall. intros row Hr.
      apply list_elem_of_In, in_map_iff in Hr as (r & <- & _).
      apply keys_mapKeys. intros k. exists (or_str alias t), k. split; [by left|done].
    + apply Forall_forall. intros c Hc.
      apply list_elem_of_In, in_map_iff in Hc as (c0 & <- & _).
      exists (or_str alias t), (getName c0). split; [by left|done].
  - destruct (truthy_str alias); simpl; [|discriminate].
    intros H. bind_inv H. injection H as <- <-.
    assert (Hrows : rows_qualified [tpl_str alias]
              (map (fun r => mapKeys r (fun key => tpl_str alias +:+ "::" +:+ key)) a)).
    { apply Forall_forall. intros row Hr.
      apply list_elem_of_In, in_map_iff in Hr as (r & <- & _).
      apply keys_mapKeys. intros k. exists (tpl_str alias), k. split; [by left|done]. }
    split; [done|].
    destruct (map _ a) as [|r0 l]; [constructor|].
    by apply Forall_cons in Hrows as [H0 _].
Qed.

Lemma rows_qualified_mono P P' rs : rows_qualified P rs -> rows_qualified (P ++ P') rs.
Proof.
  intros H. eapply Forall_impl; [exact H|]. intros row Hrow.
  eapply Forall_impl; [exact Hrow|]. intros k. apply qualified_mono.
Qed.

Lemma rows_qualified_mono_r P P' rs : rows_qualified P' rs -> rows_qualified (P ++ P') rs.
Proof.
  intros H. eapply Forall_impl; [exact H|]. intros row Hrow.
  eapply Forall_impl; [exact Hrow|]. intros k. apply qualified_mono_r.
Qed.

Lemma applyFrom_loop_keys server ev sub : forall froms i st st' P,
  applyFrom_loop server ev sub froms i st = OK st' ->
  rows_qualified P (this_rows st) -> Forall (qualified P) (columns st) ->
  rows_qualified (P ++ map from_prefix froms) (this_rows st')
  /\ Forall (qualified (P ++ map from_prefix froms)) (columns st').
Proof.
  induction froms as [|f froms IH]; intros i st st' P H Hrows Hcols; simpl in H.
  - injection H as <-. simpl. rewrite app_nil_r. done.
  - bind_inv H. rename a into st1.
    assert (Hstep : rows_qualified (P ++ [from_prefix f]) (this_rows st1)
                    /\ Forall (qualified (P ++ [from_prefix f])) (columns st1)).
    { destruct i as [|i].
      - unfold fromStep in Ha. bind_inv Ha. destruct a as [rs cols]. injection Ha as <-.
        apply sourceRows_keys in Ha0 as [Hr Hc]. rewrite this_rows_assign. simpl. split.
        + by apply rows_qualified_mono_r.
        + apply Forall_app. split.
          * eapply Forall_impl; [exact Hcols|]. intros k. apply qualified_mono.
          * eapply Forall_impl; [exact Hc|]. intros k. apply qualified_mono_r.
      - apply fromStep_joined in Ha as (rs & cols & on & ph & j & Hs & Hph & Hj & ->).
        apply sourceRows_keys in Hs as [Hr Hc]. rewrite this_rows_assign. simpl. split.
        + eapply (joinRows_keys (qualified (P ++ [from_prefix f]))); [| | |exact Hj].
          * by apply rows_qualified_mono.
          * by apply rows_qualified_mono_r.
          * intros p Hp. destruct Hph as [->| ->]; [discriminate|]. injection Hp as <-.
            apply keys_placeholder.
            eapply Forall_impl; [exact Hc|]. intros k. apply qualified_mono_r.
        + apply Forall_app. split.
          * eapply Forall_impl; [exact Hcols|]. intros k. apply qualified_mono.
          * eapply Forall_impl; [exact Hc|]. intros k. apply qualified_mono_r. }
    destruct Hstep as [Hr1 Hc1].
    destruct (IH _ _ _ _ H Hr1 Hc1) as [Hr2 Hc2].
    simpl. replace (P ++ from_prefix f :: map from_prefix froms)
      with ((P ++ [from_prefix f]) ++ map from_prefix froms) by (by rewrite <- app_assoc).
    done.
Qed.

(** X8. When FROM returns, every key of every row it leaves, and every
    entry of the scope list, has the form [p::c] where [p] is the alias of
    one of the sources, or the name of its table when it has no alias. *)
Theorem from_rows_are_qualified (server : Server) (ev : Evaluator)
    (sub : SelectQuery -> Res (list Row)) (q : SelectQuery) (st' : State) :
  applyFrom server ev sub q init = OK st' ->
  rows_qualified (map from_prefix (q_from q)) (this_rows st')
  /\ Forall (qualified (map from_prefix (q_from q))) (columns st').
Proof.
  unfold applyFrom. intros H.
  apply (applyFrom_loop_keys server ev sub (q_from q) 0 init st' []) in H; [done| |].
  - unfold this_rows, init, deref. simpl. constructor.
  - constructor.
Qed.

(** *** GROUP BY with a list *)

(** The number a row is grouped under: the hash of its GROUP BY values
    joined by ["::"]. *)
Definition rowHash (hashCode : string -> Z) (ev : Evaluator) (groupBy : list Expression)
    (row : Row) : Res Z :=
  vs ← mapM (fun c => evaluateExpression ev c (Some row) None) groupBy;
  OK (hashCode (join "::" vs)).

Definition has_hash (hashCode : string -> Z) (ev : Evaluator) (groupBy : list Expression)
    (h : Z) (row : Row) : bool :=
  match rowHash hashCode ev groupBy row with
  | OK h' => h =? h'
  | Throw _ => false
  end.

(** The numbers of a list without repeats, each where it first occurs. *)
Definition first_seen (hs : list Z) : list Z :=
  fold_left (fun acc h => if existsb (Z.eqb h) acc then acc else acc ++ [h]) hs [].

(** The number of rows in the groups of a state. *)
Definition grouped_count (h : list (list Row)) (groups : list (Z * nat)) : nat :=
  sum_list (map (fun g : Z * nat => length (deref h g.2)) groups).

Lemma existsb_Zeqb h l : existsb (Z.eqb h) l = true <-> In h l.
Proof.
  rewrite existsb_exists. split.
  - intros (x & Hin & Hx). apply Z.eqb_eq in Hx. by subst.
  - intros Hin. exists h. split; [done|apply Z.eqb_refl].
Qed.

Lemma map_get_None k m : map_get k m = None <-> ~ In k (map fst m).
Proof.
  induction m as [|[k' r] m IH]; simpl; [tauto|].
  destruct (Z.eqb_spec k k') as [->|Hne].
  - split; [discriminate|]. intros H. exfalso. apply H. by left.
  - rewrite IH. split; [intros H [E|E]; [congruence|tauto]|tauto].
Qed.

Lemma map_get_Some k m r : map_get k m = Some r -> In (k, r) m.
Proof.
  induction m as [|[k' r'] m IH]; simpl; [discriminate|].
  destruct (Z.eqb_spec k k') as [->|Hne].
  - intros H. injection H as ->. by left.
  - intros H. right. by apply IH.
Qed.

Lemma map_set_keys k r m :
  map fst (map_set k r m)
  = if existsb (Z.eqb k) (map fst m) then map fst m else map fst m ++ [k].
Proof.
  induction m as [|[k' r'] m IH]; simpl; [done|].
  destruct (Z.eqb_spec k k') as [->|Hne]; simpl; [done|].
  rewrite IH. by destruct (existsb (Z.eqb k) (map fst m)).
Qed.

Lemma map_set_entries (P : Z * nat -> Prop) k r m :
  NoDup (map fst m) ->
  P (k, r) -> (forall g, In g m -> g.1 <> k -> P g) ->
  Forall P (map_set k r m).
Proof.
  intros Hnd Hk. induction m as [|[k' r'] m IH]; simpl; intros H.
  - by constructor.
  - simpl in Hnd. apply NoDup_cons in Hnd as [Hnotin Hnd].
    destruct (Z.eqb_spec k k') as [->|Hne].
    + constructor; [done|]. apply Forall_forall. intros g Hg.
      apply list_elem_of_In in Hg. apply H; [by right|].
      intros E. apply Hnotin. apply list_elem_of_In, in_map_iff. exists g. by split.
    + constructor.
      * apply H; [by left|]. simpl. congruence.
      * apply IH; [done|]. intros g Hg. apply H. by right.
Qed.

Lemma grouped_count_app h x groups :
  Forall (fun g : Z * nat => (g.2 < length h)%nat) groups ->
  grouped_count (h ++ [x]) groups = grouped_count h groups.
Proof.
  unfold grouped_count. induction groups as [|g groups IH]; intros H; simpl; [done|].
  apply Forall_cons in H as [Hg H]. rewrite (IH H).
  unfold deref. by rewrite lookup_app_l.
Qed.

Lemma grouped_count_step h k row groups :
  Forall (fun g : Z * nat => (g.2 < length h)%nat) groups ->
  grouped_count
    (h ++ [match map_get k groups with Some r => deref h r | None => [] end ++ [row]])
    (map_set k (length h) groups)
  = S (grouped_count h groups).
Proof.
  induction groups as [|[k' r'] groups IH]; intros H.
  - unfold grouped_count, deref. simpl. by rewrite lookup_app_r, Nat.sub_diag.
  - apply Forall_cons in H as [Hg H]. simpl in Hg. simpl.
    destruct (Z.eqb_spec k k') as [->|Hne].
    + unfold grouped_count. simpl. fold (grouped_count (h ++ [deref h r' ++ [row]]) groups).
      fold (grouped_count h groups).
      rewrite grouped_count_app by done.
      unfold deref at 1. rewrite lookup_app_r, Nat.sub_diag by done. simpl.
      rewrite length_app. simpl. lia.
    + unfold grouped_count. simpl.
      fold (grouped_count
              (h ++ [match map_get k groups with Some r => deref h r | None => [] end ++ [row]])
              (map_set k (length h) groups)).
      fold (grouped_count h groups).
      rewrite IH by done. unfold deref at 1. rewrite lookup_app_l by done.
      fold (deref h r'). lia.
Qed.

Section Grouping.

Variable hashCode : string -> Z.
Variable ev : Evaluator.
Variable groupBy : list Expression.

(** What holds of a state when the rows [done] have been grouped. *)
Definition grouped (done : list Row) (hs : list Z) (st : State) : Prop :=
  Forall2 (fun row h => rowHash hashCode ev groupBy row = OK h) done hs
  /\ map fst (groupedRows st) = first_seen hs
  /\ NoDup (map fst (groupedRows st))
  /\ Forall (fun g : Z * nat =>
               (g.2 < length (heap st))%nat
               /\ deref (heap st) g.2 = List.filter (has_hash hashCode ev groupBy g.1) done
               /\ deref (heap st) g.2 <> [])
            (groupedRows st)
  /\ (forall h, In h hs -> In h (map fst (groupedRows st)))
  /\ grouped_count (heap st) (groupedRows st) = length done.

Lemma first_seen_snoc hs h :
  first_seen (hs ++ [h])
  = if existsb (Z.eqb h) (first_seen hs) then first_seen hs else first_seen hs ++ [h].
Proof. unfold first_seen. by rewrite fold_left_app. Qed.

Lemma filter_none_with_hash done hs h :
  Forall2 (fun row h => rowHash hashCode ev groupBy row = OK h) done hs ->
  ~ In h hs ->
  List.filter (has_hash hashCode ev groupBy h) done = [].
Proof.
  induction 1 as [|row h' done hs Hrow HF IH]; intros Hnot; simpl; [done|].
  unfold has_hash at 1. rewrite Hrow.
  destruct (Z.eqb_spec h h') as [->|Hne].
  - exfalso. apply Hnot. by left.
  - apply IH. intros Hin. apply Hnot. by right.
Qed.

Lemma groupRow_grouped done hs st row st' :
  grouped done hs st ->
  groupRow hashCode ev groupBy st row = OK st' ->
  exists h, grouped (done ++ [row]) (hs ++ [h]) st'
            /\ rows st' = rows st
            /\ (forall r, (r < length (heap st))%nat -> deref (heap st') r = deref (heap st) r).
Proof.
  intros (HF & Hkeys & Hnd & Hgroups & Hcover & Hcount) H.
  unfold groupRow in H. bind_inv H. injection H as <-. simpl.
  set (h := hashCode (join "::" a)).
  assert (Hrow : rowHash hashCode ev groupBy row = OK h).
  { unfold rowHash. by rewrite Ha. }
  assert (Hself : has_hash hashCode ev groupBy h row = true).
  { unfold has_hash. rewrite Hrow. apply Z.eqb_refl. }
  assert (Hother : forall k, k <> h -> has_hash hashCode ev groupBy k row = false).
  { intros k Hk. unfold has_hash. rewrite Hrow. by apply Z.eqb_neq. }
  assert (Hold : match map_get h (groupedRows st) with
                 | Some r => deref (heap st) r
                 | None => []
                 end = List.filter (has_hash hashCode ev groupBy h) done).
  { destruct (map_get h (groupedRows st)) as [r|] eqn:E.
    - apply map_get_Some, list_elem_of_In in E.
      by destruct (proj1 (Forall_forall _ _) Hgroups _ E) as (_ & Hd & _).
    - symmetry. apply (filter_none_with_hash done hs); [done|].
      intros Hin. apply map_get_None in E. by apply E, Hcover. }
  exists h. split; [|split; [done|]].
  - split; [|split; [|split; [|split; [|split]]]]; simpl.
    + apply Forall2_app; [done|]. by constructor.
    + rewrite map_set_keys, first_seen_snoc, <- Hkeys. done.
    + rewrite map_set_keys.
      destruct (existsb (Z.eqb h) (map fst (groupedRows st))) eqn:E; [done|].
      apply NoDup_app. split; [done|]. split; [|apply NoDup_singleton].
      intros x Hx Hx'. apply list_elem_of_In in Hx'. destruct Hx' as [<-|[]].
      assert (existsb (Z.eqb h) (map fst (groupedRows st)) = true)
        by (apply existsb_Zeqb; by apply list_elem_of_In).
      congruence.
    + apply map_set_entries; [done| |].
      * simpl. rewrite length_app. simpl. split; [lia|].
        unfold deref in *. rewrite lookup_app_r, Nat.sub_diag by done. simpl.
        split; [|by destruct (match map_get h (groupedRows st) with Some _ => _ | None => _ end)].
        rewrite List.filter_app. simpl. rewrite Hself. by rewrite Hold.
      * intros g Hg Hne. apply list_elem_of_In in Hg.
        destruct (proj1 (Forall_forall _ _) Hgroups _ Hg) as (Hlt & Hd & Hnonempty).
        rewrite length_app. split; [lia|].
        unfold deref in *. rewrite lookup_app_l by done.
        split; [|done]. rewrite List.filter_app. simpl.
        rewrite (Hother g.1 Hne). by rewrite app_nil_r.
    + intros k Hk. rewrite map_set_keys. apply in_app_or in Hk as [Hk|[<-|[]]].
      * destruct (existsb _ _); [by apply Hcover|]. apply in_or_app. left. by apply Hcover.
      * destruct (existsb (Z.eqb h) (map fst (groupedRows st))) eqn:E.
        -- by apply existsb_Zeqb.
        -- apply in_or_app. right. by left.
    + rewrite grouped_count_step, Hcount, length_app; [simpl; lia|].
      eapply Forall_impl; [exact Hgroups|]. by intros g (Hlt & _).
  - intros r Hr. unfold deref. by rewrite lookup_app_l.
Qed.

Lemma foldlM_groupRow_grouped : forall l done hs st st',
  grouped done hs st ->
  foldlM (groupRow hashCode ev groupBy) l st = OK st' ->
  exists hs', grouped (done ++ l) (hs ++ hs') st'
              /\ rows st' = rows st
              /\ (forall r, (r < length (heap st))%nat -> deref (heap st') r = deref (heap st) r).
Proof.
  induction l as [|row l IH]; intros done hs st st' Hg H; simpl in H.
  - injection H as <-. exists []. by rewrite !app_nil_r.
  - bind_inv H.
    destruct (groupRow_grouped _ _ _ _ _ Hg Ha) as (h & Hg1 & Hr1 & Hd1).
    destruct (IH _ _ _ _ Hg1 H) as (hs' & Hg2 & Hr2 & Hd2).
    exists (h :: hs'). rewrite <- !app_assoc in Hg2. simpl in Hg2.
    split; [done|]. split; [congruence|].
    intros r Hr. rewrite Hd2, Hd1; [done|done|].
    destruct Hg1 as (_ & _ & _ & _ & _ & _).
    unfold groupRow in Ha. bind_inv Ha. injection Ha as <-. simpl.
    rewrite length_app. lia.
Qed.

End Grouping.

(** X9. With a GROUP BY list, on a processor that has no group yet, a
    GROUP BY stage that returns has put every row in exactly one group:
    the group under a number holds, in their order, the rows whose GROUP
    BY values hash to that number; the numbers are distinct and stand in
    the order in which they were first met; no group is empty; the sizes
    of the groups add up to the number of rows; and the rows themselves
    are left as they were. Rows are grouped by the hash alone. *)
Theorem group_by_partitions_rows (hashCode : string -> Z) (ev : Evaluator)
    (q : SelectQuery) (st st' : State) :
  q_groupBy q <> [] ->
  valid st ->
  groupedRows st = [] ->
  applyGroupBy hashCode ev q st = OK st' ->
  exists hs,
    Forall2 (fun row h => rowHash hashCode ev (q_groupBy q) row = OK h) (this_rows st) hs
    /\ map fst (groupedRows st') = first_seen hs
    /\ NoDup (map fst (groupedRows st'))
    /\ Forall (fun g : Z * nat =>
                 deref (heap st') g.2
                 = List.filter (has_hash hashCode ev (q_groupBy q) g.1) (this_rows st)
                 /\ deref (heap st') g.2 <> [])
              (groupedRows st')
    /\ grouped_count (heap st') (groupedRows st') = length (this_rows st)
    /\ this_rows st' = this_rows st.
Proof.
  intros Hgb Hv Hempty H. unfold applyGroupBy in H.
  destruct (q_groupBy q) as [|g0 gs] eqn:E; [done|].
  apply rethrow_OK in H.
  assert (Hstart : grouped hashCode ev (g0 :: gs) [] [] st).
  { unfold grouped. rewrite Hempty. simpl.
    split; [constructor|]. split; [done|]. split; [constructor|].
    split; [constructor|]. split; [tauto|done]. }
  destruct (foldlM_groupRow_grouped _ _ _ _ _ _ _ _ Hstart H) as (hs & Hg & Hr & Hd).
  simpl in Hg. destruct Hg as (HF & Hkeys & Hnd & Hgroups & _ & Hcount).
  exists hs. split; [done|]. split; [done|]. split; [done|]. split; [|split; [done|]].
  - eapply Forall_impl; [exact Hgroups|]. by intros g (_ & ? & ?).
  - unfold this_rows. rewrite Hr. by apply Hd.
Qed.

(** *** The SELECT stage: how many rows, which keys *)

Lemma selectRows_length ev q : forall inputs out,
  selectRows ev q inputs = OK out ->
  (length out <= length inputs)%nat
  /\ (q_having q = Null -> length out = length inputs).
Proof.
  induction inputs as [|[rawRow group] inputs IH]; intros out H; simpl in H.
  - by injection H as <-.
  - bind_inv H. destruct a as [mappedRow rwa]. bind_inv H. bind_inv H. injection H as <-.
    destruct (IH _ Ha1) as [Hle Heq]. split.
    + destruct a; simpl; lia.
    + intros Hh. unfold checkIfKeep in Ha0. rewrite Hh in Ha0. injection Ha0 as <-.
      simpl. by rewrite Heq.
Qed.

Lemma distinctRows_length ks : forall l index,
  (length (distinctRows ks index l) <= length l)%nat.
Proof.
  induction l as [|row l IH]; intros index; simpl; [done|].
  destruct (includes index _); simpl;
    match goal with |- context [distinctRows ks ?i l] => specialize (IH i) end; lia.
Qed.

(** The number of rows SELECT works on: the groups when there are groups,
    else the rows, or the one injected row. *)
Definition select_inputs (q : SelectQuery) (st : State) : nat :=
  match groupedRows st, this_rows st with
  | _ :: _, _ => length (groupedRows st)
  | [], [] => if injectsRow (q_columns q) then 1 else 0
  | [], rs => length rs
  end.

Lemma selectInputs_length q st cols :
  length (selectInputs (push_columns cols (injectRow q st))) = select_inputs q st.
Proof.
  unfold selectInputs, select_inputs.
  assert (G : groupedRows (push_columns cols (injectRow q st)) = groupedRows st).
  { by destruct (injectRow_cases q st) as [->|[-> _]]. }
  rewrite G. destruct (groupedRows st) as [|g gs].
  - rewrite length_map.
    change (this_rows (injectRow q st)) with (this_rows (push_columns cols (injectRow q st))).
    rewrite this_rows_push, injectRow_this_rows.
    destruct (this_rows st) as [|r l]; simpl; [|done].
    by destruct (injectsRow (q_columns q)).
  - by rewrite length_map.
Qed.

(** X10. A SELECT stage that returns gives at most one row per group when
    there are groups, per row when there are rows, and at most the one
    injected row when there is neither; without HAVING and DISTINCT it
    gives exactly that many. *)
Theorem select_output_count (ev : Evaluator) (q : SelectQuery) (st st' : State) :
  applySelectAndHaving ev q st = OK st' ->
  (length (this_rows st') <= select_inputs q st)%nat
  /\ (q_having q = Null -> q_distinct q = false ->
      length (this_rows st') = select_inputs q st).
Proof.
  unfold applySelectAndHaving. intros H. bind_inv H. injection H as <-.
  rewrite this_rows_assign.
  destruct (selectRows_length _ _ _ _ Ha) as [Hle Heq].
  rewrite selectInputs_length in Hle, Heq. split.
  - unfold applyDistinct. destruct (q_distinct q); [|done].
    destruct a as [|r0 l]; [done|].
    pose proof (distinctRows_length (keys r0) (r0 :: l) []). lia.
  - intros Hh Hd. unfold applyDistinct. rewrite Hd. by apply Heq.
Qed.

(** The text DISTINCT compares rows by: the values under the keys [ks],
    joined by ["-"]. *)
Definition distinct_text (ks : list string) (row : Row) : string :=
  join "-" (map (fun key => obj_read key row) ks).

Lemma distinctRows_spec ks : forall l index,
  let out := distinctRows ks index l in
  sublist out l
  /\ NoDup (map (distinct_text ks) out)
  /\ (forall row, In row out -> ~ In (distinct_text ks row) index)
  /\ (forall row, In row l ->
        In (distinct_text ks row) index \/ In (distinct_text ks row) (map (distinct_text ks) out)).
Proof.
  induction l as [|row l IH]; intros index; simpl.
  - split; [constructor|]. split; [constructor|]. split; tauto.
  - fold (distinct_text ks row).
    destruct (includes index (distinct_text ks row)) eqn:E.
    + apply includes_In in E. destruct (IH index) as (Hs & Hn & Hi & Hc).
      split; [by apply sublist_cons|]. split; [done|]. split; [done|].
      intros r [<-|Hr]; [by left|by apply Hc].
    + assert (Hnot : ~ In (distinct_text ks row) index).
      { intros Hin. apply includes_In in Hin. congruence. }
      destruct (IH (distinct_text ks row :: index)) as (Hs & Hn & Hi & Hc).
      split; [by apply sublist_skip|]. split; [|split].
      * simpl. apply NoDup_cons. split; [|done].
        intros Hin. apply list_elem_of_In, in_map_iff in Hin as (r & Hr & Hin).
        apply (Hi r Hin). left. by rewrite Hr.
      * intros r [<-|Hr]; [done|]. intros Hin. apply (Hi r Hr). by right.
      * intros r [<-|Hr]; [right; by left|].
        destruct (Hc r Hr) as [[Heq|Hin]|Hin]; [|by left|right; by right].
        right. left. done.
Qed.

Lemma distinctRows_fixed ks : forall l index,
  NoDup (map (distinct_text ks) l) ->
  (forall row, In row l -> ~ In (distinct_text ks row) index) ->
  distinctRows ks index l = l.
Proof.
  induction l as [|row l IH]; intros index Hnd Hnot; simpl; [done|].
  fold (distinct_text ks row).
  destruct (includes index (distinct_text ks row)) eqn:E.
  - apply includes_In in E. exfalso. apply (Hnot row); [by left|done].
  - simpl in Hnd. apply NoDup_cons in Hnd as [Hfirst Hnd].
    f_equal. apply IH; [done|].
    intros r Hr [Heq|Hin]; [|apply (Hnot r); [by right|done]].
    apply Hfirst. apply list_elem_of_In, in_map_iff. exists r. by split.
Qed.

(** X11. DISTINCT compares rows by the text of their values under the keys
    of the first row, joined by ["-"], and keeps of each text the first
    row that has it: the result is a sub-sequence of the rows that starts
    with the first row, no two of its rows have the same text, the text of
    every row is that of a kept row, and filtering the result again
    changes nothing. Without the flag, and on no row, nothing is done. *)
Theorem distinct_keeps_first_of_each (q : SelectQuery) (l : list Row) :
  (q_distinct q = false -> applyDistinct q l = l)
  /\ (applyDistinct q [] = [])
  /\ (forall r0 rest,
        q_distinct q = true -> l = r0 :: rest ->
        let out := applyDistinct q l in
        sublist out l
        /\ head out = Some r0
        /\ NoDup (map (distinct_text (keys r0)) out)
        /\ (forall row, In row l ->
                        In (distinct_text (keys r0) row) (map (distinct_text (keys r0)) out))
        /\ applyDistinct q out = out).
Proof.
  split; [by unfold applyDistinct; intros ->|]. split; [by unfold applyDistinct; destruct (q_distinct q)|].
  intros r0 rest Hd -> out.
  assert (Hout : out = distinctRows (keys r0) [] (r0 :: rest)).
  { unfold out, applyDistinct. by rewrite Hd. }
  destruct (distinctRows_spec (keys r0) (r0 :: rest) []) as (Hs & Hn & Hi & Hc).
  rewrite <- Hout in Hs, Hn, Hi, Hc.
  assert (Hhead : exists tl, out = r0 :: tl).
  { rewrite Hout. simpl. eauto. }
  destruct Hhead as [tl Htl].
  split; [done|]. split; [by rewrite Htl|]. split; [done|]. split.
  - intros row Hr. by destruct (Hc row Hr) as [[]|].
  - rewrite Htl. unfold applyDistinct. rewrite Hd. rewrite <- Htl.
    apply distinctRows_fixed; [done|]. tauto.
Qed.

(** *** The mapped row and the row HAVING sees *)

Lemma foldlM_app {A B} (f : A -> B -> Res A) (l1 l2 : list B) : forall a,
  foldlM f (l1 ++ l2) a = (a' ← foldlM f l1 a; foldlM f l2 a').
Proof.
  induction l1 as [|b l1 IH]; intros a; simpl; [done|].
  destruct (f a b) as [a'|e]; simpl; [apply IH|done].
Qed.

(** [c.alias || c.column], the key of a column in the mapped row. *)
Definition output_key (c : SelectColumn) : string := or_str (c_alias c) (c_column c).

(** [`::${c.alias}`], the key of an aliased column in the row of HAVING. *)
Definition alias_key (c : SelectColumn) : string := "::" +:+ tpl_str (c_alias c).

(** A column that is no star and has an alias. *)
Definition aliased (c : SelectColumn) : Prop :=
  c_type c <> "star" /\ truthy_str (c_alias c) = true.

Lemma mapColumns_frame ev rawRow group : forall cs res rwa res' rwa',
  foldlM (mapColumn ev rawRow group) cs (res, rwa) = OK (res', rwa') ->
  (forall k, Forall (fun c => c_type c <> "star" /\ output_key c <> k) cs ->
             obj_get k res' = obj_get k res)
  /\ (forall k, Forall (fun c => aliased c -> alias_key c <> k) cs ->
                obj_get k (spread_opt rwa') = obj_get k (spread_opt rwa))
  /\ (Forall (fun c => ~ aliased c) cs -> rwa' = rwa).
Proof.
  induction cs as [|c cs IH]; intros res rwa res' rwa' H; simpl in H.
  - injection H as <- <-. done.
  - bind_inv H. destruct a as [res1 rwa1].
    destruct (IH _ _ _ _ H) as (Hres & Hrwa & Hsame). clear IH H.
    unfold mapColumn in Ha.
    destruct (String.eqb_spec (c_type c) "star") as [Hstar|Hstar].
    + bind_inv Ha. injection Ha as <- <-. split; [|split].
      * intros k Hk. apply Forall_cons in Hk as [[Hk _] _]. contradiction.
      * intros k Hk. apply Forall_cons in Hk as [_ Hk]. by apply Hrwa.
      * intros Hk. apply Forall_cons in Hk as [_ Hk]. by apply Hsame.
    + bind_inv Ha. injection Ha as <- <-. split; [|split].
      * intros k Hk. apply Forall_cons in Hk as [[_ Hne] Hk].
        rewrite (Hres k Hk). apply obj_get_set_ne. intros ->. by apply Hne.
      * intros k Hk. apply Forall_cons in Hk as [Hne Hk].
        rewrite (Hrwa k Hk). destruct (truthy_str (c_alias c)) eqn:E; [|done].
        simpl. apply obj_get_set_ne. intros ->. by apply Hne.
      * intros Hk. apply Forall_cons in Hk as [Hne Hk].
        rewrite (Hsame Hk). destruct (truthy_str (c_alias c)) eqn:E; [|done].
        exfalso. by apply Hne.
Qed.

Lemma mapColumns_split ev rawRow group pre c post acc res rwa :
  foldlM (mapColumn ev rawRow group) (pre ++ c :: post) acc = OK (res, rwa) ->
  exists res0 rwa0 res1 rwa1,
    foldlM (mapColumn ev rawRow group) pre acc = OK (res0, rwa0)
    /\ mapColumn ev rawRow group (res0, rwa0) c = OK (res1, rwa1)
    /\ foldlM (mapColumn ev rawRow group) post (res1, rwa1) = OK (res, rwa).
Proof.
  rewrite foldlM_app. intros H. bind_inv H. destruct a as [res0 rwa0].
  simpl in H. bind_inv H. destruct a as [res1 rwa1]. by exists res0, rwa0, res1, rwa1.
Qed.

(** X12. In the mapped row a column that is no star is found under its
    alias, or under its column name when it has no alias, with the value
    the evaluator gives it on the raw row and the group, as long as no
    later column writes the same key; of two columns with one key the
    later one wins, and a later star may overwrite any key. *)
Theorem select_column_value (ev : Evaluator) (q : SelectQuery) (rawRow : option Row)
    (group : list Row) (row : Row) (rwa : option Row)
    (pre post : list SelectColumn) (c : SelectColumn) :
  mapRow ev q rawRow group = OK (row, rwa) ->
  q_columns q = pre ++ c :: post ->
  c_type c <> "star" ->
  Forall (fun c' => c_type c' <> "star" /\ output_key c' <> output_key c) post ->
  exists value,
    evaluateExpression ev (c_expr c) rawRow (Some group) = OK value
    /\ obj_get (output_key c) row = Some value.
Proof.
  unfold mapRow. intros H Hq Hc Hpost. apply rethrow_OK in H. rewrite Hq in H.
  apply mapColumns_split in H as (res0 & rwa0 & res1 & rwa1 & _ & Hstep & Hrest).
  apply mapColumns_frame in Hrest as (Hres & _ & _).
  unfold mapColumn in Hstep.
  destruct (String.eqb_spec (c_type c) "star") as [Hstar|_]; [contradiction|].
  bind_inv Hstep. injection Hstep as <- <-. exists a. split; [done|].
  rewrite (Hres _ Hpost). apply obj_get_set_eq.
Qed.

(** X13. The row HAVING is evaluated on is the raw row with, for every
    column that has an alias and is no star, the key [::alias] bound to the
    value of that column (the last such column of an alias wins); every
    other key reads as in the raw row, and without an aliased column it is
    the raw row itself, [undefined] for the first row of an empty group. *)
Theorem having_sees_aliases (ev : Evaluator) (q : SelectQuery) (rawRow : option Row)
    (group : list Row) (row : Row) (rwa : option Row) :
  mapRow ev q rawRow group = OK (row, rwa) ->
  (Forall (fun c => ~ aliased c) (q_columns q) -> rwa = rawRow)
  /\ (forall k, Forall (fun c => aliased c -> alias_key c <> k) (q_columns q) ->
                obj_get k (spread_opt rwa) = obj_get k (spread_opt rawRow))
  /\ (forall pre c post,
        q_columns q = pre ++ c :: post ->
        aliased c ->
        Forall (fun c' => aliased c' -> alias_key c' <> alias_key c) post ->
        exists value,
          evaluateExpression ev (c_expr c) rawRow (Some group) = OK value
          /\ obj_get (alias_key c) (spread_opt rwa) = Some value).
Proof.
  unfold mapRow. intros H. apply rethrow_OK in H. split; [|split].
  - intros Hno. by apply mapColumns_frame in H as (_ & _ & ->).
  - intros k Hk. apply mapColumns_frame in H as (_ & Hrwa & _). by apply Hrwa.
  - intros pre c post Hq [Hc Ha] Hpost. rewrite Hq in H.
    apply mapColumns_split in H as (res0 & rwa0 & res1 & rwa1 & _ & Hstep & Hrest).
    apply mapColumns_frame in Hrest as (_ & Hrwa & _).
    unfold mapColumn in Hstep.
    destruct (String.eqb_spec (c_type c) "star") as [Hstar|_]; [contradiction|].
    bind_inv Hstep. injection Hstep as <- <-. exists a. split; [done|].
    rewrite (Hrwa _ Hpost), Ha. simpl. apply obj_get_set_eq.
Qed.

(** *** ORDER BY *)

Lemma sort_insert_perm {A} (cmp : A -> A -> Res Z) x : forall l r,
  sort_insert cmp x l = OK r -> r ≡ₚ x :: l.
Proof.
  induction l as [|y l IH]; intros r H; simpl in H.
  - by injection H as <-.
  - bind_inv H. destruct (a <=? 0).
    + by injection H as <-.
    + bind_inv H. injection H as <-. rewrite (IH _ Ha0). apply Permutation_swap.
Qed.

Lemma array_sort_perm {A} (cmp : A -> A -> Res Z) : forall l s,
  array_sort cmp l = OK s -> s ≡ₚ l.
Proof.
  induction l as [|x l IH]; intros s H; simpl in H.
  - by injection H as <-.
  - bind_inv H. apply sort_insert_perm in H. rewrite H. by rewrite (IH _ Ha).
Qed.

Lemma array_sort_short {A} (cmp : A -> A -> Res Z) l :
  (length l <= 1)%nat -> array_sort cmp l = OK l.
Proof. destruct l as [|x [|y l]]; simpl; [done|done|lia]. Qed.

Lemma update_rows_same st : update_rows (this_rows st) st = st.
Proof.
  unfold update_rows, this_rows, deref. destruct st as [h r g c]; simpl. f_equal.
  destruct (h !! r) as [a|] eqn:E; simpl.
  - by apply list_insert_id.
  - apply list_insert_ge. by apply lookup_ge_None.
Qed.

Lemma this_rows_update_perm a st : a ≡ₚ this_rows st -> this_rows (update_rows a st) = a.
Proof.
  intros Hp. destruct (decide (rows st < length (heap st))%nat) as [Hv|Hv].
  - by apply this_rows_update.
  - assert (E : this_rows st = []).
    { unfold this_rows, deref. rewrite (proj2 (lookup_ge_None _ _)); [done|lia]. }
    rewrite E in Hp. apply Permutation_nil_r in Hp. subst a.
    rewrite <- E at 1. by rewrite update_rows_same.
Qed.

(** X14. ORDER BY, when it returns, leaves the same rows in some order and
    the same scope, and the map from group keys to arrays points to the
    same arrays. It writes one array, the array of rows: every other array
    is as it was, and an array a group shares with the rows (the one group
    of an aggregate query without GROUP BY) is read in the sorted order,
    so every group keeps its rows up to their order. On fewer than two
    rows it returns its state as it is, whatever the sort keys, and never
    evaluates them. *)
Theorem order_by_permutes_rows (sortBy : list SortByKey -> Row -> Row -> Res Z)
    (ev : Evaluator) (q : SelectQuery) (st : State) :
  ((length (this_rows st) <= 1)%nat -> applyOrderBy sortBy ev q st = OK st)
  /\ (forall st',
        applyOrderBy sortBy ev q st = OK st' ->
        this_rows st' ≡ₚ this_rows st
        /\ length (this_rows st') = length (this_rows st)
        /\ rows st' = rows st
        /\ groupedRows st' = groupedRows st
        /\ columns st' = columns st
        /\ length (heap st') = length (heap st)
        /\ (forall r, r <> rows st -> heap st' !! r = heap st !! r)
        /\ (forall k g, In (k, g) (groupedRows st') ->
                        (g = rows st -> deref (heap st') g = this_rows st')
                        /\ (g <> rows st -> deref (heap st') g = deref (heap st) g)
                        /\ deref (heap st') g ≡ₚ deref (heap st) g)).
Proof.
  unfold applyOrderBy. split.
  - intros Hlen. destruct (q_orderBy q) as [|o os]; [done|].
    rewrite (array_sort_short _ _ Hlen). simpl. by rewrite update_rows_same.
  - intros st' H.
    assert (Hst : exists sorted, sorted ≡ₚ this_rows st /\ st' = update_rows sorted st).
    { destruct (q_orderBy q) as [|o os].
      - injection H as <-. exists (this_rows st). split; [done|].
        symmetry. apply update_rows_same.
      - apply rethrow_OK in H. bind_inv H. injection H as <-.
        apply array_sort_perm in Ha. by exists a. }
    destruct Hst as (sorted & Hp & ->).
    assert (Hrows : this_rows (update_rows sorted st) = sorted)
      by by apply this_rows_update_perm.
    assert (Hne : forall r, r <> rows st ->
                    heap (update_rows sorted st) !! r = heap st !! r).
    { intros r Hr. simpl. by apply list_lookup_insert_ne. }
    rewrite Hrows.
    split; [done|]. split; [by rewrite Hp|]. split; [done|]. split; [done|].
    split; [done|]. split; [simpl; apply length_insert|]. split; [exact Hne|].
    intros k g _. split; [|split].
    + intros ->. exact Hrows.
    + intros Hg. unfold deref. by rewrite (Hne g Hg).
    + destruct (decide (g = rows st)) as [->|Hg].
      * change (this_rows (update_rows sorted st) ≡ₚ this_rows st). by rewrite Hrows.
      * unfold deref. by rewrite (Hne g Hg).
Qed.

(** *** Examples *)

(** The evaluator of the examples, over [t = [{id: 1}, {id: 2}]]. *)
Definition ev_t : Evaluator := Spec.newEvaluator (server_with "t" table_1_2) [].

(** A state whose rows are those of [t] under the alias [a]. *)
Definition rows_a : State :=
  assign_rows [[("a::id", VNumber 1)]; [("a::id", VNumber 2)]] init.

Definition no_sub (q : SelectQuery) : Res (list Row) := OK [].

(** [a.id = b.id]. *)
Definition same_id_on : Expression :=
  BinaryExpressionE "=" (ColumnRefE (Some "a") "id") (ColumnRefE (Some "b") "id").

(** The rows of [t] in its scope. *)
Definition rows_t : State :=
  assign_rows [[("t::id", VNumber 1)]; [("t::id", VNumber 2)]] init.

(** [SELECT count( * ) c, id + 0 x FROM t ORDER BY id DESC]: the one group
    is the array of rows, and it is read in the sorted order afterwards. *)
Lemma order_by_permutes_rows_witness :
  exists st st',
    applyGroupBy Spec.hashCode ev_t (count_and_id [mkOrderBy (ColumnRefE None "id") DESC]) rows_t
    = OK st
    /\ applyOrderBy Spec.sortBy ev_t (count_and_id [mkOrderBy (ColumnRefE None "id") DESC]) st
       = OK st'
    /\ groupedRows st = [(1, rows st)]
    /\ groupedRows st' = [(1, rows st)]
    /\ deref (heap st) (rows st) = [[("t::id", VNumber 1)]; [("t::id", VNumber 2)]]
    /\ this_rows st' = [[("t::id", VNumber 2)]; [("t::id", VNumber 1)]]
    /\ deref (heap st') (rows st) = this_rows st'.
Proof.
  eexists. eexists. split; [vm_compute; reflexivity|].
  split; [vm_compute; reflexivity|].
  match goal with
  | |- groupedRows ?a = _ /\ groupedRows ?b = _ /\ _ =>
      destruct (order_by_permutes_rows Spec.sortBy ev_t
                  (count_and_id [mkOrderBy (ColumnRefE None "id") DESC]) a) as [_ H];
      destruct (H b ltac:(vm_compute; reflexivity)) as (_ & _ & _ & Hg & _ & _ & _ & Hgroups)
  end.
  split; [reflexivity|]. split; [exact Hg|]. split; [reflexivity|]. split; [reflexivity|].
  exact (proj1 (Hgroups 1 1%nat (or_introl eq_refl)) eq_refl).
Defined.

Lemma comma_join_is_product_witness :
  exists st',
    fromStep (server_with "t" table_1_2) ev_t no_sub (FromTable None "t" (Some "b") None None)
             1 rows_a = OK st'
    /\ length (this_rows st') = 4%nat.
Proof.
  destruct (comma_join_is_product (server_with "t" table_1_2) ev_t no_sub
              (FromTable None "t" (Some "b") None None) 0 rows_a
              [[("b::id", VNumber 1)]; [("b::id", VNumber 2)]] ["b::id"] eq_refl eq_refl)
    as (st' & H & _ & Hl & _).
  exists st'. split; [exact H|exact Hl].
Defined.

Lemma inner_join_keeps_matches_witness :
  exists st',
    fromStep (server_with "t" table_1_2) ev_t no_sub
             (FromTable None "t" (Some "b") (Some "INNER JOIN") (Some same_id_on))
             1 rows_a = OK st'
    /\ this_rows st' = [[("a::id", VNumber 1); ("b::id", VNumber 1)];
                        [("a::id", VNumber 2); ("b::id", VNumber 2)]].
Proof.
  destruct (inner_join_keeps_matches (server_with "t" table_1_2) ev_t no_sub
              (FromTable None "t" (Some "b") (Some "INNER JOIN") (Some same_id_on)) 0 rows_a
              [[("b::id", VNumber 1)]; [("b::id", VNumber 2)]] ["b::id"]
              (or_introl eq_refl) eq_refl)
    as (st' & H & Hr & _).
  - intros rowA rowB [<-|[<-|[]]] [<-|[<-|[]]]; vm_compute; eauto.
  - exists st'. split; [exact H|exact Hr].
Defined.

(** Rows of two tables; [a.id] is unknown on the second. *)
Definition rows_mixed : State :=
  assign_rows [[("a::id", VNumber 1)]; [("b::x", VNumber 2)]] init.

(** [... WHERE a.id]. *)
Definition where_a_id : SelectQuery :=
  mkSelectQuery [] [] (Some (ColumnRefE (Some "a") "id")) [] Null [] 0 0 false.

Lemma where_error_is_labelled_witness :
  applyWhere ev_t where_a_id rows_mixed
  = Throw (ProcessorException "Unknown column 'a.id' in 'where clause'").
Proof.
  apply (where_error_is_labelled ev_t where_a_id rows_mixed (ColumnRefE (Some "a") "id")
           [[("a::id", VNumber 1)]] [("b::x", VNumber 2)] []
           (EvaluatorException "Unknown column 'a.id'")).
  - reflexivity.
  - reflexivity.
  - intros r [<-|[]]. by exists (VNumber 1).
  - reflexivity.
Defined.

Lemma on_error_is_labelled_witness :
  joinRows ev_t [[("a::id", VNumber 1)]; [("a::id", VNumber 2)]]
           [[("b::id", VNumber 1)]; [("c::x", VNumber 1)]]
           (Some (ColumnRefE (Some "b") "id")) None
  = Throw (ProcessorException "Unknown column 'b.id' in 'on clause'").
Proof.
  apply (on_error_is_labelled ev_t (ColumnRefE (Some "b") "id") None
           [] [("a::id", VNumber 1)] [[("a::id", VNumber 2)]]
           [[("b::id", VNumber 1)]; [("c::x", VNumber 1)]]
           [[("b::id", VNumber 1)]] [("c::x", VNumber 1)] []
           (EvaluatorException "Unknown column 'b.id'")).
  - reflexivity.
  - intros a b [].
  - intros b [<-|[]]. by exists (VNumber 1).
  - reflexivity.
Defined.

Lemma derived_table_needs_alias_witness :
  Spec.process (server_with "t" table_1_2)
    (mkSelectQuery [FromSelect (count_by_id []) None None None] [] None [] Null [] 0 0 false)
  = Throw (SubQueryException "Every derived table must have its own alias").
Proof.
  destruct (derived_table_needs_alias (server_with "t" table_1_2)
              Spec.newEvaluator Spec.hashCode Spec.sortBy (count_by_id []) None None None eq_refl)
    as [_ H].
  apply H.
Defined.

Lemma unknown_join_type_witness :
  fromStep (server_with "t" table_1_2) ev_t no_sub
           (FromTable None "t" (Some "b") (Some "RIGHT JOIN") None) 1 rows_a
  = Throw (ProcessorException ("Unknown " +:+ quote +:+ "RIGHT JOIN" +:+ quote +:+ " join type")).
Proof.
  destruct (unknown_join_type (server_with "t" table_1_2) ev_t no_sub
              (FromTable None "t" (Some "b") (Some "RIGHT JOIN") None) 0 rows_a
              [[("b::id", VNumber 1)]; [("b::id", VNumber 2)]] ["b::id"] eq_refl)
    as [_ H].
  apply (H "RIGHT JOIN" eq_refl).
  intros [E|[E|[E|[]]]]; discriminate E.
Defined.

(** [... FROM t a LEFT JOIN t ON a.id = t.id]. *)
Definition from_a_t : SelectQuery :=
  mkSelectQuery
    [FromTable None "t" (Some "a") None None;
     FromTable None "t" None (Some "LEFT JOIN")
       (Some (BinaryExpressionE "=" (ColumnRefE (Some "a") "id") (ColumnRefE (Some "t") "id")))]
    [] None [] Null [] 0 0 false.

Lemma from_rows_are_qualified_witness :
  exists st',
    applyFrom (server_with "t" table_1_2) ev_t no_sub from_a_t init = OK st'
    /\ rows_qualified ["a"; "t"] (this_rows st').
Proof.
  eexists. split; [vm_compute; reflexivity|].
  refine (proj1 (from_rows_are_qualified (server_with "t" table_1_2) ev_t no_sub from_a_t _ _)).
  vm_compute. reflexivity.
Defined.

Lemma group_by_partitions_rows_witness :
  exists st',
    applyGroupBy Spec.hashCode ev_t (count_by_id []) rows_a = OK st'
    /\ NoDup (map fst (groupedRows st'))
    /\ grouped_count (heap st') (groupedRows st') = 2%nat.
Proof.
  eexists. split; [vm_compute; reflexivity|].
  refine (match group_by_partitions_rows Spec.hashCode ev_t (count_by_id []) rows_a _ _ _ _ _ with
          | ex_intro _ hs (conj _ (conj _ (conj Hn (conj _ (conj Hc _))))) => conj Hn Hc
          end).
  - discriminate.
  - apply valid_assign.
  - reflexivity.
  - vm_compute. reflexivity.
Defined.

(** [SELECT 7 x, a.id x]: two columns under one key. *)
Definition two_x : SelectQuery :=
  mkSelectQuery []
    [mkSelectColumn (NumberE 7) "" (Some "x");
     mkSelectColumn (ColumnRefE (Some "a") "id") "id" (Some "x")]
    None [] Null [] 0 0 false.

Lemma select_output_count_witness :
  exists st',
    applySelectAndHaving ev_t two_x rows_a = OK st'
    /\ length (this_rows st') = 2%nat.
Proof.
  eexists. split; [vm_compute; reflexivity|].
  refine (proj2 (select_output_count ev_t two_x rows_a _ _) eq_refl eq_refl).
  vm_compute. reflexivity.
Defined.

Lemma select_column_value_witness :
  exists row rwa,
    mapRow ev_t two_x (Some [("a::id", VNumber 1)]) [] = OK (row, rwa)
    /\ exists value,
         evaluateExpression ev_t (ColumnRefE (Some "a") "id") (Some [("a::id", VNumber 1)]) (Some [])
         = OK value
         /\ obj_get "x" row = Some value.
Proof.
  do 2 eexists. split; [vm_compute; reflexivity|].
  eapply (select_column_value ev_t two_x (Some [("a::id", VNumber 1)]) [] _ _
           [mkSelectColumn (NumberE 7) "" (Some "x")] []
           (mkSelectColumn (ColumnRefE (Some "a") "id") "id" (Some "x"))).
  - vm_compute. reflexivity.
  - reflexivity.
  - intros E. vm_compute in E. discriminate E.
  - constructor.
Defined.

Lemma having_sees_aliases_witness :
  exists row rwa,
    mapRow ev_t two_x (Some [("a::id", VNumber 1)]) [] = OK (row, rwa)
    /\ obj_get "a::id" (spread_opt rwa) = Some (VNumber 1).
Proof.
  do 2 eexists. split; [vm_compute; reflexivity|].
  refine (proj1 (proj2 (having_sees_aliases ev_t two_x (Some [("a::id", VNumber 1)]) [] _ _ _))
            "a::id" _).
  - vm_compute. reflexivity.
  - repeat constructor; intros _ E; vm_compute in E; discriminate E.
Defined.

End SelectMore.

(** ** More of the INSERT processor *)

Module InsertMore.

Import Insert InsertFacts.

Lemma forEach_Throw {B} (f : B -> Z -> M unit) : forall l i s e s',
  forEach f l i s = (Throw e, s') ->
  exists before vi after s1,
    l = before ++ vi :: after
    /\ forEach f before i s = (OK tt, s1)
    /\ f vi (i + Z.of_nat (length before)) s1 = (Throw e, s').
Proof.
  induction l as [|b l IH]; intros i s e s' H; simpl in H.
  - discriminate.
  - apply bindM_Throw in H as [H|(a & s1 & H1 & H2)].
    + exists [], b, l, s. simpl. by rewrite Z.add_0_r.
    + destruct a. apply IH in H2 as (before & vi & after & s2 & -> & Hb & Hf).
      exists (b :: before), vi, after, s2. split; [done|]. split.
      * simpl. by rewrite (bindM_run _ _ _ _ _ H1).
      * rewrite <- Hf. f_equal. simpl length. lia.
Qed.

Section Failures.

Variable server : Server.
Variable evaluateExpression : Server -> list string -> Expression -> Row -> Res Value.
Variable cast : Column -> Value -> Res Value.
Variable query : InsertQuery.

Local Abbreviation evaluate := (evaluate server evaluateExpression query).
Local Abbreviation evaluateDefaultValue := (evaluateDefaultValue server evaluateExpression query).
Local Abbreviation rawRowStep := (rawRowStep server evaluateExpression query).
Local Abbreviation columnValue := (columnValue server evaluateExpression query).
Local Abbreviation rowStep := (rowStep server evaluateExpression cast query).
Local Abbreviation insertValues := (insertValues server evaluateExpression cast query).
Local Abbreviation process := (process server evaluateExpression cast query).
Local Abbreviation target := (target server query).
Local Abbreviation scope_of := (scope_of query).
Local Abbreviation columns_of := (columns_of query).

(** The body of the loop over the value rows of a table [t]. *)
Definition insertInto (t : Table) : list Expression -> Z -> M unit :=
  insertValues (getColumns t) (scope_of t) (columns_of t).

Lemma process_row_failure t before vi after s1 e s2 :
  target = OK t ->
  values query = before ++ vi :: after ->
  forEach (insertInto t) before 0 (start t) = (OK tt, s1) ->
  insertInto t vi (Z.of_nat (length before)) s1 = (Throw e, s2) ->
  process = (Throw e, putTable server (database query) (table query) (st_table s2))
  /\ (exists new, getRows (st_table s2) = getRows t ++ new /\ length new = length before)
  /\ Forall2 same_column (getColumns (st_table s2)) (getColumns t)
  /\ st_affectedRows s2 = Z.of_nat (length before).
Proof.
  unfold insertInto. intros Ht Hv Hbefore Hrun.
  destruct (insertValues_Throw _ _ _ _ _ _ _ _ _ _ _ _ Hrun) as (R & A & C).
  destruct (forEach_inserted _ _ _ _ _ _ _ _ _ _ _ Hbefore) as (N & A1 & C1).
  split; [|split; [|split]].
  - rewrite process_run, Ht, processTable_run, Hv, forEach_app, Hbefore. simpl.
    by rewrite Z.add_0_l, (bindM_fail _ _ _ _ _ Hrun).
  - destruct N as (new & N & L). exists new. by rewrite R.
  - eapply Forall2_trans; [|exact C|exact C1].
    intros x y z Hxy Hyz. eapply same_column_trans; eauto.
  - rewrite A, A1. simpl. lia.
Qed.

(** X15. An INSERT that throws has either failed to find its table, and
    left the server as it was, or failed in one value row: the rows before
    it were inserted, one each and in order after the rows the table had,
    the failing row and the rows after it were not, the counter of affected
    rows stands at the number of rows before it, and the columns of the
    table are as they were up to the counters of auto-increment columns. *)
Theorem insert_failure_keeps_prefix (e : Exn) (server' : Server) :
  process = (Throw e, server') ->
  (target = Throw e /\ server' = server)
  \/ (exists t before vi after s1 s2,
        target = OK t
        /\ values query = before ++ vi :: after
        /\ forEach (insertInto t) before 0 (start t) = (OK tt, s1)
        /\ insertInto t vi (Z.of_nat (length before)) s1 = (Throw e, s2)
        /\ server' = putTable server (database query) (table query) (st_table s2)
        /\ (exists new, getRows (st_table s2) = getRows t ++ new
                        /\ length new = length before)
        /\ (length before < length (values query))%nat
        /\ Forall2 same_column (getColumns (st_table s2)) (getColumns t)
        /\ st_affectedRows s2 = Z.of_nat (length before)).
Proof.
  rewrite process_run. destruct target as [t|e0] eqn:Ht.
  - rewrite processTable_run.
    destruct (forEach _ (values query) 0 (start t)) as [[[]|e1] s2] eqn:Hrun; simpl.
    + discriminate.
    + intros H. injection H as <- <-. right.
      apply forEach_Throw in Hrun as (before & vi & after & s1 & Hv & Hb & Hf).
      rewrite Z.add_0_l in Hf.
      destruct (process_row_failure t before vi after s1 e1 s2 Ht Hv Hb Hf)
        as (_ & N & C & A).
      exists t, before, vi, after, s1, s2.
      repeat (split; [done|]). split; [|done].
      rewrite Hv, length_app. simpl. lia.
  - intros H. injection H as <- <-. by left.
Qed.

(** X16. A value row whose number of values differs from the number of
    target columns, after rows that went in, makes the INSERT throw
    [Column count doesn't match value count at row i] with [i] counted from
    1, before anything of that row is evaluated: the table is exactly as
    the rows before it left it, counters included. *)
Theorem column_count_mismatch (t : Table) (before : list (list Expression))
    (vi : list Expression) (after : list (list Expression)) (s1 : St) :
  target = OK t ->
  values query = before ++ vi :: after ->
  forEach (insertInto t) before 0 (start t) = (OK tt, s1) ->
  length vi <> length (columns_of t) ->
  process
  = (Throw (ProcessorError ("Column count doesn't match value count at row "
                            +:+ pretty (Z.of_nat (length before) + 1))),
     putTable server (database query) (table query) (st_table s1))
  /\ (exists new, getRows (st_table s1) = getRows t ++ new /\ length new = length before).
Proof.
  intros Ht Hv Hb Hlen.
  assert (Hf : insertInto t vi (Z.of_nat (length before)) s1
               = (Throw (ProcessorError ("Column count doesn't match value count at row "
                                         +:+ pretty (Z.of_nat (length before) + 1))), s1)).
  { unfold insertInto, Insert.insertValues.
    by destruct (Nat.eqb_spec (length vi) (length (columns_of t))). }
  destruct (process_row_failure t before vi after s1 _ s1 Ht Hv Hb Hf) as (P & N & _).
  by split.
Qed.

(** A value row gets as far as column [ic]: the raw row was built, and
    the columns before [ic] were cast into [res], which left the state
    [s2]. *)
Definition reaches (t : Table) (values : list Expression) (rowIndex : Z) (s : St)
    (rawRow : Row) (ic : nat * Column) (res : Row) (s2 : St) : Prop :=
  length values = length (columns_of t)
  /\ exists s1 done rest,
       foldM (rawRowStep (scope_of t) (getColumns t)) (zip (columns_of t) values) [] s
         = (OK rawRow, s1)
       /\ indexed (getColumns t) = done ++ ic :: rest
       /\ foldM (rowStep (scope_of t) rawRow rowIndex) done [] s1 = (OK res, s2).

Lemma insertInto_fails_at t values rowIndex s rawRow ic res s2 e s3 :
  reaches t values rowIndex s rawRow ic res s2 ->
  rowStep (scope_of t) rawRow rowIndex res ic s2 = (Throw e, s3) ->
  insertInto t values rowIndex s = (Throw e, s3).
Proof.
  intros (Hlen & s1 & done & rest & Hraw & Hidx & Hdone) Hstep.
  unfold insertInto, Insert.insertValues. rewrite Hlen, Nat.eqb_refl. simpl.
  rewrite (bindM_run _ _ _ _ _ Hraw), Hidx.
  unfold mbind at 1, M_bind at 1. rewrite foldM_app, Hdone. simpl.
  by rewrite (bindM_fail _ _ _ _ _ Hstep).
Qed.

Lemma rowStep_null scope rawRow rowIndex res ic s s' :
  columnValue scope rawRow ic s = (OK VNull, s') ->
  isNullable ic.2 = false ->
  rowStep scope rawRow rowIndex res ic s
  = (Throw (ProcessorError ("Field '" +:+ getName ic.2 +:+ "' doesn't have a default value")),
     s').
Proof.
  intros Hval Hnn. unfold Insert.rowStep.
  rewrite (bindM_run _ _ _ _ _ Hval). simpl. by rewrite Hnn.
Qed.

Lemma rowStep_cast_other scope rawRow rowIndex res ic s value s' e :
  columnValue scope rawRow ic s = (OK value, s') ->
  is_null value && negb (isNullable ic.2) = false ->
  cast (live ic s') value = Throw e ->
  code_included e = false ->
  exists s'',
    rowStep scope rawRow rowIndex res ic s = (Throw e, s'')
    /\ st_table s'' = st_table s'.
Proof.
  intros Hval Hnull Hcast Hcode. unfold Insert.rowStep.
  rewrite (bindM_run _ _ _ _ _ Hval), Hnull.
  unfold mbind, M_bind, try_catch, liveColumn, lift, set_insertId, throw. simpl.
  destruct (hasAutoIncrement ic.2); simpl;
    change (default ic.2 (getColumns (st_table s') !! ic.1)) with (live ic s');
    rewrite Hcast, Hcode; eauto.
Qed.

(** X17. When the value a row has for a column that is not nullable is
    [null] (the value given, or what the default gives for a value that is
    [null] or missing), the INSERT throws [Field 'c' doesn't have a default
    value] before the value is cast or taken as the insert id, and without
    a row number; the rows before that row stay in the table. *)
Theorem not_null_violation (t : Table) (before : list (list Expression))
    (vi : list Expression) (after : list (list Expression)) (s1 : St)
    (rawRow : Row) (ic : nat * Column) (res : Row) (s2 s3 : St) :
  target = OK t ->
  values query = before ++ vi :: after ->
  forEach (insertInto t) before 0 (start t) = (OK tt, s1) ->
  reaches t vi (Z.of_nat (length before)) s1 rawRow ic res s2 ->
  columnValue (scope_of t) rawRow ic s2 = (OK VNull, s3) ->
  isNullable ic.2 = false ->
  process
  = (Throw (ProcessorError ("Field '" +:+ getName ic.2 +:+ "' doesn't have a default value")),
     putTable server (database query) (table query) (st_table s3))
  /\ st_insertId s3 = st_insertId s2
  /\ (exists new, getRows (st_table s3) = getRows t ++ new /\ length new = length before).
Proof.
  intros Ht Hv Hb Hreach Hval Hnn.
  pose proof (rowStep_null (scope_of t) rawRow (Z.of_nat (length before)) res ic s2 s3 Hval Hnn)
    as Hstep.
  pose proof (insertInto_fails_at _ _ _ _ _ _ _ _ _ _ Hreach Hstep) as Hf.
  destruct (process_row_failure t before vi after s1 _ s3 Ht Hv Hb Hf) as (P & N & _).
  split; [done|]. split; [|done].
  change (same_id s2 s3). eapply same_id_columnValue; eauto.
Qed.

(** X18. A cast that fails with anything other than the codes
    [OUT_OF_RANGE_VALUE] and [INCORRECT_INTEGER_VALUE] makes the INSERT
    throw that very exception, with no row number added; the rows before
    the failing row stay in the table. *)
Theorem other_cast_errors_unchanged (t : Table) (before : list (list Expression))
    (vi : list Expression) (after : list (list Expression)) (s1 : St) (e : Exn) (s2 : St) :
  target = OK t ->
  values query = before ++ vi :: after ->
  forEach (insertInto t) before 0 (start t) = (OK tt, s1) ->
  cast_fails server evaluateExpression cast query t vi (Z.of_nat (length before)) s1 e s2 ->
  exn_code e <> Some "OUT_OF_RANGE_VALUE" ->
  exn_code e <> Some "INCORRECT_INTEGER_VALUE" ->
  process = (Throw e, putTable server (database query) (table query) (st_table s2))
  /\ (exists new, getRows (st_table s2) = getRows t ++ new /\ length new = length before).
Proof.
  intros Ht Hv Hb Hfail Hc1 Hc2.
  assert (Hcode : code_included e = false).
  { unfold code_included, cast_codes. destruct (exn_code e) as [c|]; [|done]. simpl.
    destruct (String.eqb_spec c "OUT_OF_RANGE_VALUE") as [->|_]; [by destruct Hc1|].
    destruct (String.eqb_spec c "INCORRECT_INTEGER_VALUE") as [->|_]; [by destruct Hc2|].
    done. }
  destruct Hfail as (Hlen & rawRow & sa & done & ic & rest & res & sb & value
                     & Hraw & Hidx & Hdone & Hval & Hnull & Hcast).
  destruct (rowStep_cast_other (scope_of t) rawRow (Z.of_nat (length before)) res ic
              sb value s2 e Hval Hnull Hcast Hcode) as (s'' & Hstep & Htab).
  assert (Hreach : reaches t vi (Z.of_nat (length before)) s1 rawRow ic res sb).
  { split; [done|]. by exists sa, done, rest. }
  pose proof (insertInto_fails_at _ _ _ _ _ _ _ _ _ _ Hreach Hstep) as Hf.
  destruct (process_row_failure t before vi after s1 _ s'' Ht Hv Hb Hf) as (P & N & _).
  rewrite Htab in P, N. by split.
Qed.

Lemma lookupColumn_None name : forall cs i,
  lookupColumn name cs i = None <-> ~ In name (map getName cs).
Proof.
  induction cs as [|c cs IH]; intros i; simpl; [tauto|].
  destruct (lookupColumn name cs (S i)) as [r|] eqn:E.
  - split; [discriminate|]. intros H. exfalso.
    assert (N : lookupColumn name cs (S i) = None) by (apply IH; tauto). congruence.
  - apply IH in E. destruct (String.eqb_spec name (getName c)) as [->|Hne].
    + split; [discriminate|]. intros H. exfalso. apply H. by left.
    + split; [|done]. intros _ [Heq|Hin]; [by apply Hne|by apply E].
Qed.

Lemma rawRowStep_unknown scope cds res column e s :
  expr_type e = "default" ->
  ~ In column (map getName cds) ->
  rawRowStep scope cds res (column, e) s
  = (Throw (ProcessorError ("Unknown column '" +:+ column +:+ "' in 'field list'")), s).
Proof.
  intros Hdef Hunknown. unfold Insert.rawRowStep. simpl. rewrite Hdef. simpl.
  unfold getColumnDefinition.
  by rewrite (proj2 (lookupColumn_None column cds 0) Hunknown).
Qed.

(** X19. [DEFAULT] given for a name that is no column of the table makes
    the INSERT throw [Unknown column 'c' in 'field list'], once the values
    before it in the row are evaluated; a name that is no column is not
    looked up for any other value. The rows before that row stay in the
    table. *)
Theorem default_for_unknown_column (t : Table) (before : list (list Expression))
    (vi : list Expression) (after : list (list Expression)) (s1 : St)
    (pre : list (string * Expression)) (column : string) (e : Expression)
    (post : list (string * Expression)) (res : Row) (s2 : St) :
  target = OK t ->
  values query = before ++ vi :: after ->
  forEach (insertInto t) before 0 (start t) = (OK tt, s1) ->
  length vi = length (columns_of t) ->
  zip (columns_of t) vi = pre ++ (column, e) :: post ->
  foldM (rawRowStep (scope_of t) (getColumns t)) pre [] s1 = (OK res, s2) ->
  expr_type e = "default" ->
  ~ In column (map getName (getColumns t)) ->
  process
  = (Throw (ProcessorError ("Unknown column '" +:+ column +:+ "' in 'field list'")),
     putTable server (database query) (table query) (st_table s2))
  /\ (exists new, getRows (st_table s2) = getRows t ++ new /\ length new = length before).
Proof.
  intros Ht Hv Hb Hlen Hzip Hpre Hdef Hunknown.
  assert (Hf : insertInto t vi (Z.of_nat (length before)) s1
               = (Throw (ProcessorError ("Unknown column '" +:+ column +:+ "' in 'field list'")),
                  s2)).
  { unfold insertInto, Insert.insertValues. rewrite Hlen, Nat.eqb_refl. simpl.
    rewrite Hzip. unfold mbind at 1, M_bind at 1. rewrite foldM_app, Hpre. simpl.
    by rewrite (bindM_fail _ _ _ _ _
                  (rawRowStep_unknown (scope_of t) (getColumns t) res column e s2 Hdef Hunknown)). }
  destruct (process_row_failure t before vi after s1 _ s2 Ht Hv Hb Hf) as (P & N & _).
  by split.
Qed.

Lemma precedes_no_index k k' : array_index k = None -> precedes k k' = false.
Proof. unfold precedes. by intros ->. Qed.

Lemma keys_obj_set_last k v o :
  array_index k = None -> ~ In k (keys o) -> keys (obj_set k v o) = keys o ++ [k].
Proof.
  intros Hk. induction o as [|[k' v'] o IH]; simpl; intros H; [done|].
  destruct (String.eqb_spec k k') as [->|Hne]; [exfalso; apply H; by left|].
  rewrite (precedes_no_index _ _ Hk). simpl. f_equal. apply IH. tauto.
Qed.

Lemma keys_obj_set_perm k v o : ~ In k (keys o) -> keys (obj_set k v o) ≡ₚ keys o ++ [k].
Proof.
  induction o as [|[k' v'] o IH]; simpl; intros H; [done|].
  destruct (String.eqb_spec k k') as [->|Hne]; [exfalso; apply H; by left|].
  destruct (precedes k k'); simpl.
  - change (k :: k' :: keys o) with ([k] ++ (k' :: keys o)).
    change (k' :: keys o ++ [k]) with ((k' :: keys o) ++ [k]).
    apply Permutation_app_comm.
  - apply Permutation_skip. apply IH. tauto.
Qed.

Lemma foldM_rowStep_keys scope rawRow rowIndex : forall ics res s res' s',
  NoDup (keys res ++ map (fun ic : nat * Column => getName ic.2) ics) ->
  foldM (rowStep scope rawRow rowIndex) ics res s = (OK res', s') ->
  keys res' ≡ₚ keys res ++ map (fun ic : nat * Column => getName ic.2) ics
  /\ (Forall (fun ic : nat * Column => array_index (getName ic.2) = None) ics ->
      keys res' = keys res ++ map (fun ic : nat * Column => getName ic.2) ics).
Proof.
  induction ics as [|ic ics IH]; intros res s res' s' Hnd H; simpl in H.
  - injection H as <- <-. simpl. by rewrite app_nil_r.
  - apply bindM_OK in H as (res1 & s1 & Hstep & H).
    apply rowStep_OK in Hstep as (value & w & s0 & _ & _ & _ & _ & ->).
    assert (Hnew : ~ In (getName ic.2) (keys res)).
    { intros Hin. apply NoDup_app in Hnd as (_ & Hdis & _).
      apply (Hdis (getName ic.2)); [by apply list_elem_of_In|]. simpl. left. }
    pose proof (keys_obj_set_perm (getName ic.2) w res Hnew) as Hp.
    apply IH in H.
    + destruct H as [Hperm Hexact]. split.
      * rewrite Hperm, Hp, <- app_assoc. done.
      * intros Hall. apply Forall_cons in Hall as [Hic Hall].
        rewrite (Hexact Hall), (keys_obj_set_last _ _ _ Hic Hnew), <- app_assoc. done.
    + rewrite Hp, <- app_assoc. done.
Qed.

Lemma imap_names : forall (cds : list Column) (h : nat -> nat),
  map (fun ic : nat * Column => getName ic.2) (imap (fun i c => (h i, c)) cds)
  = map getName cds.
Proof.
  induction cds as [|c cds IH]; intros h; simpl; [done|].
  f_equal. exact (IH (fun i => h (S i))).
Qed.

Lemma indexed_names (cds : list Column) :
  map (fun ic : nat * Column => getName ic.2) (indexed cds) = map getName cds.
Proof. exact (imap_names cds (fun i => i)). Qed.

Lemma forEach_rows (Q : Row -> Prop) cds scope cols :
  (forall rawRow rowIndex s row s',
     foldM (rowStep scope rawRow rowIndex) (indexed cds) [] s = (OK row, s') -> Q row) ->
  forall l i s s',
    forEach (insertValues cds scope cols) l i s = (OK tt, s') ->
    exists new,
      getRows (st_table s') = getRows (st_table s) ++ new
      /\ length new = length l
      /\ Forall Q new.
Proof.
  intros HQ. induction l as [|v l IH]; intros i s s' H; simpl in H.
  - injection H as <-. exists []. by rewrite app_nil_r.
  - apply bindM_OK in H as ([] & s1 & H1 & H).
    apply insertValues_OK in H1 as (_ & rawRow & sa & row & sb & Hraw & Hrow & ->).
    destruct (evolves_rawRow _ _ _ _ _ _ _ _ _ _ Hraw) as (R1 & _).
    destruct (evolves_row _ _ _ _ _ _ _ _ _ _ _ _ Hrow) as (R2 & _).
    apply IH in H as (new & R & L & F).
    exists (row :: new). split; [|split].
    + rewrite R. simpl. rewrite R2, R1, <- app_assoc. done.
    + simpl. by rewrite L.
    + constructor; [|done]. eapply HQ; eauto.
Qed.

(** X20. When the table has no two columns of one name, every row an
    INSERT puts in has as its keys exactly the names of the columns of the
    table, whatever the column list of the query names: a value given
    under a name that is no column of the table is not stored. The keys
    come in the order of the columns when no column name is an array
    index (a name such as [10] is listed before the other names). *)
Theorem inserted_rows_have_table_keys (t : Table) (summary : Summary) (server' : Server) :
  target = OK t ->
  NoDup (map getName (getColumns t)) ->
  process = (OK summary, server') ->
  exists t' new,
    server' = putTable server (database query) (table query) t'
    /\ getRows t' = getRows t ++ new
    /\ length new = length (values query)
    /\ Forall (fun row => NoDup (keys row)
                          /\ forall k, In k (keys row) <-> In k (map getName (getColumns t)))
              new
    /\ (Forall (fun c => array_index (getName c) = None) (getColumns t) ->
        Forall (fun row => keys row = map getName (getColumns t)) new).
Proof.
  intros Ht Hnd. rewrite process_run, Ht, processTable_run.
  destruct (forEach _ (values query) 0 (start t)) as [[[]|e] s'] eqn:Hrun; simpl; [|discriminate].
  intros H. injection H as _ <-.
  eapply (forEach_rows
            (fun row => keys row ≡ₚ map getName (getColumns t)
                        /\ (Forall (fun c => array_index (getName c) = None) (getColumns t) ->
                            keys row = map getName (getColumns t)))) in Hrun
    as (new & R & L & F).
  - exists (st_table s'), new. split; [done|]. split; [done|]. split; [done|]. split.
    + eapply Forall_impl; [exact F|]. intros row [Hp _]. split.
      * by rewrite Hp.
      * intros k. rewrite <- !list_elem_of_In. by rewrite Hp.
    + intros Hall. eapply Forall_impl; [exact F|]. intros row [_ He]. by apply He.
  - intros rawRow rowIndex s row s1 Hrow.
    apply foldM_rowStep_keys in Hrow; [|by simpl; rewrite indexed_names].
    rewrite indexed_names in Hrow. destruct Hrow as [Hp He]. split; [done|].
    intros Hall. apply He.
    exact (Forall_imap_snd (fun c => array_index (getName c) = None) _ (fun i => i) Hall).
Qed.

End Failures.

(** *** Examples *)

Lemma insert_failure_keeps_prefix_witness :
  exists t before vi after s2,
    target server_t insert_ok_toolong = OK t
    /\ values insert_ok_toolong = before ++ vi :: after
    /\ (exists new, getRows (st_table s2) = getRows t ++ new /\ length new = length before)
    /\ (Spec.insert server_t insert_ok_toolong).2 = putTable server_t None "t" (st_table s2).
Proof.
  destruct (insert_failure_keeps_prefix server_t Spec.insertEvaluator Spec.cast insert_ok_toolong
              (ProcessorError "Out of range value for column 'name' at row 2")
              (Spec.insert server_t insert_ok_toolong).2)
    as [[H _]|(t & before & vi & after & s1 & s2 & Ht & Hv & _ & _ & Hs & N & _)].
  - vm_compute. reflexivity.
  - vm_compute in H. discriminate H.
  - exists t, before, vi, after, s2. split; [exact Ht|]. split; [exact Hv|].
    split; [exact N|exact Hs].
Defined.

(** [INSERT INTO t (name) VALUES ('a'), ('b', 'c')]. *)
Definition insert_a_bc : InsertQuery :=
  {| database := None; table := "t"; columns := Some ["name"];
     values := [[StringE "a"]; [StringE "b"; StringE "c"]] |}.

Lemma column_count_mismatch_witness :
  (Spec.insert server_t insert_a_bc).1
  = Throw (ProcessorError "Column count doesn't match value count at row 2")
  /\ rows_of (Spec.insert server_t insert_a_bc).2 insert_a_bc
     = OK [[("id", VNumber 1); ("name", VString "a")]].
Proof.
  edestruct (column_count_mismatch server_t Spec.insertEvaluator Spec.cast insert_a_bc table_t
               [[StringE "a"]] [StringE "b"; StringE "c"] [])
    as (Hrun & _).
  - reflexivity.
  - reflexivity.
  - vm_compute. reflexivity.
  - simpl. lia.
  - unfold Spec.insert. rewrite Hrun. split; vm_compute; reflexivity.
Defined.

(** [INSERT INTO t (id) VALUES (5)]: [name], which is not nullable and has
    no default, is left out. *)
Definition insert_id_only : InsertQuery :=
  {| database := None; table := "t"; columns := Some ["id"]; values := [[NumberE 5]] |}.

Lemma not_null_violation_witness :
  (Spec.insert server_t insert_id_only).1
  = Throw (ProcessorError "Field 'name' doesn't have a default value").
Proof.
  edestruct (not_null_violation server_t Spec.insertEvaluator Spec.cast insert_id_only table_t
               [] [NumberE 5] [] (start table_t))
    as (Hrun & _).
  - reflexivity.
  - reflexivity.
  - reflexivity.
  - instantiate (3 := (1%nat, name_column)). split; [reflexivity|].
    eexists _, [(0%nat, id_column)], [].
    split; [vm_compute; reflexivity|]. split; [reflexivity|]. vm_compute. reflexivity.
  - vm_compute. reflexivity.
  - reflexivity.
  - unfold Spec.insert. rewrite Hrun. reflexivity.
Defined.

(** A table whose column [b] is not nullable and defaults to the value of
    [a], and an INSERT that gives neither. *)
Definition table_ab : Table :=
  {| getColumns := [mkColumn "a" true None (VarcharColumn 3);
                    mkColumn "b" false (Some (ColumnRefE (Some "t") "a")) (VarcharColumn 3)];
     getRows := [] |}.

Definition insert_nothing : InsertQuery :=
  {| database := None; table := "t"; columns := Some []; values := [[]] |}.

Lemma other_cast_errors_unchanged_witness :
  (Spec.insert (SelectFacts.server_with "t" table_ab) insert_nothing).1
  = Throw (ServerError "BAD_NULL" "Column 'b' cannot be null").
Proof.
  edestruct (other_cast_errors_unchanged (SelectFacts.server_with "t" table_ab)
               Spec.insertEvaluator Spec.cast insert_nothing table_ab
               [] [] [] (start table_ab)
               (ServerError "BAD_NULL" "Column 'b' cannot be null"))
    as (Hrun & _).
  - reflexivity.
  - reflexivity.
  - reflexivity.
  - split; [reflexivity|].
    eexists _, _, [(0%nat, mkColumn "a" true None (VarcharColumn 3))],
            (1%nat, mkColumn "b" false (Some (ColumnRefE (Some "t") "a")) (VarcharColumn 3)),
            [], _, _, _.
    split; [vm_compute; reflexivity|]. split; [reflexivity|].
    split; [vm_compute; reflexivity|]. split; [vm_compute; reflexivity|].
    split; [reflexivity|]. vm_compute. reflexivity.
  - discriminate.
  - discriminate.
  - unfold Spec.insert. rewrite Hrun. reflexivity.
Defined.

(** [INSERT INTO t (nope) VALUES (DEFAULT)]. *)
Definition insert_default_nope : InsertQuery :=
  {| database := None; table := "t"; columns := Some ["nope"]; values := [[DefaultE]] |}.

Lemma default_for_unknown_column_witness :
  (Spec.insert server_t insert_default_nope).1
  = Throw (ProcessorError "Unknown column 'nope' in 'field list'").
Proof.
  edestruct (default_for_unknown_column server_t Spec.insertEvaluator Spec.cast
               insert_default_nope table_t [] [DefaultE] [] (start table_t)
               [] "nope" DefaultE [] [] (start table_t)
               eq_refl eq_refl eq_refl eq_refl eq_refl eq_refl eq_refl)
    as (Hrun & _).
  - simpl. intros [E|[E|[]]]; discriminate E.
  - unfold Spec.insert. rewrite Hrun. reflexivity.
Defined.

(** [INSERT INTO t (name, nope) VALUES ('a', 1)]. *)
Definition insert_name_nope : InsertQuery :=
  {| database := None; table := "t"; columns := Some ["name"; "nope"];
     values := [[StringE "a"; NumberE 1]] |}.

Lemma inserted_rows_have_table_keys_witness :
  exists t' new,
    (Spec.insert server_t insert_name_nope).2 = putTable server_t None "t" t'
    /\ getRows t' = new
    /\ length new = 1%nat
    /\ Forall (fun row => keys row = ["id"; "name"]) new.
Proof.
  destruct (inserted_rows_have_table_keys server_t Spec.insertEvaluator Spec.cast
              insert_name_nope table_t
              {| affectedRows := 1; insertId := VNumber 1 |}
              (Spec.insert server_t insert_name_nope).2)
    as (t' & new & Hs & R & L & F).
  - reflexivity.
  - simpl. apply NoDup_cons_2; [|apply NoDup_cons_2; [|apply NoDup_nil_2]].
    + intros H. apply list_elem_of_In in H. destruct H as [E|[]]. discriminate E.
    + intros H. apply list_elem_of_In in H. destruct H.
  - vm_compute. reflexivity.
  - exists t', new. split; [exact Hs|]. split; [exact R|]. split; [exact L|].
    apply (proj2 F). repeat constructor.
Defined.

End InsertMore.

(** ** From the tree to the rows: the parser and the pipeline together *)

Module QueryMore.

Import Select SelectFacts SelectMore.

Lemma limitRows_Forall (Q : Row -> Prop) q l out :
  limitRows q l = OK out -> Forall Q l -> Forall Q out.
Proof.
  unfold limitRows. intros H Hl.
  assert (H1 : Forall Q (if negb (q_offset q =? 0)
                         then filter_index_ge (q_offset q) 0 l else l)).
  { destruct (negb (q_offset q =? 0)); [|done].
    rewrite filter_index_ge_drop. by apply Forall_drop. }
  destruct (_ && _).
  - destruct (q_limit q <? 0); [discriminate|]. injection H as <-. by apply Forall_take.
  - by injection H as <-.
Qed.

Lemma distinctRows_Forall (Q : Row -> Prop) ks : forall l index,
  Forall Q l -> Forall Q (distinctRows ks index l).
Proof.
  induction l as [|row l IH]; intros index H; simpl; [done|].
  apply Forall_cons in H as [H1 H2].
  destruct (includes index _); [by apply IH|]. constructor; [done|by apply IH].
Qed.

Lemma applyDistinct_Forall (Q : Row -> Prop) q l : Forall Q l -> Forall Q (applyDistinct q l).
Proof.
  unfold applyDistinct. destruct (q_distinct q); [|done].
  destruct l as [|r0 l]; [done|]. apply distinctRows_Forall.
Qed.

(** A row the SELECT stage builds and keeps: the mapped row of some raw
    row and group, for which HAVING holds on the row with aliases. *)
Definition mapped_and_kept (ev : Evaluator) (q : SelectQuery) (row : Row) : Prop :=
  exists rawRow group rawRowWithAliases,
    mapRow ev q rawRow group = OK (row, rawRowWithAliases)
    /\ checkIfKeep ev q rawRowWithAliases group = OK true.

Lemma selectRows_mapped ev q : forall inputs out,
  selectRows ev q inputs = OK out -> Forall (mapped_and_kept ev q) out.
Proof.
  induction inputs as [|[rawRow group] inputs IH]; intros out H; simpl in H.
  - injection H as <-. constructor.
  - bind_inv H. destruct a as [mappedRow rwa]. bind_inv H. bind_inv H. injection H as <-.
    destruct a; [|by apply IH].
    constructor; [by exists rawRow, group, rwa|by apply IH].
Qed.

Section Output.

Variable server : Server.
Variable newEvaluator : Server -> Row -> Evaluator.
Variable hashCode : string -> Z.
Variable sortBy : list SortByKey -> Row -> Row -> Res Z.

Lemma afterFrom_mapped ev q st out :
  afterFrom hashCode sortBy ev q st = OK out -> Forall (mapped_and_kept ev q) out.
Proof.
  unfold afterFrom. intros H.
  bind_inv H. bind_inv H. bind_inv H. bind_inv H. rename a2 into st4, Ha2 into Hselect.
  pose proof (applySelectAndHaving_valid _ _ _ _ Hselect) as Hv.
  pose proof (applyLimit_limitRows q st4 Hv) as Hlimit.
  destruct (applyLimit q st4) as [st5|e]; [|discriminate]. simpl in H, Hlimit.
  injection H as <-. symmetry in Hlimit.
  apply (limitRows_Forall _ _ _ _ Hlimit).
  unfold applySelectAndHaving in Hselect. bind_inv Hselect. injection Hselect as <-.
  rewrite this_rows_assign. apply applyDistinct_Forall. by eapply selectRows_mapped.
Qed.

(** X21. Every row [process] returns is a mapped row: the SELECT columns
    evaluated on some raw row and group, for which HAVING held. DISTINCT,
    LIMIT and OFFSET only choose among the mapped rows. *)
Theorem output_rows_are_mapped (q : SelectQuery) (context : Row) (out : list Row) :
  process server newEvaluator hashCode sortBy q context = OK out ->
  Forall (mapped_and_kept (newEvaluator server context) q) out.
Proof.
  intros H. apply process_afterFrom in H as [st H]. by eapply afterFrom_mapped.
Qed.

End Output.

Lemma mapM_OK {A B} (f : A -> Res B) : forall l k,
  mapM f l = OK k -> Forall2 (fun x y => f x = OK y) l k.
Proof.
  induction l as [|x l IH]; intros k H; simpl in H.
  - injection H as <-. constructor.
  - bind_inv H. bind_inv H. injection H as <-. constructor; [done|by apply IH].
Qed.

Lemma mapM_first_throw {A B} (f : A -> Res B) x post e : forall pre ys,
  mapM f pre = OK ys -> f x = Throw e -> mapM f (pre ++ x :: post) = Throw e.
Proof.
  induction pre as [|p pre IH]; intros ys H Hx; simpl in *.
  - by rewrite Hx.
  - bind_inv H. bind_inv H. rewrite Ha. simpl. by rewrite (IH _ Ha0 Hx).
Qed.

Lemma mapColumns_single_key ev rawRow group k : forall cs res rwa res' rwa',
  Forall (fun c => c_type c <> "star" /\ output_key c = k) cs ->
  keys res = [] \/ keys res = [k] ->
  foldlM (mapColumn ev rawRow group) cs (res, rwa) = OK (res', rwa') ->
  keys res' = [k] \/ (cs = [] /\ res' = res).
Proof.
  induction cs as [|c cs IH]; intros res rwa res' rwa' Hcs Hres H; simpl in H.
  - injection H as <- <-. by right.
  - left. apply Forall_cons in Hcs as [[Hstar Hkey] Hcs].
    bind_inv H. destruct a as [res1 rwa1]. unfold mapColumn in Ha.
    destruct (String.eqb_spec (c_type c) "star") as [E|_]; [contradiction|].
    bind_inv Ha. injection Ha as <- <-. fold (output_key c) in H. rewrite Hkey in H.
    assert (Hk : keys (obj_set k a res) = [k]).
    { destruct res as [|[k0 v0] [|kv res]]; simpl in *.
      - done.
      - destruct Hres as [Hres|Hres]; [discriminate|]. injection Hres as ->.
        by rewrite String.eqb_refl.
      - destruct Hres; discriminate. }
    destruct (IH _ _ _ _ Hcs (or_intror Hk) H) as [Hdone|[_ ->]]; done.
Qed.

Section Build.

Import Parser ParserFacts.

Variable build : AstExpr -> list (string * string) -> Res Expression.

(** The alias map [fromAst] builds for a tree. *)
Definition aliases_of (ast : Parser.Select) : list (string * string) :=
  tableAliases (default [] (from ast)).

(** X22. A column whose expression is no column reference, binary
    expression, aggregate or function call (a literal, for one: [SELECT 1])
    makes [fromAst] throw [Error('Could not map columns')], once the FROM
    entries and the columns before it are built. *)
Theorem unmapped_column_type (ast : Parser.Select) (froms : list From)
    (pre : list AstColumn) (expr : AstExpr) (as_ : option string) (post : list AstColumn)
    (cols : list SelectColumn) :
  mapM (buildFrom build (aliases_of ast)) (default [] (from ast)) = OK froms ->
  Parser.columns ast = pre ++ AstExprColumn expr as_ :: post ->
  mapM (buildColumn build (aliases_of ast)) pre = OK cols ->
  ~ In (ast_type expr) ["column_ref"; "binary_expr"; "aggr_func"; "function"] ->
  fromAst build ast = Throw (JsError "Error" "Could not map columns").
Proof.
  intros Hfrom Hcols Hpre Htype. unfold fromAst. fold (aliases_of ast).
  rewrite Hfrom, Hcols. simpl.
  rewrite (mapM_first_throw _ _ _ (JsError "Error" "Could not map columns") _ _ Hpre); [done|].
  destruct expr; simpl in Htype; try (exfalso; tauto); simpl; try done.
  destruct (String.eqb_spec type "binary_expr") as [->|_]; [exfalso; tauto|].
  destruct (String.eqb_spec type "aggr_func") as [->|_]; [exfalso; tauto|].
  destruct (String.eqb_spec type "function") as [->|_]; [exfalso; tauto|].
  done.
Qed.

(** The same query with another [having]. *)
Definition with_having (q : SelectQuery) (having : Slot Expression) : SelectQuery :=
  let 'mkSelectQuery f c w g _ o l off d := q in mkSelectQuery f c w g having o l off d.

Lemma with_having_columns q having : q_columns (with_having q having) = q_columns q.
Proof. by destruct q. Qed.

(** X23. [fromAst] gives a binary expression column the empty column
    name, so when all the columns of a tree are binary expressions without
    an alias, every column of the query built has the empty name and no
    alias, and every row such a query returns, whatever its [having], has
    the one key [''], however many columns there are: the columns
    overwrite each other. This holds for every builder that maps a binary
    expression to a binary expression. *)
Theorem unnamed_expression_columns (ast : Parser.Select) (q : SelectQuery) :
  (forall op l r a x,
     build (AstBinaryExpr op l r) a = OK x -> expr_type x = "binary_expression") ->
  Parser.columns ast <> [] ->
  Forall (fun c => exists op l r, c = AstExprColumn (AstBinaryExpr op l r) None)
         (Parser.columns ast) ->
  fromAst build ast = OK q ->
  length (q_columns q) = length (Parser.columns ast)
  /\ Forall (fun c => c_type c = "binary_expression" /\ c_column c = "" /\ c_alias c = None)
            (q_columns q)
  /\ (forall server newEvaluator hashCode sortBy having context out,
        process server newEvaluator hashCode sortBy (with_having q having) context = OK out ->
        Forall (fun row => keys row = [""]) out).
Proof.
  intros Hbuild Hne Hall Hq.
  assert (Hcols : Forall2 (fun (c : AstColumn) (col : SelectColumn) =>
                             c_type col = "binary_expression"
                             /\ c_column col = "" /\ c_alias col = None)
                          (Parser.columns ast) (q_columns q)).
  { unfold fromAst in Hq. fold (aliases_of ast) in Hq.
    bind_inv Hq. bind_inv Hq. bind_inv Hq. bind_inv Hq. bind_inv Hq.
    destruct (limitOffset (limit ast)) as [l o]. injection Hq as <-. simpl.
    apply mapM_OK in Ha0. clear -Ha0 Hbuild Hall.
    induction Ha0 as [|c col cs cols Hc _ IH]; [constructor|].
    apply Forall_cons in Hall as [(op & l & r & ->) Hall].
    constructor; [|by apply IH].
    simpl in Hc. bind_inv Hc. injection Hc as <-.
    apply Hbuild in Ha. by destruct a. }
  split; [symmetry; by eapply Forall2_length|]. split.
  - clear -Hcols. induction Hcols; constructor; auto.
  - intros server newEvaluator hashCode sortBy having context out H.
    assert (Hkeys : Forall (fun c => c_type c <> "star" /\ output_key c = "")
                           (q_columns (with_having q having))).
    { rewrite with_having_columns. clear -Hcols.
      induction Hcols as [|c col cs cols (Ht & Hc & Ha) _ IH]; constructor; [|exact IH].
      split; [by rewrite Ht|]. unfold output_key. by rewrite Ha, Hc. }
    assert (Hnil : q_columns (with_having q having) <> []).
    { rewrite with_having_columns. intros E. rewrite E in Hcols.
      apply Forall2_length in Hcols. destruct (Parser.columns ast); [done|discriminate]. }
    apply process_afterFrom in H as [st H]. apply afterFrom_mapped in H.
    eapply Forall_impl; [exact H|]. intros row (rawRow & group & rwa & Hmap & _).
    unfold mapRow in Hmap. apply rethrow_OK in Hmap.
    by destruct (mapColumns_single_key _ _ _ "" _ [] _ _ _ Hkeys (or_introl eq_refl) Hmap)
      as [Hk|[Hc _]].
Qed.

End Build.

(** *** Examples *)

Lemma output_rows_are_mapped_witness :
  Forall (mapped_and_kept (Spec.newEvaluator (server_with "t" table_1_2) []) (count_by_id []))
         [[("c", VNumber 1)]; [("c", VNumber 1)]].
Proof.
  apply (output_rows_are_mapped (server_with "t" table_1_2)
           Spec.newEvaluator Spec.hashCode Spec.sortBy (count_by_id []) []).
  vm_compute. reflexivity.
Defined.

(** The tree of [SELECT 1]. *)
Definition select_one : Parser.Select :=
  {| Parser.from := None;
     Parser.columns := [Parser.AstExprColumn (Parser.AstNumber 1) None];
     Parser.where_ := None; Parser.groupby := None; Parser.orderby := None;
     Parser.limit := None |}.

Lemma unmapped_column_type_witness :
  Parser.fromAst ParserFacts.buildExpression select_one
  = Throw (JsError "Error" "Could not map columns").
Proof.
  apply (unmapped_column_type ParserFacts.buildExpression select_one
           [] [] (Parser.AstNumber 1) None [] []).
  - reflexivity.
  - reflexivity.
  - reflexivity.
  - simpl. intros [E|[E|[E|[E|[]]]]]; discriminate E.
Defined.

(** The tree of [SELECT id + 1, id + 2 FROM t]. *)
Definition select_sums : Parser.Select :=
  {| Parser.from := Some [Parser.mkAstFrom None "t" None None None];
     Parser.columns :=
       [Parser.AstExprColumn
          (Parser.AstBinaryExpr "+" (Parser.AstColumnRef None "id") (Parser.AstNumber 1)) None;
        Parser.AstExprColumn
          (Parser.AstBinaryExpr "+" (Parser.AstColumnRef None "id") (Parser.AstNumber 2)) None];
     Parser.where_ := None; Parser.groupby := None; Parser.orderby := None;
     Parser.limit := None |}.

Lemma unnamed_expression_columns_witness :
  exists q,
    Parser.fromAst ParserFacts.buildExpression select_sums = OK q
    /\ Spec.process (server_with "t" table_1_2) (with_having q Null)
       = OK [[("", VNumber 3)]; [("", VNumber 4)]]
    /\ Forall (fun row => keys row = [""]) [[("", VNumber 3)]; [("", VNumber 4)]].
Proof.
  destruct (Parser.fromAst ParserFacts.buildExpression select_sums) as [q|e] eqn:Hq;
    [|vm_compute in Hq; discriminate Hq].
  exists q. split; [reflexivity|].
  pose proof Hq as Hbuilt. vm_compute in Hq. injection Hq as <-.
  assert (Hrun : Spec.process (server_with "t" table_1_2)
                   (with_having
                      (mkSelectQuery [FromTable None "t" None None None]
                         [mkSelectColumn
                            (BinaryExpressionE "+" (ColumnRefE None "id") (NumberE 1)) "" None;
                          mkSelectColumn
                            (BinaryExpressionE "+" (ColumnRefE None "id") (NumberE 2)) "" None]
                         None [] Undefined [] 0 0 false) Null)
                 = OK [[("", VNumber 3)]; [("", VNumber 4)]]) by (vm_compute; reflexivity).
  split; [exact Hrun|].
  refine (proj2 (proj2 (unnamed_expression_columns ParserFacts.buildExpression
                          select_sums _ _ _ _ Hbuilt))
            _ _ _ _ Null [] _ Hrun).
  - intros op l r a x Hx. simpl in Hx.
    destruct (ParserFacts.buildExpression l a); [|discriminate Hx]. simpl in Hx.
    destruct (ParserFacts.buildExpression r a); [|discriminate Hx]. simpl in Hx.
    injection Hx as <-. reflexivity.
  - discriminate.
  - repeat constructor; eexists _, _, _; reflexivity.
Defined.

End QueryMore.

(** ** What the SELECT pipeline never throws *)

Module SelectErrors.

Import Select SelectFacts SelectMore.

Definition is_evaluator_exception (e : Exn) : bool :=
  match e with
  | EvaluatorException _ => true
  | _ => false
  end.

(** A result that is no [EvaluatorException]. *)
Definition contained {A} (r : Res A) : Prop :=
  match r with
  | OK _ => True
  | Throw e => is_evaluator_exception e = false
  end.

Lemma contained_rethrow {A} clause (r : Res A) : contained (rethrow_in clause r).
Proof. by destruct r as [a|[]]. Qed.

Lemma contained_bind {A B} (m : Res A) (f : A -> Res B) :
  contained m -> (forall a, contained (f a)) -> contained (m ≫= f).
Proof. destruct m as [a|e]; simpl; auto. Qed.

Lemma contained_foldlM {A B} (f : A -> B -> Res A) (l : list B) :
  (forall a b, contained (f a b)) -> forall a, contained (foldlM f l a).
Proof.
  intros Hf. induction l as [|b l IH]; intros a; simpl; [done|].
  apply contained_bind; [apply Hf|apply IH].
Qed.

Lemma contained_getDatabase server name : contained (getDatabase server name).
Proof.
  unfold getDatabase. destruct (databaseName server name) as [n|]; [|done].
  by destruct (assoc n (databases server)).
Qed.

Lemma contained_getTable d name : contained (getTable d name).
Proof. unfold getTable. by destruct (assoc name d). Qed.

(** The sub-queries among FROM entries are contained under [sub]. *)
Definition contained_sources (sub : SelectQuery -> Res (list Row)) (froms : list From) : Prop :=
  Forall (fun f => match f with
                   | FromSelect query _ _ _ => contained (sub query)
                   | FromTable _ _ _ _ _ => True
                   end) froms.

Section Stages.

Variable server : Server.
Variable newEvaluator : Server -> Row -> Evaluator.
Variable hashCode : string -> Z.
Variable sortBy : list SortByKey -> Row -> Row -> Res Z.

Lemma contained_joinRows ev rowsA rowsB on ph : contained (joinRows ev rowsA rowsB on ph).
Proof.
  unfold joinRows. apply contained_foldlM. intros res rowA.
  apply contained_bind; [apply contained_rethrow|done].
Qed.

Lemma contained_fromStep ev sub f i st :
  contained_sources sub [f] -> contained (fromStep server ev sub f i st).
Proof.
  intros Hsub. apply Forall_cons in Hsub as [Hsub _].
  unfold fromStep. apply contained_bind.
  - destruct f as [database table alias join on|query alias join on]; simpl.
    + apply contained_bind; [apply contained_getDatabase|]. intros db.
      apply contained_bind; [apply contained_getTable|done].
    + destruct (negb (truthy_str alias)); [done|]. by apply contained_bind.
  - intros [rs cols]. destruct i as [|i]; [done|].
    destruct (from_join f) as [join|].
    + repeat (match goal with
              | |- contained (if ?b then _ else _) => destruct b
              end);
        try done; (apply contained_bind; [apply contained_joinRows|done]).
    + apply contained_bind; [apply contained_joinRows|done].
Qed.

Lemma contained_applyFrom_loop ev sub : forall froms i st,
  contained_sources sub froms -> contained (applyFrom_loop server ev sub froms i st).
Proof.
  induction froms as [|f froms IH]; intros i st Hsub; simpl; [done|].
  apply Forall_cons in Hsub as [Hf Hsub].
  apply contained_bind.
  - apply contained_fromStep. by constructor.
  - intros st'. by apply IH.
Qed.

Lemma contained_selectRows ev q : forall inputs, contained (selectRows ev q inputs).
Proof.
  induction inputs as [|[rawRow group] inputs IH]; simpl; [done|].
  apply contained_bind; [apply contained_rethrow|]. intros [mappedRow rwa].
  apply contained_bind.
  { unfold checkIfKeep. destruct (q_having q); [done|apply contained_rethrow..]. }
  intros keep. by apply contained_bind.
Qed.

Lemma contained_afterFrom ev q st : contained (afterFrom hashCode sortBy ev q st).
Proof.
  unfold afterFrom.
  apply contained_bind.
  { unfold applyWhere. destruct (q_where q); [apply contained_rethrow|done]. }
  intros st1. apply contained_bind.
  { unfold applyGroupBy. destruct (q_groupBy q); [|apply contained_rethrow].
    destruct (negb (hasAggregateFunction (q_columns q))); [done|].
    by destruct (find_column_ref 0 (q_columns q)) as [[]|]. }
  intros st2. apply contained_bind.
  { unfold applyOrderBy. destruct (q_orderBy q); [done|apply contained_rethrow]. }
  intros st3. apply contained_bind.
  { unfold applySelectAndHaving. apply contained_bind; [apply contained_selectRows|done]. }
  intros st4. apply contained_bind; [|done].
  unfold applyLimit.
  destruct (_ && _); [|done]. by destruct (q_limit q <? 0).
Qed.

Lemma contained_process : forall q context,
  contained (process server newEvaluator hashCode sortBy q context).
Proof.
  fix IH 1. intros [froms cs w g h o l off d] context. simpl.
  apply contained_bind; [|intros st; apply contained_afterFrom].
  apply contained_applyFrom_loop.
  induction froms as [|f froms IHf]; constructor; [|exact IHf].
  destruct f as [|query alias join on]; [exact I|]. apply IH.
Qed.

(** X24. [process] never lets an [EvaluatorException] out: whatever the
    evaluator and the comparator throw in the FROM, WHERE, GROUP BY,
    ORDER BY, SELECT and HAVING stages, of this query and of the derived
    tables in it, an [EvaluatorException] reaches the caller only as a
    [ProcessorException]. The lookup of a database or table, the one call
    outside a [try], fails with an error of its own. *)
Theorem no_evaluator_exception_escapes (q : SelectQuery) (context : Row) (e : Exn) :
  process server newEvaluator hashCode sortBy q context = Throw e ->
  is_evaluator_exception e = false.
Proof.
  intros H. pose proof (contained_process q context) as C. by rewrite H in C.
Qed.

End Stages.

(** [SELECT ... FROM t WHERE nope]. *)
Definition where_nope : SelectQuery :=
  mkSelectQuery [FromTable None "t" None None None] []
    (Some (ColumnRefE None "nope")) [] Null [] 0 0 false.

Lemma no_evaluator_exception_escapes_witness :
  Spec.process (server_with "t" table_1_2) where_nope
  = Throw (ProcessorException "Unknown column 'nope' in 'where clause'")
  /\ is_evaluator_exception (ProcessorException "Unknown column 'nope' in 'where clause'")
     = false.
Proof.
  assert (H : Spec.process (server_with "t" table_1_2) where_nope
              = Throw (ProcessorException "Unknown column 'nope' in 'where clause'"))
    by (vm_compute; reflexivity).
  split; [exact H|].
  exact (no_evaluator_exception_escapes (server_with "t" table_1_2)
           Spec.newEvaluator Spec.hashCode Spec.sortBy where_nope [] _ H).
Defined.

End SelectErrors.

(** ** The earlier SELECT processor *)

Module QueryRunnerFacts.

Import QueryRunner.

Lemma filterM_OK {A} (p : A -> Res bool) : forall l out,
  filterM p l = OK out ->
  (forall a, In a l -> exists b, p a = OK b)
  /\ out = List.filter (fun a => match p a with OK b => b | Throw _ => false end) l.
Proof.
  induction l as [|a l IH]; intros out H; simpl in H.
  - injection H as <-. split; [intros a []|done].
  - apply SelectFacts.bind_OK in H as (keep & Hkeep & H).
    apply SelectFacts.bind_OK in H as (rest & Hrest & H). injection H as <-.
    destruct (IH _ Hrest) as [Hall ->]. split.
    + intros x [<-|Hx]; [eauto|by apply Hall].
    + simpl. by rewrite Hkeep.
Qed.

Section Facts.

Variable server : Server.
Variable evaluateExpression : Server -> list string -> Expression -> Row -> Res Value.
Variable evaluateStar : Server -> list string -> Expression -> Row -> Res Row.

Local Abbreviation applyFrom := (applyFrom server).
Local Abbreviation applyWhere := (applyWhere server evaluateExpression).
Local Abbreviation selectColumn := (selectColumn server evaluateExpression evaluateStar).
Local Abbreviation applySelect := (applySelect server evaluateExpression evaluateStar).
Local Abbreviation process := (process server evaluateExpression evaluateStar).

(** The WHERE expression is truthy on a row. *)
Definition where_holds (cols : list string) (w : Expression) (row : Row) : bool :=
  match evaluateExpression server cols w row with
  | OK v => truthy v
  | Throw _ => false
  end.

(** The rows WHERE keeps. *)
Definition kept (q : SelectQuery) (cols : list string) (rows : list Row) : list Row :=
  match where_ q with
  | None => rows
  | Some w => List.filter (where_holds cols w) rows
  end.

(** The rows SELECT maps: the rows kept, or one empty row when none is
    kept and some column is a function. *)
Definition inputs (q : SelectQuery) (cols : list string) (rows : list Row) : list Row :=
  match kept q cols rows with
  | [] => if hasFunctionColumn (columns q) then [[]] else []
  | rs => rs
  end.

(** The mapped row of a row. *)
Definition mappedRow (q : SelectQuery) (cols : list string) (row : Row) : Res Row :=
  foldlM (selectColumn cols row) (columns q) [].

Lemma applyWhere_kept q cols rows out :
  applyWhere q cols rows = OK out -> out = kept q cols rows.
Proof.
  unfold QueryRunner.applyWhere, kept. destruct (where_ q) as [w|]; [|congruence].
  intros H. apply filterM_OK in H as [_ ->]. apply filter_ext. intros row.
  unfold where_holds. by destruct (evaluateExpression server cols w row).
Qed.

Lemma process_mapped q out :
  process q = OK out ->
  exists rows cols,
    applyFrom q = OK (rows, cols)
    /\ Forall2 (fun row o => mappedRow q cols row = OK o) (inputs q cols rows) out.
Proof.
  unfold QueryRunner.process. intros H.
  apply SelectFacts.bind_OK in H as ([rows cols] & Hfrom & H).
  apply SelectFacts.bind_OK in H as (rs & Hwhere & H).
  apply applyWhere_kept in Hwhere. subst rs.
  exists rows, cols. split; [done|].
  unfold QueryRunner.applySelect in H. apply QueryMore.mapM_OK in H.
  unfold inputs. by destruct (kept q cols rows).
Qed.

Lemma length_kept q cols rows : (length (kept q cols rows) <= length rows)%nat.
Proof.
  unfold kept. destruct (where_ q) as [w|]; [|done].
  pose proof (filter_length (where_holds cols w) rows). lia.
Qed.

(** X25. The earlier processor, when it returns, returns one mapped row
    for each row of the table on which WHERE is truthy, in their order;
    when there is none (or no FROM) it returns one row, mapped from the
    empty row, if some column is a function, and no row otherwise, a
    literal column included. *)
Theorem runner_one_row_per_kept_row (q : SelectQuery) (out : list Row) :
  process q = OK out ->
  exists rows cols,
    applyFrom q = OK (rows, cols)
    /\ Forall2 (fun row o => mappedRow q cols row = OK o) (inputs q cols rows) out
    /\ length out = length (inputs q cols rows)
    /\ (kept q cols rows <> [] -> length out = length (kept q cols rows))
    /\ (kept q cols rows = [] ->
        length out = if hasFunctionColumn (columns q) then 1%nat else 0%nat)
    /\ (length out <= Nat.max 1 (length rows))%nat.
Proof.
  intros H. apply process_mapped in H as (rows & cols & Hfrom & Hmap).
  exists rows, cols. split; [done|]. split; [done|].
  pose proof (Forall2_length _ _ _ Hmap) as Hlen. symmetry in Hlen.
  pose proof (length_kept q cols rows) as Hk.
  unfold inputs in *. destruct (kept q cols rows) as [|r rs] eqn:E.
  - split; [done|]. split; [done|]. split.
    + intros _. rewrite Hlen. by destruct (hasFunctionColumn (columns q)).
    + rewrite Hlen. destruct (hasFunctionColumn (columns q)); simpl; lia.
  - split; [done|]. split; [done|]. split; [discriminate|]. rewrite Hlen. lia.
Qed.

Lemma selectColumns_frame cols row : forall cs res out k,
  Forall (fun c => c_type c <> "star" /\ key c <> k) cs ->
  foldlM (selectColumn cols row) cs res = OK out ->
  obj_get k out = obj_get k res.
Proof.
  induction cs as [|c cs IH]; intros res out k Hcs H; simpl in H.
  - by injection H as <-.
  - apply Forall_cons in Hcs as [[Hstar Hk] Hcs].
    apply SelectFacts.bind_OK in H as (res1 & Hstep & H).
    rewrite (IH _ _ _ Hcs H). unfold QueryRunner.selectColumn in Hstep.
    destruct (String.eqb_spec (c_type c) "star") as [E|_]; [contradiction|].
    apply SelectFacts.bind_OK in Hstep as (v & _ & Hstep). injection Hstep as <-.
    apply SelectFacts.obj_get_set_ne. congruence.
Qed.

Lemma mappedRow_value q cols row o pre c post :
  mappedRow q cols row = OK o ->
  columns q = pre ++ c :: post ->
  c_type c <> "star" ->
  Forall (fun c' => c_type c' <> "star" /\ key c' <> key c) post ->
  exists v, evaluateExpression server cols (c_expr c) row = OK v
            /\ obj_get (key c) o = Some v.
Proof.
  unfold mappedRow. intros H Hq Hc Hpost. rewrite Hq, SelectMore.foldlM_app in H.
  apply SelectFacts.bind_OK in H as (res0 & _ & H). simpl in H.
  apply SelectFacts.bind_OK in H as (res1 & Hstep & H).
  rewrite (selectColumns_frame _ _ _ _ _ _ Hpost H).
  unfold QueryRunner.selectColumn in Hstep.
  destruct (String.eqb_spec (c_type c) "star") as [E|_]; [contradiction|].
  apply SelectFacts.bind_OK in Hstep as (v & Hv & Hstep). injection Hstep as <-.
  exists v. split; [done|apply SelectFacts.obj_get_set_eq].
Qed.

(** X26. The earlier processor, when it returns, returns its rows paired
    in order with the rows it mapped (the rows WHERE keeps, or the one
    empty row), and in each returned row a column that is no star is found
    under its key with the value the evaluator gives it on the row paired
    with it, as long as no later column writes that key. The key of a
    function column is its alias, so a function column without an alias is
    found under the key [null]. *)
Theorem runner_column_value (q : SelectQuery) (out : list Row)
    (pre : list SelectColumn) (c : SelectColumn) (post : list SelectColumn) :
  process q = OK out ->
  columns q = pre ++ c :: post ->
  c_type c <> "star" ->
  Forall (fun c' => c_type c' <> "star" /\ key c' <> key c) post ->
  (c_type c = "function" -> c_alias c = None -> key c = "null")
  /\ exists rows cols,
       applyFrom q = OK (rows, cols)
       /\ Forall2 (fun row o => exists v,
                                  evaluateExpression server cols (c_expr c) row = OK v
                                  /\ obj_get (key c) o = Some v)
                  (inputs q cols rows) out.
Proof.
  intros H Hq Hc Hpost. split.
  - intros Hf Ha. unfold key. by rewrite Hf, Ha.
  - apply process_mapped in H as (rows & cols & Hfrom & Hmap). exists rows, cols.
    split; [exact Hfrom|].
    induction Hmap as [|row o rs os Hrow _ IH]; constructor; [|exact IH].
    exact (mappedRow_value _ _ _ _ _ _ _ Hrow Hq Hc Hpost).
Qed.

(** X27. The earlier processor has no [try] around WHERE: the exception
    the evaluator throws on the first row it fails on, an
    [EvaluatorException] included, is the exception of [process]. *)
Theorem runner_where_error_escapes (q : SelectQuery) (w : Expression)
    (pre : list Row) (row : Row) (post : list Row) (cols : list string) (e : Exn) :
  applyFrom q = OK (pre ++ row :: post, cols) ->
  where_ q = Some w ->
  (forall r, In r pre -> exists v, evaluateExpression server cols w r = OK v) ->
  evaluateExpression server cols w row = Throw e ->
  process q = Throw e.
Proof.
  intros Hfrom Hw Hpre Hrow. unfold QueryRunner.process. rewrite Hfrom. simpl.
  unfold QueryRunner.applyWhere. rewrite Hw.
  rewrite (SelectMore.filterM_first_throw _ pre row post e); [done| |by rewrite Hrow].
  intros r Hr. destruct (Hpre r Hr) as [v ->]. simpl. eauto.
Qed.

End Facts.

(** *** Examples *)

(** The star of the modelled evaluator, on a row that is always there. *)
Definition runnerStar (server : Server) (scope : list string) (star : Expression) (row : Row)
    : Res Row :=
  Spec.evaluateStar star (Some row).

Definition runner (server : Server) (q : SelectQuery) : Res (list Row) :=
  process server Spec.insertEvaluator runnerStar q.

(** [SELECT id FROM t WHERE id = 2]. *)
Definition select_id_2 : SelectQuery :=
  {| from := Some (None, "t");
     columns := [mkSelectColumn (ColumnRefE None "id") "id" None];
     where_ := Some (BinaryExpressionE "=" (ColumnRefE None "id") (NumberE 2)) |}.

Lemma runner_one_row_per_kept_row_witness :
  runner (SelectFacts.server_with "t" SelectFacts.table_1_2) select_id_2
  = OK [[("id", VNumber 2)]]
  /\ exists rows cols,
       applyFrom (SelectFacts.server_with "t" SelectFacts.table_1_2) select_id_2
       = OK (rows, cols)
       /\ length rows = 2%nat
       /\ length (kept (SelectFacts.server_with "t" SelectFacts.table_1_2)
                       Spec.insertEvaluator select_id_2 cols rows) = 1%nat.
Proof.
  assert (H : runner (SelectFacts.server_with "t" SelectFacts.table_1_2) select_id_2
              = OK [[("id", VNumber 2)]]) by (vm_compute; reflexivity).
  split; [exact H|].
  destruct (runner_one_row_per_kept_row _ _ _ _ _ H) as (rows & cols & Hfrom & _ & _ & Hk & _).
  exists rows, cols. split; [exact Hfrom|].
  vm_compute in Hfrom. injection Hfrom as <- <-. split; [reflexivity|].
  symmetry. apply Hk. vm_compute. discriminate.
Defined.

(** [SELECT database()], without an alias. *)
Definition database_column : SelectColumn :=
  mkSelectColumn (FunctionE "database" [] false) "database()" None.

Definition select_database_call : SelectQuery :=
  {| from := None; columns := [database_column]; where_ := None |}.

Lemma runner_column_value_witness :
  runner (SelectFacts.server_with "t" SelectFacts.table_1_2) select_database_call
  = OK [[("null", VString "mydb")]]
  /\ key database_column = "null"
  /\ inputs (SelectFacts.server_with "t" SelectFacts.table_1_2) Spec.insertEvaluator
            select_database_call [] [] = [[]]
  /\ exists v,
       Spec.insertEvaluator (SelectFacts.server_with "t" SelectFacts.table_1_2) []
                            (c_expr database_column) [] = OK v
       /\ obj_get (key database_column) [("null", VString "mydb")] = Some v.
Proof.
  assert (H : runner (SelectFacts.server_with "t" SelectFacts.table_1_2) select_database_call
              = OK [[("null", VString "mydb")]]) by (vm_compute; reflexivity).
  split; [exact H|].
  destruct (runner_column_value _ _ _ _ _ [] database_column [] H eq_refl)
    as [Hkey (rows & cols & Hfrom & Hall)].
  - discriminate.
  - constructor.
  - split; [apply Hkey; reflexivity|]. split; [reflexivity|].
    injection Hfrom as <- <-.
    change (inputs (SelectFacts.server_with "t" SelectFacts.table_1_2) Spec.insertEvaluator
                   select_database_call [] []) with [([] : Row)] in Hall.
    apply Forall2_cons_1 in Hall as [Hrow _]. exact Hrow.
Defined.

(** [SELECT id FROM t WHERE nope]. *)
Definition select_where_nope : SelectQuery :=
  {| from := Some (None, "t");
     columns := [mkSelectColumn (ColumnRefE None "id") "id" None];
     where_ := Some (ColumnRefE None "nope") |}.

Lemma runner_where_error_escapes_witness :
  runner (SelectFacts.server_with "t" SelectFacts.table_1_2) select_where_nope
  = Throw (EvaluatorException "Unknown column 'nope'").
Proof.
  apply (runner_where_error_escapes _ _ _ select_where_nope (ColumnRefE None "nope")
           [] [("t::id", VNumber 1)] [[("t::id", VNumber 2)]] ["t::id"]).
  - reflexivity.
  - reflexivity.
  - intros r [].
  - reflexivity.
Defined.

End QueryRunnerFacts.

(** ** The stages of the SELECT pipeline, end to end *)

Module StagesMore.

Import Select SelectFacts SelectMore.

(** What the SELECT stage makes of one input, a raw row with its group:
    the mapped row, when HAVING is truthy on the row with aliases. *)
Definition selected (ev : Evaluator) (q : SelectQuery) (input : option Row * list Row)
    : option Row :=
  match mapRow ev q input.1 input.2 with
  | OK (mappedRow, rawRowWithAliases) =>
      match checkIfKeep ev q rawRowWithAliases input.2 with
      | OK true => Some mappedRow
      | _ => None
      end
  | Throw _ => None
  end.

(** The columns and HAVING evaluate on an input. *)
Definition select_defined (ev : Evaluator) (q : SelectQuery) (input : option Row * list Row)
    : Prop :=
  exists mappedRow rawRowWithAliases keep,
    mapRow ev q input.1 input.2 = OK (mappedRow, rawRowWithAliases)
    /\ checkIfKeep ev q rawRowWithAliases input.2 = OK keep.

Lemma selectRows_omap ev q : forall inputs out,
  selectRows ev q inputs = OK out ->
  Forall (select_defined ev q) inputs /\ out = omap (selected ev q) inputs.
Proof.
  induction inputs as [|[rawRow group] inputs IH]; intros out H; simpl in H.
  - injection H as <-. by split.
  - bind_inv H. destruct a as [mappedRow rwa]. bind_inv H. bind_inv H. injection H as <-.
    destruct (IH _ Ha1) as [Hall ->]. split.
    + constructor; [|done]. by exists mappedRow, rwa, a.
    + assert (E : selected ev q (rawRow, group) = if a then Some mappedRow else None).
      { unfold selected. simpl. rewrite Ha, Ha0. by destruct a. }
      change (omap (selected ev q) ((rawRow, group) :: inputs))
        with (match selected ev q (rawRow, group) with
              | Some y => y :: omap (selected ev q) inputs
              | None => omap (selected ev q) inputs
              end).
      rewrite E. by destruct a.
Qed.

Lemma selectRows_total ev q : forall inputs,
  Forall (select_defined ev q) inputs -> exists out, selectRows ev q inputs = OK out.
Proof.
  induction inputs as [|[rawRow group] inputs IH]; intros H; simpl; [eauto|].
  apply Forall_cons in H as [(m & rwa & keep & Hm & Hk) H].
  destruct (IH H) as [out Hout]. simpl in Hm, Hk.
  rewrite Hm. simpl. rewrite Hk. simpl. rewrite Hout. simpl. eauto.
Qed.

(** X28. The SELECT stage returns exactly when the columns and HAVING
    evaluate on every input (each row, or each group with its first row);
    it then returns, in the order of the inputs and before DISTINCT, the
    mapped rows of those inputs on which HAVING is truthy, and of no
    other. *)
Theorem having_keeps_truthy_inputs (ev : Evaluator) (q : SelectQuery) (st : State) :
  (Forall (select_defined ev q) (selectInputs (injectRow q st)) ->
   exists st', applySelectAndHaving ev q st = OK st')
  /\ (forall st',
        applySelectAndHaving ev q st = OK st' ->
        Forall (select_defined ev q) (selectInputs (injectRow q st))
        /\ this_rows st'
           = applyDistinct q (omap (selected ev q) (selectInputs (injectRow q st)))
        /\ (q_distinct q = false ->
            this_rows st' = omap (selected ev q) (selectInputs (injectRow q st)))).
Proof.
  unfold applySelectAndHaving.
  change (selectInputs (push_columns (aliasKeys (q_columns q)) (injectRow q st)))
    with (selectInputs (injectRow q st)).
  split.
  - intros Hall. destruct (selectRows_total _ _ _ Hall) as [out ->]. simpl. eauto.
  - intros st' H. bind_inv H. injection H as <-.
    apply selectRows_omap in Ha as [Hall ->]. rewrite this_rows_assign.
    split; [done|]. split; [done|]. intros Hd. unfold applyDistinct. by rewrite Hd.
Qed.

(** The rows of a table as the FROM stage qualifies them. *)
Definition table_rows (t : Table) (alias : option string) (table : string) : list Row :=
  map (fun r => mapKeys r (fun key => or_str alias table +:+ "::" +:+ key)) (getRows t).

(** The number of rows a query without groups returns for [n] rows. *)
Definition row_count (q : SelectQuery) (n : nat) : nat :=
  match n with
  | O => if injectsRow (q_columns q) then 1%nat else 0%nat
  | _ => n
  end.

Lemma sourceRows_table server sub db table alias join on t :
  (d ← getDatabase server db; getTable d table) = OK t ->
  sourceRows server sub (FromTable db table alias join on)
  = OK (table_rows t alias table,
        map (fun c => or_str alias table +:+ "::" +:+ getName c) (getColumns t)).
Proof.
  intros H. simpl. destruct (getDatabase server db) as [d|e]; [|discriminate].
  simpl in *. by rewrite H.
Qed.

Lemma applyWhere_rows ev q st st' :
  applyWhere ev q st = OK st' ->
  this_rows st' = List.filter (on_holds ev (q_where q)) (this_rows st).
Proof.
  unfold applyWhere. destruct (q_where q) as [w|]; intros H.
  - apply rethrow_OK in H. bind_inv H. injection H as <-. rewrite this_rows_assign.
    apply QueryRunnerFacts.filterM_OK in Ha as [_ ->]. apply filter_ext. intros row.
    simpl. by destruct (evaluateExpression ev w (Some row) None).
  - injection H as <-. simpl. induction (this_rows st) as [|r l IH]; simpl; congruence.
Qed.

Lemma applyOrderBy_rows sortBy ev q st st' :
  applyOrderBy sortBy ev q st = OK st' ->
  length (this_rows st') = length (this_rows st) /\ groupedRows st' = groupedRows st.
Proof.
  unfold applyOrderBy. destruct (q_orderBy q) as [|o os]; intros H; [by injection H as <-|].
  apply rethrow_OK in H. bind_inv H. injection H as <-.
  apply array_sort_perm in Ha. rewrite (this_rows_update_perm _ _ Ha).
  split; [by rewrite Ha|done].
Qed.

Lemma applySelectAndHaving_plain ev q st st' :
  groupedRows st = [] -> q_having q = Null -> q_distinct q = false ->
  applySelectAndHaving ev q st = OK st' ->
  length (this_rows st') = row_count q (length (this_rows st)).
Proof.
  intros Hg Hh Hd H. unfold applySelectAndHaving in H. bind_inv H. injection H as <-.
  rewrite this_rows_assign. unfold applyDistinct. rewrite Hd.
  destruct (selectRows_length _ _ _ _ Ha) as [_ Heq]. rewrite (Heq Hh), selectInputs_length.
  unfold select_inputs, row_count. rewrite Hg. by destruct (this_rows st).
Qed.

(** X29. A query over one table, without GROUP BY, aggregates, HAVING,
    DISTINCT, LIMIT and OFFSET, returns, when it returns, one row for each
    row of the table on which WHERE is truthy, whatever its ORDER BY; when
    there is no such row it returns one row if a column is a function, an
    expression, a literal, a CASE or a sub-query, and none otherwise. *)
Theorem single_table_row_count (server : Server)
    (newEvaluator : Server -> Row -> Evaluator) (hashCode : string -> Z)
    (sortBy : list SortByKey -> Row -> Row -> Res Z)
    (q : SelectQuery) (context : Row)
    (db : option string) (table : string) (alias join : option string)
    (on : option Expression) (t : Table) (out : list Row) :
  q_from q = [FromTable db table alias join on] ->
  (d ← getDatabase server db; getTable d table) = OK t ->
  q_groupBy q = [] ->
  hasAggregateFunction (q_columns q) = false ->
  q_having q = Null ->
  q_distinct q = false ->
  q_limit q = 0 ->
  q_offset q = 0 ->
  process server newEvaluator hashCode sortBy q context = OK out ->
  length out
  = row_count q (length (List.filter (on_holds (newEvaluator server context) (q_where q))
                                     (table_rows t alias table))).
Proof.
  intros Hfrom Ht Hgb Hagg Hh Hd Hl Ho H.
  assert (Hrun : exists st0,
             valid st0 /\ groupedRows st0 = [] /\ this_rows st0 = table_rows t alias table
             /\ afterFrom hashCode sortBy (newEvaluator server context) q st0 = OK out).
  { destruct q as [f c w g h o l off d]. simpl in Hfrom. subst f. simpl in H.
    bind_inv H. bind_inv Ha. injection Ha as <-.
    unfold fromStep in Ha0. rewrite (sourceRows_table _ _ _ _ _ _ _ _ Ht) in Ha0.
    simpl in Ha0. injection Ha0 as <-.
    eexists. split; [|split; [|split; [|exact H]]];
      [apply valid_assign|done|apply this_rows_assign]. }
  destruct Hrun as (st0 & Hv0 & Hg0 & Hr0 & Hafter).
  unfold afterFrom in Hafter.
  bind_inv Hafter. rename a into st1, Ha into Hwhere.
  bind_inv Hafter. rename a into st2, Ha into Hgroup.
  bind_inv Hafter. rename a into st3, Ha into Horder.
  bind_inv Hafter. rename a into st4, Ha into Hselect.
  bind_inv Hafter. rename a into st5, Ha into Hlimit. injection Hafter as <-.
  pose proof (applyWhere_rows _ _ _ _ Hwhere) as Hr1. rewrite Hr0 in Hr1.
  destruct (applyWhere_inv _ _ _ _ Hwhere Hv0 Hg0) as [Hv1 Hg1].
  unfold applyGroupBy in Hgroup. rewrite Hgb, Hagg in Hgroup. simpl in Hgroup.
  injection Hgroup as <-.
  destruct (applyOrderBy_rows _ _ _ _ _ Horder) as [Hr3 Hg3]. rewrite Hg1 in Hg3.
  pose proof (applySelectAndHaving_plain _ _ _ _ Hg3 Hh Hd Hselect) as Hr4.
  unfold applyLimit in Hlimit. rewrite Hl, Ho in Hlimit. simpl in Hlimit.
  injection Hlimit as <-. by rewrite Hr4, Hr3, Hr1.
Qed.

(** *** Examples *)

(** [SELECT id FROM t WHERE id = 2 ORDER BY id DESC]. *)
Definition select_id_2 : SelectQuery :=
  mkSelectQuery [FromTable None "t" None None None]
    [mkSelectColumn (ColumnRefE None "id") "id" None]
    (Some (BinaryExpressionE "=" (ColumnRefE None "id") (NumberE 2)))
    [] Null [mkOrderBy (ColumnRefE None "id") DESC] 0 0 false.

Lemma single_table_row_count_witness :
  Spec.process (server_with "t" table_1_2) select_id_2 = OK [[("id", VNumber 2)]]
  /\ 1%nat
     = row_count select_id_2
         (length (List.filter
                    (on_holds (Spec.newEvaluator (server_with "t" table_1_2) [])
                              (q_where select_id_2))
                    (table_rows table_1_2 None "t"))).
Proof.
  assert (H : Spec.process (server_with "t" table_1_2) select_id_2
              = OK [[("id", VNumber 2)]]) by (vm_compute; reflexivity).
  split; [exact H|].
  exact (single_table_row_count (server_with "t" table_1_2)
           Spec.newEvaluator Spec.hashCode Spec.sortBy select_id_2 []
           None "t" None None None table_1_2 [[("id", VNumber 2)]]
           eq_refl eq_refl eq_refl eq_refl eq_refl eq_refl eq_refl eq_refl H).
Defined.

End StagesMore.
